(** * Session resource registry of the streaming backend (server.js)

    A shallow embedding of the request handlers of [server.js]: the three
    process-wide registries [matchTransports], [matchProducers] and
    [matchConsumers], the handlers that create, look up and delete entries in
    them, and the "transportclose" listeners the handlers attach to the
    objects of the media engine.

    The media engine (mediasoup) is not part of the program.  Every call into
    it is modelled by its answer, which is an argument of the handler: what
    the call returns or throws and, for [close()], which events the engine
    emits on which objects while the call runs.  Properties that need the
    engine to behave in some way say so as a hypothesis on those answers.

    Conventions of the model
    - a plain JavaScript object used as a dictionary is the association
      list of its own properties in insertion order, enumerated the way
      [Object.keys] does;
    - request fields are JSON strings, or missing;
    - the handlers index the registries by own property.  That is what the
      program does for identifiers that are none of the names every object
      inherits ("constructor", "__proto__", ...), in a state reached
      through such identifiers ([pristine]); a property that depends on it
      says so.  What the program does with an inherited name is given, for
      the status, create-transport and consume requests, by
      [status_route], [createTransport_route] and [consume_route];
    - an engine object is identified by its engine-assigned [id]
      ([ids_unique] where a property needs ids not to be handed out twice);
    - [step] takes a handler from request to response in one go, which the
      process does while no other request arrives at an [await]
      ([produce_until_await] and [produce_from_await] give the two parts
      of the produce handler). *)

From Stdlib Require Import List String Ascii Bool Arith NArith ZArith Lia.
From Stdlib Require Import Setoid.
Import ListNotations.
Local Open Scope string_scope.
Local Open Scope list_scope.

Set Implicit Arguments.
Set Warnings "-register-all".

(* ------------------------------------------------------------------ *)
(** ** Plain objects used as dictionaries *)

Module JsObject.

(** Value of a decimal digit character. *)
Definition digit (c : ascii) : option N :=
  let n := N_of_ascii c in
  if (48 <=? n)%N && (n <=? 57)%N then Some (n - 48)%N else None.

Fixpoint digits_value (s : string) (acc : N) : option N :=
  match s with
  | EmptyString => Some acc
  | String c s' =>
      match digit c with
      | Some d => digits_value s' (10 * acc + d)%N
      | None => None
      end
  end.

(** A property key is an array index when it is the canonical decimal
    form of an integer in [0, 2^32 - 2]. *)
Definition array_index (s : string) : option N :=
  match s with
  | EmptyString => None
  | String c s' =>
      if Ascii.eqb c "0"%char && negb (String.eqb s' "") then None
      else match digits_value s 0%N with
           | Some n => if (n <? 4294967295)%N then Some n else None
           | None => None
           end
  end.

Definition is_index (s : string) : bool :=
  match array_index s with Some _ => true | None => false end.

Fixpoint insert_index (e : N * string) (l : list (N * string))
  : list (N * string) :=
  match l with
  | [] => [e]
  | e' :: l' =>
      if (fst e <=? fst e')%N then e :: l else e' :: insert_index e l'
  end.

Fixpoint sort_index (l : list (N * string)) : list (N * string) :=
  match l with
  | [] => []
  | e :: l' => insert_index e (sort_index l')
  end.

Fixpoint index_keys (ks : list string) : list (N * string) :=
  match ks with
  | [] => []
  | k :: ks' =>
      match array_index k with
      | Some n => (n, k) :: index_keys ks'
      | None => index_keys ks'
      end
  end.

Section Dict.
Context {V : Type}.

(** Own properties in the order they were created. *)
Definition t := list (string * V).

Definition empty : t := [].

(** [o[k]] *)
Fixpoint get (k : string) (o : t) : option V :=
  match o with
  | [] => None
  | (k', v) :: o' => if String.eqb k k' then Some v else get k o'
  end.

(** [o[k] = v]: an existing property keeps its place. *)
Fixpoint set (k : string) (v : V) (o : t) : t :=
  match o with
  | [] => [(k, v)]
  | (k', v') :: o' =>
      if String.eqb k k' then (k', v) :: o' else (k', v') :: set k v o'
  end.

(** [delete o[k]] *)
Definition delete (k : string) (o : t) : t :=
  filter (fun kv => negb (String.eqb k (fst kv))) o.

Definition own_keys (o : t) : list string := map fst o.

(** [Object.keys(o)]: array indices in ascending numeric order, then
    the other keys in creation order. *)
Definition keys (o : t) : list string :=
  map snd (sort_index (index_keys (own_keys o)))
    ++ filter (fun k => negb (is_index k)) (own_keys o).

(** [Object.values(o)] *)
Definition values (o : t) : list V :=
  flat_map (fun k => match get k o with Some v => [v] | None => [] end)
           (keys o).

(** Number of own properties. *)
Definition size (o : t) : nat := List.length o.

End Dict.

Arguments t : clear implicits.

End JsObject.


Abbreviation Dict := JsObject.t.

(** [o[m]?.[k]] on a dictionary of dictionaries. *)
Definition lookup2 {V : Type} (o : Dict (Dict V)) (m k : string) : option V :=
  match JsObject.get m o with
  | Some inner => JsObject.get k inner
  | None => None
  end.

(* ------------------------------------------------------------------ *)
(** ** Values and responses *)

(** Data the handlers pass through without looking inside (ICE and DTLS
    parameters, RTP parameters and capabilities).  As a JavaScript object
    it is always truthy. *)
Inductive Blob : Type := blob (repr : string).

Inductive JsVal : Type :=
| JUndefined
| JBool (b : bool)
| JNum (n : nat)
| JStr (s : string)
| JBlob (b : Blob)
| JObj (fields : list (string * JsVal)).

(** What [JSON.stringify] leaves of a value: a property whose value is
    [undefined] is not written. *)
Inductive Json : Type :=
| JsonBool (b : bool)
| JsonNum (n : nat)
| JsonStr (s : string)
| JsonBlob (b : Blob)
| JsonObj (fields : list (string * Json)).

Fixpoint stringify (v : JsVal) : option Json :=
  match v with
  | JUndefined => None
  | JBool b => Some (JsonBool b)
  | JNum n => Some (JsonNum n)
  | JStr s => Some (JsonStr s)
  | JBlob b => Some (JsonBlob b)
  | JObj fields =>
      Some (JsonObj
        ((fix props (l : list (string * JsVal)) : list (string * Json) :=
            match l with
            | [] => []
            | (k, x) :: l' =>
                match stringify x with
                | Some j => (k, j) :: props l'
                | None => props l'
                end
            end) fields))
  end.

(** JavaScript truthiness of the values that occur here. *)
Definition truthy (v : JsVal) : bool :=
  match v with
  | JUndefined => false
  | JBool b => b
  | JNum n => negb (Nat.eqb n 0)
  | JStr s => negb (String.eqb s "")
  | JBlob _ => true
  | JObj _ => true
  end.

(** A request field that holds a string, or is missing ([undefined]).
    [present] gives its value when the field is truthy. *)
Definition present (field : option string) : option string :=
  match field with
  | Some s => if String.eqb s "" then None else Some s
  | None => None
  end.

Record Response : Type := { status : nat; body : JsVal }.

(** [res.json(v)] *)
Definition json (v : JsVal) : Response := {| status := 200; body := v |}.

(** [res.status(code).json({ error: msg })] *)
Definition error (code : nat) (msg : string) : Response :=
  {| status := code; body := JObj [("error", JStr msg)] |}.

(** [res.status(code).json({ error: msg, details: error.message })] *)
Definition error_details (code : nat) (msg details : string) : Response :=
  {| status := code;
     body := JObj [("error", JStr msg); ("details", JStr details)] |}.

Definition success : Response := json (JObj [("success", JBool true)]).

(** The answers the specification names. *)
Definition SessionIdMissing : Response := error 400 "Match ID is required".
Definition TransportNotFound : Response := error 404 "Transport not found".
Definition NoProducerAvailable : Response := error 404 "No producer available".
Definition IncompatibleCapabilities : Response :=
  error 400 "Cannot consume this producer".

(** The body as it goes over the wire. *)
Definition serialized (r : Response) : option Json := stringify (body r).

(* ------------------------------------------------------------------ *)
(** ** Engine objects, events and listeners *)

Record Transport : Type := {
  transport_id : string;
  iceParameters : Blob;
  iceCandidates : Blob;
  dtlsParameters : Blob
}.

(** [producer_transport] is the transport whose [produce()] made the
    producer; the engine knows it, the handlers never read it. *)
Record Producer : Type := {
  producer_id : string;
  producer_transport : string
}.

(** [consumer_transport] is the transport whose [consume()] made the
    consumer, [consumer_producerId] the producer it was made for. *)
Record Consumer : Type := {
  consumer_id : string;
  consumer_kind : string;
  consumer_rtpParameters : Blob;
  consumer_transport : string;
  consumer_producerId : string
}.

Inductive Target : Type :=
| TransportObj (id : string)
| ProducerObj (id : string)
| ConsumerObj (id : string).

Definition Target_eqb (a b : Target) : bool :=
  match a, b with
  | TransportObj x, TransportObj y => String.eqb x y
  | ProducerObj x, ProducerObj y => String.eqb x y
  | ConsumerObj x, ConsumerObj y => String.eqb x y
  | _, _ => false
  end.

(** An event emitted on an engine object. *)
Record Emit : Type := { emit_target : Target; emit_event : string }.

Definition Emit_eqb (a b : Emit) : bool :=
  Target_eqb (emit_target a) (emit_target b)
  && String.eqb (emit_event a) (emit_event b).

Definition transportclose (x : Target) : Emit :=
  {| emit_target := x; emit_event := "transportclose" |}.

(** The two closures the program ever attaches with [.on], each to the
    object it has just been handed, for "transportclose"; it carries the
    [matchId] of the request and the id of that object. *)
Inductive Listener : Type :=
| ProducerTransportClose (matchId producerId : string)
| ConsumerTransportClose (matchId consumerId : string).

(** The object and event a listener waits for. *)
Definition listens_to (l : Listener) : Emit :=
  match l with
  | ProducerTransportClose _ id => transportclose (ProducerObj id)
  | ConsumerTransportClose _ id => transportclose (ConsumerObj id)
  end.

(** What an engine call does from the caller's side. *)
Inductive Reply (A : Type) : Type :=
| Returns (a : A)
| Throws (message : string).

Arguments Throws {A} message.

(** [close()] on an engine object: the events emitted while it runs, then
    its return or throw. *)
Record CloseReply : Type := {
  emitted : list Emit;
  outcome : Reply unit
}.

(** What [transport.consume()] hands back. *)
Record Consumed : Type := {
  consumed_id : string;
  consumed_kind : string;
  consumed_rtpParameters : Blob
}.

(* ------------------------------------------------------------------ *)
(** ** The state of the process *)

Record World : Type := {
  matchTransports : Dict (Dict Transport);
  matchProducers : Dict (Dict Producer);
  matchConsumers : Dict (Dict Consumer);
  listeners : list Listener
}.

Definition initial : World :=
  {| matchTransports := JsObject.empty;
     matchProducers := JsObject.empty;
     matchConsumers := JsObject.empty;
     listeners := [] |}.

Definition set_transports (o : Dict (Dict Transport)) (w : World) : World :=
  {| matchTransports := o;
     matchProducers := matchProducers w;
     matchConsumers := matchConsumers w;
     listeners := listeners w |}.

Definition set_producers (o : Dict (Dict Producer)) (w : World) : World :=
  {| matchTransports := matchTransports w;
     matchProducers := o;
     matchConsumers := matchConsumers w;
     listeners := listeners w |}.

Definition set_consumers (o : Dict (Dict Consumer)) (w : World) : World :=
  {| matchTransports := matchTransports w;
     matchProducers := matchProducers w;
     matchConsumers := o;
     listeners := listeners w |}.

Definition add_listener (l : Listener) (w : World) : World :=
  {| matchTransports := matchTransports w;
     matchProducers := matchProducers w;
     matchConsumers := matchConsumers w;
     listeners := listeners w ++ [l] |}.

(** One of the three registries, as a field of the state. *)
Record Registry (V : Type) : Type := {
  read : World -> Dict (Dict V);
  write : Dict (Dict V) -> World -> World
}.

Definition transports : Registry Transport :=
  {| read := matchTransports; write := set_transports |}.
Definition producers : Registry Producer :=
  {| read := matchProducers; write := set_producers |}.
Definition consumers : Registry Consumer :=
  {| read := matchConsumers; write := set_consumers |}.

(* ------------------------------------------------------------------ *)
(** ** Handler code as a state monad with exceptions *)

Inductive Completion (A : Type) : Type :=
| Normal (a : A)
| Thrown (message : string).

Arguments Thrown {A} message.

Definition Js (A : Type) : Type := World -> Completion A * World.

Definition ret {A : Type} (a : A) : Js A := fun w => (Normal a, w).

Definition bind {A B : Type} (c : Js A) (k : A -> Js B) : Js B :=
  fun w =>
    match c w with
    | (Normal a, w') => k a w'
    | (Thrown e, w') => (Thrown e, w')
    end.

Definition throw {A : Type} (e : string) : Js A := fun w => (Thrown e, w).

(** [try { body } catch (error) { handler }]: what [body] did to the state
    before it threw stays done. *)
Definition try_catch {A : Type} (body : Js A) (handler : string -> Js A)
  : Js A :=
  fun w =>
    match body w with
    | (Normal a, w') => (Normal a, w')
    | (Thrown e, w') => handler e w'
    end.

Definition inspect {A : Type} (f : World -> A) : Js A :=
  fun w => (Normal (f w), w).

Definition update (f : World -> World) : Js unit :=
  fun w => (Normal tt, f w).

Declare Scope js_scope.
Delimit Scope js_scope with js.
Notation "x <- c1 ;; c2" := (bind c1 (fun x => c2))
  (at level 61, c1 at next level, right associativity) : js_scope.
Notation "c1 ;; c2" := (bind c1 (fun _ => c2))
  (at level 61, right associativity) : js_scope.
Local Open Scope js_scope.

(** [l.forEach(f)] *)
Fixpoint forEach {A : Type} (l : list A) (f : A -> Js unit) : Js unit :=
  match l with
  | [] => ret tt
  | x :: l' => f x ;; forEach l' f
  end.

(** The state and the response a handler leaves. *)
Definition after {A : Type} (c : Js A) (w : World) : World := snd (c w).
Definition answer {A : Type} (c : Js A) (w : World) : Completion A :=
  fst (c w).

(** *** Registry statements *)

(** [if (!reg[m]) reg[m] = {}] *)
Definition ensure_in {V : Type} (reg : Registry V) (m : string) (w : World)
  : World :=
  match JsObject.get m (read reg w) with
  | Some _ => w
  | None => write reg (JsObject.set m JsObject.empty (read reg w)) w
  end.

Definition ensure {V : Type} (reg : Registry V) (m : string) : Js unit :=
  update (ensure_in reg m).

(** [reg[m][k] = v]; with [reg[m]] undefined this is a TypeError. *)
Definition assign {V : Type} (reg : Registry V) (m k : string) (v : V)
  : Js unit :=
  fun w =>
    match JsObject.get m (read reg w) with
    | Some inner =>
        (Normal tt,
         write reg (JsObject.set m (JsObject.set k v inner) (read reg w)) w)
    | None => (Thrown "TypeError: cannot set properties of undefined", w)
    end.

(** [delete reg[m][k]]; with [reg[m]] undefined this is a TypeError. *)
Definition remove_in {V : Type} (reg : Registry V) (m k : string) (w : World)
  : option World :=
  match JsObject.get m (read reg w) with
  | Some inner =>
      Some (write reg
              (JsObject.set m (JsObject.delete k inner) (read reg w)) w)
  | None => None
  end.

Definition remove {V : Type} (reg : Registry V) (m k : string) : Js unit :=
  fun w =>
    match remove_in reg m k w with
    | Some w' => (Normal tt, w')
    | None =>
        (Thrown "TypeError: cannot convert undefined or null to object", w)
    end.

(** [delete reg[m]] *)
Definition drop {V : Type} (reg : Registry V) (m : string) : Js unit :=
  update (fun w => write reg (JsObject.delete m (read reg w)) w).

(** *** Events *)

(** The body of the two listeners:
    [if (reg[matchId]?.[x.id]) { delete reg[matchId][x.id]; }] *)
Definition forget {V : Type} (reg : Registry V) (m k : string) (w : World)
  : World :=
  match lookup2 (read reg w) m k with
  | Some _ =>
      match remove_in reg m k w with
      | Some w' => w'
      | None => w
      end
  | None => w
  end.

Definition run_listener (l : Listener) (w : World) : World :=
  match l with
  | ProducerTransportClose m id => forget producers m id w
  | ConsumerTransportClose m id => forget consumers m id w
  end.

(** The engine emits [e]: the listeners attached to that object for that
    event run in the order they were attached. *)
Definition emit (e : Emit) (w : World) : World :=
  fold_left
    (fun w' l => if Emit_eqb (listens_to l) e then run_listener l w' else w')
    (listeners w) w.

Definition emit_all (es : list Emit) (w : World) : World :=
  fold_left (fun w' e => emit e w') es w.

(** *** Engine calls *)

(** The handler waits for the engine and gets its reply. *)
Definition await {A : Type} (r : Reply A) : Js A :=
  match r with
  | Returns a => ret a
  | Throws e => throw e
  end.

(** [x.close()] *)
Definition close (r : CloseReply) : Js unit :=
  update (emit_all (emitted r)) ;; await (outcome r).

(** The engine's reply to [close()] on each object, for one request. *)
Definition Closing : Type := Target -> CloseReply.


(* ------------------------------------------------------------------ *)
(** ** The request handlers *)

(** [POST /api/create-transport] *)
Definition createTransport (matchId : option string)
    (created : Reply Transport) : Js Response :=
  match present matchId with
  | None => ret SessionIdMissing
  | Some m =>
      try_catch
        (transport <- await created ;;
         ensure transports m ;;
         assign transports m (transport_id transport) transport ;;
         ret (json (JObj
           [("transportOptions", JObj
              [("id", JStr (transport_id transport));
               ("iceParameters", JBlob (iceParameters transport));
               ("iceCandidates", JBlob (iceCandidates transport));
               ("dtlsParameters", JBlob (dtlsParameters transport))])])))
        (fun _ => ret (error 500 "Transport creation failed"))
  end.

(** [POST /api/connect-transport] *)
Definition connectTransport (matchId transportId : option string)
    (dtls : option Blob) (connected : Reply unit) : Js Response :=
  match present matchId, present transportId with
  | Some m, Some t =>
      found <- inspect (fun w => lookup2 (matchTransports w) m t) ;;
      match found with
      | None => ret TransportNotFound
      | Some _ =>
          try_catch
            (await connected ;; ret success)
            (fun _ => ret (error 500 "Transport connection failed"))
      end
  | _, _ => ret (error 400 "Match ID and Transport ID are required")
  end.

(** [POST /api/produce] *)
Definition produce (matchId transportId kind : option string)
    (rtpParameters : option Blob) (produced : Reply string) : Js Response :=
  match present matchId, present transportId, present kind, rtpParameters with
  | Some m, Some t, Some _, Some _ =>
      found <- inspect (fun w => lookup2 (matchTransports w) m t) ;;
      match found with
      | None => ret TransportNotFound
      | Some transport =>
          try_catch
            (id <- await produced ;;
             ensure producers m ;;
             assign producers m id
               {| producer_id := id;
                  producer_transport := transport_id transport |} ;;
             update (add_listener (ProducerTransportClose m id)) ;;
             ret (json (JObj [("id", JStr id)])))
            (fun e => ret (error_details 500 "Production failed" e))
      end
  | _, _, _, _ => ret (error 400 "Missing required fields")
  end.

(** The [try] block of the consume handler, entered with the transport
    and the producer the handler has settled on. *)
Definition attach (m : string) (transport : Transport) (producer : Producer)
    (consumed : Reply Consumed) : Js Response :=
  try_catch
    (c <- await consumed ;;
     ensure consumers m ;;
     assign consumers m (consumed_id c)
       {| consumer_id := consumed_id c;
          consumer_kind := consumed_kind c;
          consumer_rtpParameters := consumed_rtpParameters c;
          consumer_transport := transport_id transport;
          consumer_producerId := producer_id producer |} ;;
     update (add_listener (ConsumerTransportClose m (consumed_id c))) ;;
     ret (json (JObj
       [("id", JStr (consumed_id c));
        ("producerId", JStr (producer_id producer));
        ("kind", JStr (consumed_kind c));
        ("rtpParameters", JBlob (consumed_rtpParameters c))])))
    (fun e => ret (error_details 500 "Consumption failed" e)).

(** [POST /api/consume]; [canConsume] is the engine's [router.canConsume]
    for the request's capabilities, by producer id. *)
Definition consume (matchId transportId : option string)
    (rtpCapabilities : option Blob) (canConsume : string -> bool)
    (consumed : Reply Consumed) : Js Response :=
  match present matchId, present transportId, rtpCapabilities with
  | Some m, Some t, Some _ =>
      found <- inspect (fun w => lookup2 (matchTransports w) m t) ;;
      match found with
      | None => ret TransportNotFound
      | Some transport =>
          session <- inspect (fun w =>
            match JsObject.get m (matchProducers w) with
            | Some o => o
            | None => JsObject.empty
            end) ;;
          match JsObject.keys session with
          | [] => ret NoProducerAvailable
          | first :: _ =>
              match JsObject.get first session with
              | None => throw "TypeError: cannot read properties of undefined"
              | Some producer =>
                  if negb (canConsume (producer_id producer))
                  then ret IncompatibleCapabilities
                  else attach m transport producer consumed
              end
          end
      end
  | _, _, _ => ret (error 400 "Missing required fields")
  end.

(** [GET /api/stream-status/:matchId]; [hasProducers] is the value of
    [matchProducers[matchId] &&
     Object.keys(matchProducers[matchId]).length > 0]. *)
Definition hasProducers (matchId : string) (w : World) : JsVal :=
  match JsObject.get matchId (matchProducers w) with
  | None => JUndefined
  | Some o => JBool (0 <? List.length (JsObject.keys o))%nat
  end.

Definition status_of (matchId : string) : Js Response :=
  has <- inspect (hasProducers matchId) ;;
  count <-
    (if truthy has
     then
       session <- inspect (fun w => JsObject.get matchId (matchProducers w)) ;;
       match session with
       | Some o => ret (List.length (JsObject.keys o))
       | None => throw "TypeError: cannot convert undefined or null to object"
       end
     else ret 0) ;;
  ret (json (JObj [("isActive", has); ("producerCount", JNum count)])).

(** [POST /api/close-producer] *)
Definition closeProducer (matchId producerId : option string)
    (closing : Closing) : Js Response :=
  match present matchId, present producerId with
  | Some m, Some p =>
      try_catch
        (found <- inspect (fun w => lookup2 (matchProducers w) m p) ;;
         match found with
         | Some producer =>
             close (closing (ProducerObj (producer_id producer))) ;;
             remove producers m p ;;
             ret success
         | None => ret success
         end)
        (fun _ => ret (error 500 "Failed to close producer"))
  | _, _ => ret (error 400 "Match ID and Producer ID required")
  end.

(** [POST /api/close-transport] *)
Definition closeTransport (matchId transportId : option string)
    (closing : Closing) : Js Response :=
  match present matchId, present transportId with
  | Some m, Some t =>
      try_catch
        (found <- inspect (fun w => lookup2 (matchTransports w) m t) ;;
         match found with
         | Some transport =>
             close (closing (TransportObj (transport_id transport))) ;;
             remove transports m t ;;
             ret success
         | None => ret success
         end)
        (fun _ => ret (error 500 "Failed to close transport"))
  | _, _ => ret (error 400 "Match ID and Transport ID required")
  end.

(** One block of the cleanup:
    [if (reg[m]) { Object.values(reg[m]).forEach(x => x.close());
                   delete reg[m]; }] *)
Definition close_all {V : Type} (reg : Registry V) (obj : V -> Target)
    (m : string) (closing : Closing) : Js unit :=
  session <- inspect (fun w => JsObject.get m (read reg w)) ;;
  match session with
  | Some o =>
      forEach (JsObject.values o) (fun x => close (closing (obj x))) ;;
      drop reg m
  | None => ret tt
  end.

(** [POST /api/cleanup-match] *)
Definition cleanupSession (matchId : option string) (closing : Closing)
  : Js Response :=
  match present matchId with
  | Some m =>
      try_catch
        (close_all producers (fun p => ProducerObj (producer_id p)) m closing ;;
         close_all consumers (fun c => ConsumerObj (consumer_id c)) m closing ;;
         close_all transports (fun t => TransportObj (transport_id t)) m
           closing ;;
         ret success)
        (fun _ => ret (error 500 "Failed to clean up match resources"))
  | None => ret (error 400 "Match ID required")
  end.

(* ------------------------------------------------------------------ *)
(** ** Runs of the server *)

(** What can happen to the state: a request is handled, or the engine
    emits an event on its own. *)
Inductive Step : Type :=
| CreateTransport (matchId : option string) (created : Reply Transport)
| ConnectTransport (matchId transportId : option string)
    (dtls : option Blob) (connected : Reply unit)
| Produce (matchId transportId kind : option string)
    (rtpParameters : option Blob) (produced : Reply string)
| Consume (matchId transportId : option string)
    (rtpCapabilities : option Blob) (canConsume : string -> bool)
    (consumed : Reply Consumed)
| Status (matchId : string)
| CloseProducer (matchId producerId : option string) (closing : Closing)
| CloseTransport (matchId transportId : option string) (closing : Closing)
| CleanupSession (matchId : option string) (closing : Closing)
| EngineEmits (e : Emit).

Definition step (s : Step) (w : World) : World :=
  match s with
  | CreateTransport m r => after (createTransport m r) w
  | ConnectTransport m t d r => after (connectTransport m t d r) w
  | Produce m t k p r => after (produce m t k p r) w
  | Consume m t c can r => after (consume m t c can r) w
  | Status m => after (status_of m) w
  | CloseProducer m p closing => after (closeProducer m p closing) w
  | CloseTransport m t closing => after (closeTransport m t closing) w
  | CleanupSession m closing => after (cleanupSession m closing) w
  | EngineEmits e => emit e w
  end.

Definition steps (l : list Step) (w : World) : World :=
  fold_left (fun w' s => step s w') l w.

(** The handles registered under a session. *)
Definition entries {V : Type} (reg : Registry V) (m : string) (w : World)
  : list V :=
  match JsObject.get m (read reg w) with
  | Some o => map snd o
  | None => []
  end.

(** The engine's side of a transport close: while [close()] runs, it emits
    "transportclose" on every producer and consumer made on that transport
    (here: on those registered under session [m]). *)
Definition dependents_notified (m t : string) (r : CloseReply) (w : World)
  : bool :=
  forallb
    (fun p =>
       implb (String.eqb (producer_transport p) t)
         (existsb (Emit_eqb (transportclose (ProducerObj (producer_id p))))
            (emitted r)))
    (entries producers m w)
  && forallb
    (fun c =>
       implb (String.eqb (consumer_transport c) t)
         (existsb (Emit_eqb (transportclose (ConsumerObj (consumer_id c))))
            (emitted r)))
    (entries consumers m w).

(** A step in which every transport close that the close-transport
    handler completes has notified the dependents. *)
Definition engine_notifies (s : Step) (w : World) : bool :=
  match s with
  | CloseTransport matchId transportId closing =>
      match present matchId, present transportId with
      | Some m, Some t =>
          match lookup2 (matchTransports w) m t with
          | Some transport =>
              let r := closing (TransportObj (transport_id transport)) in
              match outcome r with
              | Returns _ =>
                  dependents_notified m (transport_id transport) r w
              | Throws _ => true
              end
          | None => true
          end
      | _, _ => true
      end
  | _ => true
  end.

(** A run in which the engine notifies dependents; [None] when it does not. *)
Fixpoint run (l : list Step) (w : World) : option World :=
  match l with
  | [] => Some w
  | s :: rest => if engine_notifies s w then run rest (step s w) else None
  end.

(** Every registered producer and consumer has the transport it was made
    on registered under the same session. *)
Definition owners_registered (w : World) : Prop :=
  (forall m k p,
      lookup2 (matchProducers w) m k = Some p ->
      lookup2 (matchTransports w) m (producer_transport p) <> None)
  /\ (forall m k c,
      lookup2 (matchConsumers w) m k = Some c ->
      lookup2 (matchTransports w) m (consumer_transport c) <> None).

(** The session has no entry in any registry. *)
Definition absent (m : string) (w : World) : Prop :=
  JsObject.get m (matchTransports w) = None
  /\ JsObject.get m (matchProducers w) = None
  /\ JsObject.get m (matchConsumers w) = None.

(** Engine replies used in examples. *)
Definition quiet : Closing :=
  fun _ => {| emitted := []; outcome := Returns tt |}.

Definition failing : Closing :=
  fun _ => {| emitted := []; outcome := Throws "close failed" |}.

(* ------------------------------------------------------------------ *)
(** ** Names that every object inherits *)

(** The registries and their dictionaries are plain objects, and the
    handlers index them with strings of the request.  Such an index gives
    an own property or, for one of the names below, the member the object
    inherits from [Object.prototype]: a function for all of them but
    "__proto__", which gives [Object.prototype] itself.  Every one of them
    is truthy, and none has [connect], [produce], [consume] or [close]. *)
Definition inherited_names : list string :=
  ["constructor"; "__defineGetter__"; "__defineSetter__"; "hasOwnProperty";
   "__lookupGetter__"; "__lookupSetter__"; "isPrototypeOf";
   "propertyIsEnumerable"; "toString"; "valueOf"; "__proto__";
   "toLocaleString"].

Definition is_inherited (k : string) : bool :=
  existsb (String.eqb k) inherited_names.

(** An identifier that is none of these names: for it, indexing a plain
    object reads an own property or gives [undefined]. *)
Definition ordinary (k : string) : Prop := is_inherited k = false.

(** A request field that is missing, or an ordinary identifier. *)
Definition plainb (field : option string) : bool :=
  match field with
  | Some k => negb (is_inherited k)
  | None => true
  end.

Definition plain (field : option string) : Prop := plainb field = true.

(** The id in an engine reply, if the call returned, is ordinary. *)
Definition plain_reply {A : Type} (id : A -> string) (r : Reply A) : bool :=
  match r with
  | Returns a => negb (is_inherited (id a))
  | Throws _ => true
  end.

(** A step that names no inherited member, as session id, as resource id or
    as the id the engine hands out. *)
Definition plain_step (s : Step) : bool :=
  match s with
  | CreateTransport m r => plainb m && plain_reply transport_id r
  | ConnectTransport m t _ _ => plainb m && plainb t
  | Produce m t _ _ r => plainb m && plainb t && plain_reply (fun id => id) r
  | Consume m t _ _ r => plainb m && plainb t && plain_reply consumed_id r
  | Status m => negb (is_inherited m)
  | CloseProducer m p _ => plainb m && plainb p
  | CloseTransport m t _ => plainb m && plainb t
  | CleanupSession m _ => plainb m
  | EngineEmits _ => true
  end.

(** A state the process reaches from start-up through such steps, each
    handled to its end before the next.  In these states the built-in
    objects are as at start-up, and a [World] lists all there is to the
    registries.  (A request under a session id such as "constructor" or
    "__proto__" writes onto [Object] or [Object.prototype], which the three
    registries share; that is outside what a [World] records.) *)
Definition pristine (w : World) : Prop :=
  exists l, forallb plain_step l = true /\ steps l initial = w.

(** What indexing a plain object with own properties [o] gives. *)
Inductive Property (V : Type) : Type :=
| Own (v : V)
| Inherited (name : string)
| Undefined.

Arguments Inherited {V} name.
Arguments Undefined {V}.

Definition property {V : Type} (k : string) (o : Dict V) : Property V :=
  match JsObject.get k o with
  | Some v => Own v
  | None => if is_inherited k then Inherited k else Undefined
  end.

(** [reg[m]?.[k]] for a session id [m] that is ordinary: without a
    dictionary for [m] the index short-circuits to [undefined], whatever
    [k] is. *)
Definition property2 {V : Type} (o : Dict (Dict V)) (m k : string)
  : Property V :=
  match JsObject.get m o with
  | Some inner => property k inner
  | None => Undefined
  end.

(** A handle of any kind: what a request can put on an object. *)
Inductive Handle : Type :=
| TransportHandle (t : Transport)
| ProducerHandle (p : Producer)
| ConsumerHandle (c : Consumer).

(** The process together with the built-in objects its registries inherit
    from.  [written] holds, under the name of an inherited member, the
    enumerable properties that requests have put on that member: none at
    start-up.  The three registries reach the same member under one name:
    "constructor" gives [Object] whichever registry is indexed, and
    "__proto__" gives [Object.prototype]. *)
Record Process : Type := {
  held : World;
  written : Dict (Dict Handle)
}.

Definition booted : Process :=
  {| held := initial; written := JsObject.empty |}.

(** The properties requests have put on the member called [name]. *)
Definition written_on (name : string) (p : Process) : Dict Handle :=
  match JsObject.get name (written p) with
  | Some o => o
  | None => JsObject.empty
  end.

(** [POST /api/create-transport] for any session id that no request has
    put on [Object.prototype].  Under the name of an inherited member
    [!matchTransports[matchId]] is false, no dictionary is made, and
    [matchTransports[matchId][transport.id] = transport] puts the
    transport on the member itself (the engine's id being none of the
    member's properties). *)
Definition createTransport_route (matchId : option string)
    (created : Reply Transport) (p : Process)
  : Completion Response * Process :=
  match present matchId with
  | Some m =>
      match property m (matchTransports (held p)), created with
      | Inherited name, Returns t =>
          (answer (createTransport matchId created) (held p),
           {| held := held p;
              written :=
                JsObject.set name
                  (JsObject.set (transport_id t) (TransportHandle t)
                     (written_on name p))
                  (written p) |})
      | _, _ =>
          (answer (createTransport matchId created) (held p),
           {| held := after (createTransport matchId created) (held p);
              written := written p |})
      end
  | None => (Normal SessionIdMissing, p)
  end.

(** [GET /api/stream-status/:matchId] for any session id that no request
    has put on [Object.prototype].  Under the name of an inherited member
    [matchProducers[matchId]] is that member, which is truthy, and
    [Object.keys] lists what requests have put on it. *)
Definition status_route (matchId : string) (p : Process)
  : Completion Response * Process :=
  match property matchId (matchProducers (held p)) with
  | Inherited name =>
      let keys := JsObject.keys (written_on name p) in
      let has := (0 <? List.length keys)%nat in
      (Normal (json (JObj
         [("isActive", JBool has);
          ("producerCount", JNum (if has then List.length keys else 0))])),
       p)
  | _ => (answer (status_of matchId) (held p), p)
  end.


(** [POST /api/consume] for an ordinary session id and any transport id.
    An inherited name as transport id passes [if (!transport)] in a session
    that has a transport dictionary; the handler goes on to choose the
    producer and, if it gets that far, [transport.consume] is not a
    function: the TypeError is thrown inside the [try]. *)
Definition consume_route (matchId transportId : option string)
    (rtpCapabilities : option Blob) (canConsume : string -> bool)
    (consumed : Reply Consumed) : Js Response :=
  match present matchId, present transportId, rtpCapabilities with
  | Some m, Some t, Some _ =>
      found <- inspect (fun w => property2 (matchTransports w) m t) ;;
      match found with
      | Undefined => ret TransportNotFound
      | Own _ =>
          consume matchId transportId rtpCapabilities canConsume consumed
      | Inherited _ =>
          session <- inspect (fun w =>
            match JsObject.get m (matchProducers w) with
            | Some o => o
            | None => JsObject.empty
            end) ;;
          match JsObject.keys session with
          | [] => ret NoProducerAvailable
          | first :: _ =>
              match JsObject.get first session with
              | None => throw "TypeError: cannot read properties of undefined"
              | Some producer =>
                  if negb (canConsume (producer_id producer))
                  then ret IncompatibleCapabilities
                  else
                    try_catch
                      (throw "transport.consume is not a function")
                      (fun e =>
                         ret (error_details 500 "Consumption failed" e))
              end
          end
      end
  | _, _, _ => ret (error 400 "Missing required fields")
  end.

(* ------------------------------------------------------------------ *)
(** ** A handler across its [await] *)

(** [step] takes each handler from request to response in one go.  The
    process does so only while no other request arrives in between: at an
    [await] the handler is suspended and others may run.  For the produce
    handler the two parts are: *)
Inductive Suspended : Type :=
| Answered (r : Response)
| Awaiting (m : string) (transport : Transport).

(** ... up to [await transport.produce(...)], *)
Definition produce_until_await (matchId transportId kind : option string)
    (rtpParameters : option Blob) (w : World) : Suspended :=
  match present matchId, present transportId, present kind, rtpParameters with
  | Some m, Some t, Some _, Some _ =>
      match lookup2 (matchTransports w) m t with
      | None => Answered TransportNotFound
      | Some transport => Awaiting m transport
      end
  | _, _, _, _ => Answered (error 400 "Missing required fields")
  end.

(** ... and from the engine's answer on. *)
Definition produce_from_await (m : string) (transport : Transport)
    (produced : Reply string) : Js Response :=
  try_catch
    (id <- await produced ;;
     ensure producers m ;;
     assign producers m id
       {| producer_id := id;
          producer_transport := transport_id transport |} ;;
     update (add_listener (ProducerTransportClose m id)) ;;
     ret (json (JObj [("id", JStr id)])))
    (fun e => ret (error_details 500 "Production failed" e)).

(* ------------------------------------------------------------------ *)
(** ** Start-up and the router *)

(** The engine's router, of which the program reads
    [router.rtpCapabilities]. *)
Record Router : Type := { router_rtpCapabilities : Blob }.

(** The engine's worker, with the answer its [createRouter()] gives. *)
Record Worker : Type := { createRouter : Reply Router }.

(** The process: [worker] and [router] are [undefined] until
    [createMediasoupWorker] has assigned them. *)
Record Server : Type := {
  worker : option Worker;
  router : option Router;
  registries : World
}.

Definition starting : Server :=
  {| worker := None; router := None; registries := initial |}.

Definition with_registries (w : World) (s : Server) : Server :=
  {| worker := worker s; router := router s; registries := w |}.

(** [createMediasoupWorker]: [created] is what [mediasoup.createWorker()]
    answers.  Each assignment happens when its [await] returns; a throw
    leaves the rest undone. *)
Definition createMediasoupWorker (created : Reply Worker) (s : Server)
  : Completion unit * Server :=
  match created with
  | Throws e => (Thrown e, s)
  | Returns w =>
      match createRouter w with
      | Throws e =>
          (Thrown e,
           {| worker := Some w; router := router s;
              registries := registries s |})
      | Returns r =>
          (Normal tt,
           {| worker := Some w; router := Some r;
              registries := registries s |})
      end
  end.

(** [GET /api/rtp-capabilities] *)
Definition getCapabilities (s : Server) : Response :=
  match router s with
  | None => error 500 "Router not initialized"
  | Some r => json (JBlob (router_rtpCapabilities r))
  end.

(** [router.createWebRtcTransport(...)]: a TypeError while [router] is
    [undefined], otherwise what the engine answers. *)
Definition createWebRtcTransport (s : Server) (created : Reply Transport)
  : Reply Transport :=
  match router s with
  | Some _ => created
  | None =>
      Throws "TypeError: cannot read properties of undefined"
  end.

(** What happens to the process: the start-up call, or a step of the
    handlers on its registries. *)
Inductive Happening : Type :=
| Boot (created : Reply Worker)
| Handled (s : Step).

Definition serve (x : Happening) (s : Server) : Server :=
  match x with
  | Boot created => snd (createMediasoupWorker created s)
  | Handled (CreateTransport matchId created) =>
      with_registries
        (after (createTransport matchId (createWebRtcTransport s created))
           (registries s)) s
  | Handled r => with_registries (step r (registries s)) s
  end.

Definition served (l : list Happening) (s : Server) : Server :=
  fold_left (fun s' x => serve x s') l s.

(** A happening that names no inherited member. *)
Definition plain_happening (x : Happening) : bool :=
  match x with
  | Boot _ => true
  | Handled s => plain_step s
  end.

(* ------------------------------------------------------------------ *)
(** ** Notions the properties are stated with *)

(** Number of producers registered under a session. *)
Definition producerCount (m : string) (w : World) : nat :=
  match JsObject.get m (matchProducers w) with
  | Some o => JsObject.size o
  | None => 0
  end.

(** The producer [Object.keys] lists first for a session. *)
Definition first_producer (m : string) (w : World) : option Producer :=
  match JsObject.get m (matchProducers w) with
  | Some o =>
      match JsObject.keys o with
      | k :: _ => JsObject.get k o
      | [] => None
      end
  | None => None
  end.

(** The body of the status response. *)
Definition status_body (active : JsVal) (count : nat) : JsVal :=
  JObj [("isActive", active); ("producerCount", JNum count)].

(** A handler failed: it threw, or answered with an error status. *)
Definition failed (c : Completion Response) : Prop :=
  match c with
  | Normal r => status r <> 200
  | Thrown _ => True
  end.

(** What [if (!reg[m]) reg[m] = {}; reg[m][k] = v;] makes of the state. *)
Definition put {V : Type} (reg : Registry V) (m k : string) (v : V)
    (w : World) : World :=
  write reg
    (JsObject.set m
       (JsObject.set k v
          (match JsObject.get m (read reg w) with
           | Some inner => inner
           | None => JsObject.empty
           end))
       (read reg w))
    w.

(** A registry is a field of the state that can be read back. *)
Record Lawful {V : Type} (reg : Registry V) : Prop := {
  read_write : forall o w, read reg (write reg o w) = o;
  write_write : forall o o' w, write reg o (write reg o' w) = write reg o w;
  write_read : forall w, write reg (read reg w) w = w;
  write_listeners : forall o w, listeners (write reg o w) = listeners w
}.

(** The state after [delete reg[m][k]] where that does not throw. *)
Definition removed {V : Type} (reg : Registry V) (m k : string) (w : World)
  : World :=
  match remove_in reg m k w with
  | Some w' => w'
  | None => w
  end.

(** The values [Object.values] lists for a session. *)
Definition session_values {V : Type} (reg : Registry V) (m : string)
    (w : World) : list V :=
  match JsObject.get m (read reg w) with
  | Some o => JsObject.values o
  | None => []
  end.

(** Some [close()] among those of the listed objects throws. *)
Definition throws_for {V : Type} (closing : Closing) (obj : V -> Target)
    (l : list V) : bool :=
  existsb
    (fun x =>
       match outcome (closing (obj x)) with
       | Returns _ => false
       | Throws _ => true
       end) l.

(** [w'] is [w] with entries or whole sessions gone from the registries:
    nothing has been added anywhere. *)
Definition fades (w w' : World) : Prop :=
  listeners w' = listeners w
  /\ (forall m, JsObject.get m (matchTransports w) = None ->
                JsObject.get m (matchTransports w') = None)
  /\ (forall m k t, lookup2 (matchTransports w') m k = Some t ->
                    lookup2 (matchTransports w) m k = Some t)
  /\ (forall m, JsObject.get m (matchProducers w) = None ->
                JsObject.get m (matchProducers w') = None)
  /\ (forall m k p, lookup2 (matchProducers w') m k = Some p ->
                    lookup2 (matchProducers w) m k = Some p)
  /\ (forall m, JsObject.get m (matchConsumers w) = None ->
                JsObject.get m (matchConsumers w') = None)
  /\ (forall m k c, lookup2 (matchConsumers w') m k = Some c ->
                    lookup2 (matchConsumers w) m k = Some c).

(** The state after [delete reg[m]]. *)
Definition dropped {V : Type} (reg : Registry V) (m : string) (w : World)
  : World :=
  write reg (JsObject.delete m (read reg w)) w.

(** [w'] is [w] with some producer and consumer entries gone: the
    transports and listeners are the same, the same sessions have a
    producer and a consumer dictionary, and no entry has been added. *)
Definition shrinks (w w' : World) : Prop :=
  matchTransports w' = matchTransports w
  /\ listeners w' = listeners w
  /\ (forall m, JsObject.get m (matchProducers w) = None <->
                JsObject.get m (matchProducers w') = None)
  /\ (forall m k p, lookup2 (matchProducers w') m k = Some p ->
                    lookup2 (matchProducers w) m k = Some p)
  /\ (forall m, JsObject.get m (matchConsumers w) = None <->
                JsObject.get m (matchConsumers w') = None)
  /\ (forall m k c, lookup2 (matchConsumers w') m k = Some c ->
                    lookup2 (matchConsumers w) m k = Some c).


(** What the three registries hold for one session. *)
Definition session (m : string) (w : World)
  : option (Dict Transport) * option (Dict Producer) * option (Dict Consumer) :=
  (JsObject.get m (matchTransports w),
   JsObject.get m (matchProducers w),
   JsObject.get m (matchConsumers w)).

(** The engine emits no "transportclose" while closing anything. *)
Definition unheard (closing : Closing) : Prop :=
  forall x e, In e (emitted (closing x)) -> emit_event e <> "transportclose".


(** The engine has handed out each id once: the listeners attached for
    one id are all for the same session, so that the id stands for one
    engine object. *)
Definition ids_unique (w : World) : Prop :=
  (forall k m m',
      In (ProducerTransportClose m k) (listeners w) ->
      In (ProducerTransportClose m' k) (listeners w) -> m = m')
  /\ (forall k m m',
      In (ConsumerTransportClose m k) (listeners w) ->
      In (ConsumerTransportClose m' k) (listeners w) -> m = m').

(** No session's producer dictionary lists a key twice. *)
Definition tidy (w : World) : Prop :=
  forall m o, JsObject.get m (matchProducers w) = Some o ->
              NoDup (JsObject.own_keys o).

(* ------------------------------------------------------------------ *)
(** ** A small run used in examples *)

Module Demo.

Definition transport1 : Transport :=
  {| transport_id := "transport-1";
     iceParameters := blob "ice";
     iceCandidates := blob "candidates";
     dtlsParameters := blob "dtls" |}.

Definition consumed1 : Consumed :=
  {| consumed_id := "consumer-1";
     consumed_kind := "video";
     consumed_rtpParameters := blob "rtp" |}.

Definition m1 : option string := Some "m1".
Definition t1 : option string := Some "transport-1".
Definition video : option string := Some "video".
Definition rtp : option Blob := Some (blob "rtp").
Definition caps : option Blob := Some (blob "caps").

(** Session "m1" with one transport. *)
Definition with_transport : World :=
  steps [CreateTransport m1 (Returns transport1)] initial.

(** ... and one producer on it. *)
Definition with_producer : World :=
  steps [Produce m1 t1 video rtp (Returns "producer-1")] with_transport.

(** ... and a second producer. *)
Definition with_two_producers : World :=
  steps [Produce m1 t1 video rtp (Returns "producer-2")] with_producer.

(** ... or, instead, a consumer of the one producer. *)
Definition with_consumer : World :=
  steps [Consume m1 t1 caps (fun _ => true) (Returns consumed1)]
    with_producer.

(** A compatibility check that only the second producer passes. *)
Definition only_second (producerId : string) : bool :=
  String.eqb producerId "producer-2".

(** The engine closing a producer: it tells the producer's consumer with
    a "producerclose" event and returns. *)
Definition producer_closing : Closing :=
  fun _ =>
    {| emitted := [{| emit_target := ConsumerObj "consumer-1";
                      emit_event := "producerclose" |}];
       outcome := Returns tt |}.


(** The engine closing the transport: it emits "transportclose" on the
    producer and the consumer made on it and returns. *)
Definition transport_closing : Closing :=
  fun _ =>
    {| emitted := [transportclose (ProducerObj "producer-1");
                   transportclose (ConsumerObj "consumer-1")];
       outcome := Returns tt |}.

(** The requests that lead to these states, from start-up. *)
Definition to_transport : list Step :=
  [CreateTransport m1 (Returns transport1)].

Definition to_producer : list Step :=
  to_transport ++ [Produce m1 t1 video rtp (Returns "producer-1")].

Definition to_two_producers : list Step :=
  to_producer ++ [Produce m1 t1 video rtp (Returns "producer-2")].

Definition to_consumer : list Step :=
  to_producer ++ [Consume m1 t1 caps (fun _ => true) (Returns consumed1)].

Definition to_closed_producer : list Step :=
  to_consumer ++ [CloseProducer m1 (Some "producer-1") producer_closing].

(** A run: create a transport, produce and consume on it, close it. *)
Definition session_run : list Step :=
  [CreateTransport m1 (Returns transport1);
   Produce m1 t1 video rtp (Returns "producer-1");
   Consume m1 t1 caps (fun _ => true) (Returns consumed1);
   CloseTransport m1 t1 transport_closing].

End Demo.

(* ================================================================== *)
(** * Properties *)

Unset Implicit Arguments.

(** ** Dictionaries *)

Section DictFacts.
Context {V : Type}.
Implicit Types (o : Dict V) (k : string) (v : V).

Lemma get_set_same k v o : JsObject.get k (JsObject.set k v o) = Some v.
Proof.
  induction o as [|[k' v'] o IH]; cbn.
  - now rewrite String.eqb_refl.
  - destruct (String.eqb k k') eqn:E; cbn; rewrite E; auto.
Qed.

Lemma get_set_other k k' v o :
  k <> k' -> JsObject.get k (JsObject.set k' v o) = JsObject.get k o.
Proof.
  intros Hne. induction o as [|[k2 v2] o IH]; cbn.
  - destruct (String.eqb_spec k k'); congruence.
  - destruct (String.eqb_spec k' k2) as [->|]; cbn.
    + destruct (String.eqb_spec k k2); congruence.
    + now rewrite IH.
Qed.

Lemma get_delete_same k o : JsObject.get k (JsObject.delete k o) = None.
Proof.
  induction o as [|[k' v'] o IH]; cbn; auto.
  destruct (String.eqb k k') eqn:E; cbn; auto. now rewrite E.
Qed.

Lemma get_delete_other k k' o :
  k <> k' -> JsObject.get k (JsObject.delete k' o) = JsObject.get k o.
Proof.
  intros Hne. unfold JsObject.delete.
  induction o as [|[k2 v2] o IH]; cbn; auto.
  destruct (String.eqb_spec k' k2) as [->|]; cbn.
  - destruct (String.eqb_spec k k2); [congruence | exact IH].
  - now rewrite IH.
Qed.

Lemma set_set k v v' o :
  JsObject.set k v (JsObject.set k v' o) = JsObject.set k v o.
Proof.
  induction o as [|[k2 v2] o IH]; cbn.
  - now rewrite String.eqb_refl.
  - destruct (String.eqb k k2) eqn:E; cbn; rewrite E; [reflexivity|].
    now rewrite IH.
Qed.

Lemma delete_absent k o :
  JsObject.get k o = None -> JsObject.delete k o = o.
Proof.
  unfold JsObject.delete. induction o as [|[k' v'] o IH]; cbn; auto.
  destruct (String.eqb k k'); [discriminate|].
  intros H. cbn. now rewrite IH.
Qed.


Lemma get_own_key k o : In k (JsObject.own_keys o) -> JsObject.get k o <> None.
Proof.
  induction o as [|[k' v'] o IH]; cbn; [tauto|].
  intros [->|Hin]; [now rewrite String.eqb_refl|].
  destruct (String.eqb k k'); [discriminate | auto].
Qed.

End DictFacts.

Lemma insert_index_length e l :
  List.length (JsObject.insert_index e l) = S (List.length l).
Proof.
  induction l as [|e' l IH]; cbn; auto.
  destruct (fst e <=? fst e')%N; cbn; auto.
Qed.

Lemma sort_index_length l :
  List.length (JsObject.sort_index l) = List.length l.
Proof.
  induction l as [|e l IH]; cbn; auto.
  now rewrite insert_index_length, IH.
Qed.

Lemma insert_index_In x e l :
  In x (JsObject.insert_index e l) <-> x = e \/ In x l.
Proof.
  induction l as [|e' l IH]; cbn; [intuition|].
  destruct (fst e <=? fst e')%N; cbn; [intuition|].
  rewrite IH. intuition.
Qed.

Lemma sort_index_In x l : In x (JsObject.sort_index l) <-> In x l.
Proof.
  induction l as [|e l IH]; cbn; [tauto|].
  rewrite insert_index_In, IH. intuition.
Qed.

Lemma index_keys_In n k ks :
  In (n, k) (JsObject.index_keys ks) -> In k ks.
Proof.
  induction ks as [|k' ks IH]; cbn; auto.
  destruct (JsObject.array_index k'); cbn; [|auto].
  intros [[= _ ->]|H]; auto.
Qed.

Lemma index_keys_split ks :
  List.length (JsObject.index_keys ks)
  + List.length (filter (fun k => negb (JsObject.is_index k)) ks)
  = List.length ks.
Proof.
  induction ks as [|k ks IH]; cbn; auto.
  unfold JsObject.is_index at 1.
  destruct (JsObject.array_index k); cbn; lia.
Qed.

Lemma index_keys_plain ks :
  (forall k, In k ks -> JsObject.is_index k = false) ->
  JsObject.index_keys ks = []
  /\ filter (fun k => negb (JsObject.is_index k)) ks = ks.
Proof.
  induction ks as [|k ks IH]; cbn; auto.
  intros H. pose proof (H k (or_introl eq_refl)) as Hk.
  rewrite Hk. unfold JsObject.is_index in Hk.
  destruct (JsObject.array_index k); [discriminate|].
  destruct IH as [-> ->]; auto.
Qed.

Section KeysFacts.
Context {V : Type}.
Implicit Types (o : Dict V).

(** [Object.keys(o).length] is the number of properties of [o]. *)
Lemma keys_length o : List.length (JsObject.keys o) = JsObject.size o.
Proof.
  unfold JsObject.keys, JsObject.size, JsObject.own_keys.
  rewrite length_app, length_map, sort_index_length.
  rewrite index_keys_split. apply length_map.
Qed.

Lemma keys_own k o : In k (JsObject.keys o) -> In k (JsObject.own_keys o).
Proof.
  unfold JsObject.keys. rewrite in_app_iff, in_map_iff.
  intros [[[n k'] [<- Hin]]|Hin].
  - apply (proj1 (sort_index_In _ _)) in Hin.
    now apply index_keys_In in Hin.
  - now apply filter_In in Hin.
Qed.

Lemma keys_nil o : JsObject.keys o = [] <-> o = [].
Proof.
  split; [|now intros ->].
  intros H. apply (f_equal (@List.length _)) in H.
  rewrite keys_length in H. now destruct o.
Qed.

(** With no array index among the keys, [Object.keys] lists them in the
    order they were created. *)
Lemma keys_creation_order o :
  (forall k, In k (JsObject.own_keys o) -> JsObject.is_index k = false) ->
  JsObject.keys o = JsObject.own_keys o.
Proof.
  intros H. unfold JsObject.keys.
  destruct (index_keys_plain _ H) as [-> ->]. reflexivity.
Qed.

Lemma keys_have_values k o :
  In k (JsObject.keys o) -> JsObject.get k o <> None.
Proof. intros H. now apply get_own_key, keys_own. Qed.

End KeysFacts.

Example keys_order_example :
  JsObject.keys [("b", 1); ("10", 2); ("a", 3); ("9", 4); ("07", 5)]
  = ["9"; "10"; "b"; "a"; "07"].
Proof. reflexivity. Qed.

(** ** Reasoning about handler code *)

Ltac js :=
  unfold bind, ret, inspect, update, throw, try_catch, await, after, answer
    in *;
  cbv beta in *; cbn [fst snd] in *.

(** ** Creating a transport *)

(** C7. [createTransport] answers SessionIdMissing for an empty (or missing)
    session identifier; when the engine's transport creation throws, the
    answer is an error and the state is exactly what it was; and whenever
    the state changes at all, the engine call returned a transport, which
    is then the one registered under its id. *)
Theorem createTransport_no_partial_registration :
  (forall created w,
      createTransport (Some "") created w = (Normal SessionIdMissing, w)
      /\ createTransport None created w = (Normal SessionIdMissing, w))
  /\ (forall matchId message w,
      createTransport matchId (Throws message) w
      = (Normal (match present matchId with
                 | None => SessionIdMissing
                 | Some _ => error 500 "Transport creation failed"
                 end), w))
  /\ (forall matchId created w,
      after (createTransport matchId created) w = w
      \/ exists m t,
          present matchId = Some m /\ created = Returns t
          /\ lookup2
               (matchTransports (after (createTransport matchId created) w))
               m (transport_id t) = Some t).
Proof.
  split; [|split].
  - intros created w. split; reflexivity.
  - intros matchId message w. unfold createTransport.
    destruct (present matchId); reflexivity.
  - intros matchId created w. unfold createTransport.
    destruct (present matchId) as [m|] eqn:Hm; [|now left].
    destruct created as [t|message]; [|now left].
    right. exists m, t. repeat split.
    js. unfold ensure, assign, ensure_in. js. cbn.
    destruct (JsObject.get m (matchTransports w)) eqn:Hg; cbn.
    + rewrite Hg. cbn. unfold lookup2.
      rewrite get_set_same. apply get_set_same.
    + rewrite get_set_same. cbn. unfold lookup2.
      rewrite get_set_same. cbn. now rewrite String.eqb_refl.
Qed.

(** ** The status report *)

Lemma status_of_eq matchId w :
  status_of matchId w
  = (Normal (json (status_body (hasProducers matchId w)
                     (if truthy (hasProducers matchId w)
                      then producerCount matchId w else 0))), w).
Proof.
  unfold status_of, hasProducers, producerCount. js.
  destruct (JsObject.get matchId (matchProducers w)) as [o|] eqn:E; cbn;
    [|reflexivity].
  rewrite keys_length.
  destruct (JsObject.size o) eqn:En; cbn; [reflexivity|].
  rewrite E, keys_length, En. reflexivity.
Qed.

Lemma status_of_absent matchId w :
  JsObject.get matchId (matchProducers w) = None ->
  status_of matchId w = (Normal (json (status_body JUndefined 0)), w).
Proof.
  intros H. rewrite status_of_eq. unfold hasProducers. now rewrite H.
Qed.

(** For an ordinary session id, and for any id with an entry of its own,
    the handler reads own properties only. *)
Lemma status_route_own matchId p :
  JsObject.get matchId (matchProducers (held p)) <> None
  \/ ordinary matchId ->
  status_route matchId p
  = (Normal (json (status_body (hasProducers matchId (held p))
                     (producerCount matchId (held p)))), p).
Proof.
  intros H. unfold status_route, property, answer.
  rewrite status_of_eq. cbn [fst].
  assert (E : (if truthy (hasProducers matchId (held p))
               then producerCount matchId (held p) else 0)
              = producerCount matchId (held p)).
  { unfold hasProducers, producerCount.
    destruct (JsObject.get matchId (matchProducers (held p))) as [o|];
      [|reflexivity].
    rewrite keys_length. now destruct (JsObject.size o). }
  rewrite E.
  destruct (JsObject.get matchId (matchProducers (held p))) eqn:G;
    [reflexivity|].
  destruct H as [H|H]; [congruence|]. unfold ordinary in H. now rewrite H.
Qed.

Lemma status_route_inherited matchId p :
  JsObject.get matchId (matchProducers (held p)) = None ->
  is_inherited matchId = true ->
  status_route matchId p
  = (Normal (json (status_body
                     (JBool (0 <? JsObject.size (written_on matchId p))%nat)
                     (JsObject.size (written_on matchId p)))), p).
Proof.
  intros E H. unfold status_route, property. rewrite E, H. cbv zeta.
  rewrite keys_length.
  now destruct (JsObject.size (written_on matchId p)).
Qed.





(** C10, as first stated, fails for a session identifier that names a
    member every object inherits: "constructor" has no entry in the
    producer registry of the fresh process, and yet the activity flag is
    [false] and the response carries [isActive]. *)
Lemma status_of_constructor_is_false :
  JsObject.get "constructor" (matchProducers (held booted)) = None
  /\ status_route "constructor" booted
     = (Normal (json (status_body (JBool false) 0)), booted)
  /\ status_route "constructor" booted
     <> (Normal (json (status_body JUndefined 0)), booted)
  /\ serialized (json (status_body (JBool false) 0))
     = Some (JsonObj [("isActive", JsonBool false);
                      ("producerCount", JsonNum 0)]).
Proof.
  repeat split; try reflexivity. discriminate.
Qed.

(** C10, amended. For a session identifier with no entry in the producer
    registry, and which no request has put on [Object.prototype]: if the
    identifier is not the name of a member every object inherits, the
    activity flag of the status report is [undefined], not [false], so
    that the serialized response has no [isActive] field; if it is such a
    name and no request has put anything on that member, the flag is
    [false].  In both cases [producerCount] is 0 and the state is
    unchanged. *)
Theorem status_of_unknown_session_is_undefined :
  forall matchId p,
    JsObject.get matchId (matchProducers (held p)) = None ->
    JsObject.get matchId (written_on "__proto__" p) = None ->
    (ordinary matchId ->
     status_route matchId p = (Normal (json (status_body JUndefined 0)), p))
    /\ (is_inherited matchId = true ->
        written_on matchId p = JsObject.empty ->
        status_route matchId p
        = (Normal (json (status_body (JBool false) 0)), p))
    /\ serialized (json (status_body JUndefined 0))
       = Some (JsonObj [("producerCount", JsonNum 0)]).
Proof.
  intros matchId p H _. split; [|split].
  - intros Ho. rewrite status_route_own by now right.
    unfold hasProducers, producerCount. now rewrite H.
  - intros Hi Hw. rewrite (status_route_inherited _ _ H Hi). now rewrite Hw.
  - reflexivity.
Qed.

Lemma status_of_unknown_session_witness :
  JsObject.get "m2" (matchProducers (held booted)) = None
  /\ status_route "m2" booted
     = (Normal (json (status_body JUndefined 0)), booted).
Proof.
  split; [reflexivity|].
  exact (proj1 (status_of_unknown_session_is_undefined "m2" booted
                  eq_refl eq_refl) eq_refl).
Defined.

(** ** The registries as fields *)

Lemma transports_lawful : Lawful transports.
Proof. split; try reflexivity. now intros []. Qed.

Lemma producers_lawful : Lawful producers.
Proof. split; try reflexivity. now intros []. Qed.

Lemma consumers_lawful : Lawful consumers.
Proof. split; try reflexivity. now intros []. Qed.

Section Lookup2Facts.
Context {V : Type}.
Implicit Types (o : Dict (Dict V)) (inner : Dict V) (m k : string).

Lemma lookup2_set_same m inner o k :
  lookup2 (JsObject.set m inner o) m k = JsObject.get k inner.
Proof. unfold lookup2. now rewrite get_set_same. Qed.

Lemma lookup2_set_other m m' inner o k :
  m' <> m -> lookup2 (JsObject.set m inner o) m' k = lookup2 o m' k.
Proof. intros H. unfold lookup2. now rewrite get_set_other. Qed.

Lemma lookup2_delete_same m o k : lookup2 (JsObject.delete m o) m k = None.
Proof. unfold lookup2. now rewrite get_delete_same. Qed.

Lemma lookup2_delete_other m m' o k :
  m' <> m -> lookup2 (JsObject.delete m o) m' k = lookup2 o m' k.
Proof. intros H. unfold lookup2. now rewrite get_delete_other. Qed.

Lemma lookup2_session m k o v :
  lookup2 o m k = Some v ->
  exists inner, JsObject.get m o = Some inner /\ JsObject.get k inner = Some v.
Proof.
  unfold lookup2. destruct (JsObject.get m o) as [inner|]; [|discriminate].
  intros H. now exists inner.
Qed.

End Lookup2Facts.

Section PutFacts.
Context {V : Type} {reg : Registry V} (L : Lawful reg).

Lemma ensure_assign m k (v : V) w :
  (ensure reg m ;; assign reg m k v) w = (Normal tt, put reg m k v w).
Proof.
  unfold ensure, assign, ensure_in, put. js.
  destruct (JsObject.get m (read reg w)) as [inner|] eqn:E.
  - now rewrite E.
  - rewrite (read_write L), get_set_same, (write_write L), set_set.
    reflexivity.
Qed.

Lemma lookup2_put_same m k (v : V) w :
  lookup2 (read reg (put reg m k v w)) m k = Some v.
Proof.
  unfold put. now rewrite (read_write L), lookup2_set_same, get_set_same.
Qed.

Lemma lookup2_put_other m k (v : V) w m' k' :
  m' <> m \/ k' <> k ->
  lookup2 (read reg (put reg m k v w)) m' k' = lookup2 (read reg w) m' k'.
Proof.
  intros H. unfold put. rewrite (read_write L).
  destruct (String.eqb_spec m' m) as [->|Hm].
  - rewrite lookup2_set_same. destruct H as [H|H]; [congruence|].
    rewrite get_set_other by assumption. unfold lookup2.
    now destruct (JsObject.get m (read reg w)).
  - now rewrite lookup2_set_other.
Qed.


End PutFacts.

Lemma ensure_assign_then {V A : Type} {reg : Registry V} (L : Lawful reg)
    m k (v : V) (rest : Js A) w :
  (ensure reg m ;; assign reg m k v ;; rest) w = rest (put reg m k v w).
Proof.
  pose proof (ensure_assign L m k v w) as H.
  unfold bind in *. destruct (ensure reg m w) as [[[]|e] w1]; cbn in *.
  - destruct (assign reg m k v w1) as [[[]|e] w2]; congruence.
  - discriminate.
Qed.

(** ** Consuming *)

(** The consumer handle and the response [attach] makes from the engine's
    reply. *)
Lemma attach_returns m transport producer c w :
  attach m transport producer (Returns c) w
  = (Normal (json (JObj
       [("id", JStr (consumed_id c));
        ("producerId", JStr (producer_id producer));
        ("kind", JStr (consumed_kind c));
        ("rtpParameters", JBlob (consumed_rtpParameters c))])),
     add_listener (ConsumerTransportClose m (consumed_id c))
       (put consumers m (consumed_id c)
          {| consumer_id := consumed_id c;
             consumer_kind := consumed_kind c;
             consumer_rtpParameters := consumed_rtpParameters c;
             consumer_transport := transport_id transport;
             consumer_producerId := producer_id producer |} w)).
Proof.
  unfold attach, try_catch, await.
  unfold bind at 1. unfold ret at 1.
  rewrite (ensure_assign_then consumers_lawful). reflexivity.
Qed.

Lemma attach_throws m transport producer e w :
  attach m transport producer (Throws e) w
  = (Normal (error_details 500 "Consumption failed" e), w).
Proof. reflexivity. Qed.

Lemma first_producer_none m w :
  first_producer m w = None <-> producerCount m w = 0.
Proof.
  unfold first_producer, producerCount.
  destruct (JsObject.get m (matchProducers w)) as [o|]; [|tauto].
  rewrite <- keys_length.
  destruct (JsObject.keys o) as [|k ks] eqn:E; cbn; [tauto|].
  split; [|discriminate].
  intros H. exfalso. apply (keys_have_values k o); [|assumption].
  rewrite E. now left.
Qed.

(** The consume handler, case by case. *)
Lemma consume_eq matchId transportId caps can consumed w m t :
  present matchId = Some m -> present transportId = Some t -> caps <> None ->
  consume matchId transportId caps can consumed w
  = match lookup2 (matchTransports w) m t with
    | None => (Normal TransportNotFound, w)
    | Some transport =>
        match first_producer m w with
        | None => (Normal NoProducerAvailable, w)
        | Some producer =>
            if can (producer_id producer)
            then attach m transport producer consumed w
            else (Normal IncompatibleCapabilities, w)
        end
    end.
Proof.
  intros Hm Ht Hc. unfold consume. rewrite Hm, Ht.
  destruct caps as [c|]; [clear Hc | congruence].
  js. destruct (lookup2 (matchTransports w) m t) as [transport|];
    [|reflexivity].
  pose proof (first_producer_none m w) as Hnone.
  unfold first_producer, producerCount in *.
  destruct (JsObject.get m (matchProducers w)) as [o|]; [|reflexivity].
  destruct (JsObject.keys o) as [|k ks] eqn:E; [reflexivity|].
  destruct (JsObject.get k o) as [p|] eqn:Ek.
  - destruct (can (producer_id p)); reflexivity.
  - exfalso. apply (keys_have_values k o); [|assumption].
    rewrite E. now left.
Qed.







(** C3, as stated, fails: session "m1" has two producers, the second of
    which passes the compatibility check, and [consume] answers
    IncompatibleCapabilities instead of attaching to it. *)
Lemma consume_ignores_later_compatible_producer :
  (exists p, In p (entries producers "m1" Demo.with_two_producers)
             /\ Demo.only_second (producer_id p) = true)
  /\ consume Demo.m1 Demo.t1 Demo.caps Demo.only_second
       (Returns Demo.consumed1) Demo.with_two_producers
     = (Normal IncompatibleCapabilities, Demo.with_two_producers).
Proof.
  split; [|reflexivity].
  exists {| producer_id := "producer-2"; producer_transport := "transport-1" |}.
  split; [cbn; auto | reflexivity].
Qed.

(** C3, amended. With the required fields present, a session identifier
    and an engine-assigned consumer id that are not names of inherited
    members, a state the process reaches through requests naming no such
    member, and the transport registered, [consume] looks only at the producer that [Object.keys]
    lists first for the session: it answers NoProducerAvailable exactly
    when the session has no producer, IncompatibleCapabilities exactly when
    that first producer fails the compatibility check, and otherwise, when
    the engine returns a consumer, answers with that producer's id and
    registers the consumer against it.  When no producer id of the session
    is an array index, the first listed producer is the earliest created of
    those still registered. *)
Theorem consume_uses_first_listed_producer :
  forall matchId transportId caps can consumed w m t,
    pristine w ->
    present matchId = Some m -> ordinary m ->
    present transportId = Some t ->
    caps <> None -> lookup2 (matchTransports w) m t <> None ->
    (answer (consume matchId transportId caps can consumed) w
       = Normal NoProducerAvailable
     <-> producerCount m w = 0)
    /\ (answer (consume matchId transportId caps can consumed) w
          = Normal IncompatibleCapabilities
        <-> exists p, first_producer m w = Some p
                      /\ can (producer_id p) = false)
    /\ (forall p c,
          first_producer m w = Some p -> can (producer_id p) = true ->
          consumed = Returns c -> ordinary (consumed_id c) ->
          answer (consume matchId transportId caps can consumed) w
            = Normal (json (JObj
                [("id", JStr (consumed_id c));
                 ("producerId", JStr (producer_id p));
                 ("kind", JStr (consumed_kind c));
                 ("rtpParameters", JBlob (consumed_rtpParameters c))]))
          /\ option_map consumer_producerId
               (lookup2
                  (matchConsumers
                     (after (consume matchId transportId caps can consumed) w))
                  m (consumed_id c))
             = Some (producer_id p))
    /\ (forall o,
          JsObject.get m (matchProducers w) = Some o ->
          (forall k, In k (JsObject.own_keys o) ->
                     JsObject.is_index k = false) ->
          first_producer m w = hd_error (map snd o)).
Proof.
  intros matchId transportId caps can consumed w m t _ Hm _ Ht Hc Htr.
  unfold answer, after.
  rewrite (@consume_eq matchId transportId caps can consumed w m t Hm Ht Hc).
  destruct (lookup2 (matchTransports w) m t) as [transport|]; [|congruence].
  clear Htr. pose proof (first_producer_none m w) as Hnone.
  split; [split | split; [split | split]].
  - destruct (first_producer m w) as [p|]; [|tauto].
    destruct (can (producer_id p)); [|discriminate].
    destruct consumed; [rewrite attach_returns | rewrite attach_throws];
      discriminate.
  - intros H. apply Hnone in H. now rewrite H.
  - destruct (first_producer m w) as [p|]; [|discriminate].
    destruct (can (producer_id p)) eqn:E; [|now exists p].
    destruct consumed; [rewrite attach_returns | rewrite attach_throws];
      discriminate.
  - intros (p & Hp & Hcan). now rewrite Hp, Hcan.
  - intros p c Hp Hcan -> _. rewrite Hp, Hcan, attach_returns.
    split; [reflexivity|]. cbn [snd].
    change (matchConsumers (add_listener ?l ?x)) with (matchConsumers x).
    change matchConsumers with (read consumers).
    now rewrite (lookup2_put_same consumers_lawful).
  - intros o Ho Hplain. unfold first_producer. rewrite Ho.
    rewrite (keys_creation_order o Hplain).
    destruct o as [|[k v] o']; cbn; [reflexivity|].
    now rewrite String.eqb_refl.
Qed.

Lemma consume_uses_first_listed_producer_witness :
  pristine Demo.with_two_producers
  /\ (answer (consume Demo.m1 Demo.t1 Demo.caps Demo.only_second
                (Returns Demo.consumed1)) Demo.with_two_producers
        = Normal IncompatibleCapabilities
      <-> exists p, first_producer "m1" Demo.with_two_producers = Some p
                    /\ Demo.only_second (producer_id p) = false).
Proof.
  assert (H : pristine Demo.with_two_producers)
    by (exists Demo.to_two_producers; split; reflexivity).
  split; [exact H|].
  destruct (@consume_uses_first_listed_producer Demo.m1 Demo.t1 Demo.caps
              Demo.only_second (Returns Demo.consumed1)
              Demo.with_two_producers "m1" "transport-1" H eq_refl eq_refl
              eq_refl)
    as (_ & H0 & _); [discriminate | discriminate | exact H0].
Defined.

(** ** Events only take entries away *)

Lemma shrinks_refl w : shrinks w w.
Proof. unfold shrinks. intuition. Qed.

Lemma shrinks_trans w1 w2 w3 : shrinks w1 w2 -> shrinks w2 w3 -> shrinks w1 w3.
Proof.
  unfold shrinks.
  intros (T1 & L1 & P1 & Q1 & C1 & D1) (T2 & L2 & P2 & Q2 & C2 & D2).
  split; [congruence|]. split; [congruence|].
  split; [intros m; rewrite (P1 m); apply P2|].
  split; [auto|].
  split; [intros m; rewrite (C1 m); apply C2 | auto].
Qed.

Section RemoveFacts.
Context {V : Type} {reg : Registry V} (L : Lawful reg).

Lemma remove_in_read m k w w' :
  remove_in reg m k w = Some w' ->
  exists inner,
    JsObject.get m (read reg w) = Some inner
    /\ w' = write reg
              (JsObject.set m (JsObject.delete k inner) (read reg w)) w.
Proof.
  unfold remove_in. destruct (JsObject.get m (read reg w)) as [inner|];
    [|discriminate].
  intros [= <-]. now exists inner.
Qed.

Lemma remove_in_session m k w w' m' :
  remove_in reg m k w = Some w' ->
  (JsObject.get m' (read reg w) = None <->
   JsObject.get m' (read reg w') = None).
Proof.
  intros H. destruct (remove_in_read _ _ _ _ H) as (inner & Hi & ->).
  rewrite (read_write L).
  destruct (String.eqb_spec m' m) as [->|Hne].
  - rewrite get_set_same, Hi. split; discriminate.
  - now rewrite get_set_other.
Qed.

Lemma remove_in_lookup m k w w' m' k' :
  remove_in reg m k w = Some w' ->
  lookup2 (read reg w') m' k'
  = if String.eqb m' m && String.eqb k' k then None
    else lookup2 (read reg w) m' k'.
Proof.
  intros H. destruct (remove_in_read _ _ _ _ H) as (inner & Hi & ->).
  rewrite (read_write L).
  destruct (String.eqb_spec m' m) as [->|Hne]; cbn.
  - rewrite lookup2_set_same. unfold lookup2. rewrite Hi.
    destruct (String.eqb_spec k' k) as [->|Hk].
    + apply get_delete_same.
    + now apply get_delete_other.
  - now rewrite lookup2_set_other.
Qed.

Lemma remove_in_gone m k w w' :
  remove_in reg m k w = Some w' -> lookup2 (read reg w') m k = None.
Proof.
  intros H. rewrite (remove_in_lookup _ _ _ _ m k H).
  now rewrite !String.eqb_refl.
Qed.

Lemma remove_in_kept m k w w' m' k' v :
  remove_in reg m k w = Some w' ->
  lookup2 (read reg w') m' k' = Some v ->
  lookup2 (read reg w) m' k' = Some v /\ (m' <> m \/ k' <> k).
Proof.
  intros H. rewrite (remove_in_lookup _ _ _ _ m' k' H).
  destruct (String.eqb_spec m' m); destruct (String.eqb_spec k' k); cbn;
    try discriminate; auto.
Qed.

Lemma forget_cases m k w :
  (lookup2 (read reg w) m k = None /\ forget reg m k w = w)
  \/ (lookup2 (read reg w) m k <> None
      /\ remove_in reg m k w = Some (forget reg m k w)).
Proof.
  unfold forget. destruct (lookup2 (read reg w) m k) eqn:E; [right|now left].
  split; [discriminate|].
  destruct (lookup2_session _ _ _ _ E) as (inner & Hi & _).
  unfold remove_in. now rewrite Hi.
Qed.

Lemma forget_gone m k w : lookup2 (read reg (forget reg m k w)) m k = None.
Proof.
  destruct (forget_cases m k w) as [[H ->]|[_ H]]; [assumption|].
  now apply remove_in_gone in H.
Qed.

Lemma forget_kept m k w m' k' v :
  lookup2 (read reg (forget reg m k w)) m' k' = Some v ->
  lookup2 (read reg w) m' k' = Some v.
Proof.
  destruct (forget_cases m k w) as [[_ ->]|[_ H]]; [auto|].
  intros H'. now apply (remove_in_kept _ _ _ _ _ _ _ H) in H'.
Qed.

Lemma forget_session m k w m' :
  JsObject.get m' (read reg w) = None <->
  JsObject.get m' (read reg (forget reg m k w)) = None.
Proof.
  destruct (forget_cases m k w) as [[_ ->]|[_ H]]; [tauto|].
  apply (remove_in_session _ _ _ _ _ H).
Qed.

End RemoveFacts.

Lemma forget_producers_frame m k w :
  matchTransports (forget producers m k w) = matchTransports w
  /\ matchConsumers (forget producers m k w) = matchConsumers w
  /\ listeners (forget producers m k w) = listeners w.
Proof.
  destruct (@forget_cases _ producers m k w) as [[_ ->]|[_ H]]; [auto|].
  destruct (remove_in_read _ _ _ _ H) as (inner & _ & ->). auto.
Qed.

Lemma forget_consumers_frame m k w :
  matchTransports (forget consumers m k w) = matchTransports w
  /\ matchProducers (forget consumers m k w) = matchProducers w
  /\ listeners (forget consumers m k w) = listeners w.
Proof.
  destruct (@forget_cases _ consumers m k w) as [[_ ->]|[_ H]]; [auto|].
  destruct (remove_in_read _ _ _ _ H) as (inner & _ & ->). auto.
Qed.

Lemma forget_producers_shrinks m k w : shrinks w (forget producers m k w).
Proof.
  destruct (forget_producers_frame m k w) as (HT & HC & HL).
  unfold shrinks. rewrite HT, HC, HL.
  split; [reflexivity|]. split; [reflexivity|].
  split; [intros m'; apply (forget_session producers_lawful)|].
  split; [intros m' k' p; apply (forget_kept producers_lawful)|].
  split; [reflexivity | auto].
Qed.

Lemma forget_consumers_shrinks m k w : shrinks w (forget consumers m k w).
Proof.
  destruct (forget_consumers_frame m k w) as (HT & HP & HL).
  unfold shrinks. rewrite HT, HP, HL.
  split; [reflexivity|]. split; [reflexivity|].
  split; [reflexivity|]. split; [auto|].
  split; [intros m'; apply (forget_session consumers_lawful)|].
  intros m' k' c; apply (forget_kept consumers_lawful).
Qed.

Lemma run_listener_shrinks l w : shrinks w (run_listener l w).
Proof.
  destruct l; [apply forget_producers_shrinks | apply forget_consumers_shrinks].
Qed.

Lemma fold_listeners_shrinks e ls w :
  shrinks w
    (fold_left
       (fun w' l => if Emit_eqb (listens_to l) e then run_listener l w'
                    else w') ls w).
Proof.
  revert w. induction ls as [|l ls IH]; intros w; cbn.
  - apply shrinks_refl.
  - eapply shrinks_trans; [|apply IH].
    destruct (Emit_eqb (listens_to l) e);
      [apply run_listener_shrinks | apply shrinks_refl].
Qed.

Lemma emit_shrinks e w : shrinks w (emit e w).
Proof. apply fold_listeners_shrinks. Qed.

Lemma emit_all_shrinks es w : shrinks w (emit_all es w).
Proof.
  revert w. induction es as [|e es IH]; intros w; cbn.
  - apply shrinks_refl.
  - eapply shrinks_trans; [apply emit_shrinks | apply IH].
Qed.

Lemma close_eq r w :
  close r w
  = (match outcome r with Returns _ => Normal tt | Throws e => Thrown e end,
     emit_all (emitted r) w).
Proof. unfold close. js. destruct (outcome r) as [[]|e]; reflexivity. Qed.

Lemma forEach_close_shrinks {A : Type} (obj : A -> Target) closing l w :
  shrinks w (after (forEach l (fun x => close (closing (obj x)))) w).
Proof.
  revert w. induction l as [|x l IH]; intros w; cbn.
  - apply shrinks_refl.
  - unfold after, bind. rewrite close_eq.
    destruct (outcome (closing (obj x))) as [[]|e]; cbn.
    + eapply shrinks_trans; [apply emit_all_shrinks | apply IH].
    + apply emit_all_shrinks.
Qed.

(** ** The close handlers, case by case *)

Lemma shrinks_lookup_transports w w' m t :
  shrinks w w' ->
  lookup2 (matchTransports w') m t = lookup2 (matchTransports w) m t.
Proof. intros (-> & _). reflexivity. Qed.

Lemma remove_after_shrink_producers w w' m p x :
  shrinks w w' -> lookup2 (matchProducers w) m p = Some x ->
  remove producers m p w' = (Normal tt, removed producers m p w').
Proof.
  intros (_ & _ & HP & _) Hx.
  destruct (lookup2_session _ _ _ _ Hx) as (inner & Hi & _).
  unfold remove, removed, remove_in. cbn [read producers].
  destruct (JsObject.get m (matchProducers w')) eqn:E; [reflexivity|].
  apply HP in E. congruence.
Qed.

Lemma closeProducer_eq matchId producerId closing w m p :
  present matchId = Some m -> present producerId = Some p ->
  closeProducer matchId producerId closing w
  = match lookup2 (matchProducers w) m p with
    | None => (Normal success, w)
    | Some producer =>
        let r := closing (ProducerObj (producer_id producer)) in
        match outcome r with
        | Returns _ =>
            (Normal success, removed producers m p (emit_all (emitted r) w))
        | Throws _ =>
            (Normal (error 500 "Failed to close producer"),
             emit_all (emitted r) w)
        end
    end.
Proof.
  intros Hm Hp. unfold closeProducer. rewrite Hm, Hp.
  unfold try_catch, bind at 1, inspect.
  destruct (lookup2 (matchProducers w) m p) as [producer|] eqn:E;
    [|reflexivity].
  unfold bind at 1. rewrite close_eq. cbv zeta.
  destruct (outcome (closing (ProducerObj (producer_id producer))))
    as [[]|e]; [|reflexivity].
  unfold bind.
  rewrite (remove_after_shrink_producers w _ m p producer
             (emit_all_shrinks _ w) E).
  reflexivity.
Qed.

Lemma closeTransport_eq matchId transportId closing w m t :
  present matchId = Some m -> present transportId = Some t ->
  closeTransport matchId transportId closing w
  = match lookup2 (matchTransports w) m t with
    | None => (Normal success, w)
    | Some transport =>
        let r := closing (TransportObj (transport_id transport)) in
        match outcome r with
        | Returns _ =>
            (Normal success, removed transports m t (emit_all (emitted r) w))
        | Throws _ =>
            (Normal (error 500 "Failed to close transport"),
             emit_all (emitted r) w)
        end
    end.
Proof.
  intros Hm Ht. unfold closeTransport. rewrite Hm, Ht.
  unfold try_catch, bind at 1, inspect.
  destruct (lookup2 (matchTransports w) m t) as [transport|] eqn:E;
    [|reflexivity].
  unfold bind at 1. rewrite close_eq. cbv zeta.
  destruct (outcome (closing (TransportObj (transport_id transport))))
    as [[]|e]; [|reflexivity].
  unfold bind, remove, removed, remove_in. cbn [read transports].
  destruct (emit_all_shrinks
              (emitted (closing (TransportObj (transport_id transport)))) w)
    as (-> & _).
  destruct (lookup2_session _ _ _ _ E) as (inner & -> & _). reflexivity.
Qed.

(** One block of the cleanup: it either closes everything and deletes the
    session's dictionary, or stops at the first [close()] that throws. *)
Lemma close_all_eq {V : Type} (reg : Registry V) (obj : V -> Target)
    m closing w :
  close_all reg obj m closing w
  = match JsObject.get m (read reg w) with
    | None => (Normal tt, w)
    | Some o =>
        let c := forEach (JsObject.values o)
                   (fun x => close (closing (obj x))) in
        match answer c w with
        | Normal _ => (Normal tt, dropped reg m (after c w))
        | Thrown e => (Thrown e, after c w)
        end
    end.
Proof.
  unfold close_all, bind at 1, inspect.
  destruct (JsObject.get m (read reg w)) as [o|]; [|reflexivity].
  unfold bind, answer, after, drop, update, dropped. cbv zeta.
  destruct (forEach (JsObject.values o) (fun x => close (closing (obj x))) w)
    as [[[]|e] w1]; reflexivity.
Qed.

Lemma cleanupSession_eq matchId closing w m :
  present matchId = Some m ->
  cleanupSession matchId closing w
  = match
      (close_all producers (fun p => ProducerObj (producer_id p)) m closing ;;
       close_all consumers (fun c => ConsumerObj (consumer_id c)) m closing ;;
       close_all transports (fun t => TransportObj (transport_id t)) m
         closing) w
    with
    | (Normal _, w') => (Normal success, w')
    | (Thrown _, w') =>
        (Normal (error 500 "Failed to clean up match resources"), w')
    end.
Proof.
  intros Hm. unfold cleanupSession. rewrite Hm.
  unfold try_catch, bind, ret.
  destruct (close_all producers _ m closing w) as [[[]|e1] w1];
    [|reflexivity].
  destruct (close_all consumers _ m closing w1) as [[[]|e2] w2];
    [|reflexivity].
  destruct (close_all transports _ m closing w2) as [[[]|e3] w3];
    reflexivity.
Qed.

(** ** Closing never adds anything *)

Lemma fades_refl w : fades w w.
Proof. unfold fades. intuition. Qed.

Lemma fades_trans w1 w2 w3 : fades w1 w2 -> fades w2 w3 -> fades w1 w3.
Proof.
  unfold fades.
  intros (L1 & A1 & B1 & C1 & D1 & E1 & F1) (L2 & A2 & B2 & C2 & D2 & E2 & F2).
  repeat split; try congruence; auto.
Qed.

Lemma shrinks_fades w w' : shrinks w w' -> fades w w'.
Proof.
  unfold shrinks, fades. intros (T & L & P & Q & C & D). rewrite T.
  repeat split; auto.
  - intros m. apply P.
  - intros m. apply C.
Qed.

Section DropFacts.
Context {V : Type} {reg : Registry V} (L : Lawful reg).

Lemma dropped_absent m w :
  JsObject.get m (read reg w) = None -> dropped reg m w = w.
Proof.
  intros H. unfold dropped. rewrite (delete_absent m _ H).
  apply (write_read L).
Qed.

Lemma dropped_gone m w : JsObject.get m (read reg (dropped reg m w)) = None.
Proof. unfold dropped. rewrite (read_write L). apply get_delete_same. Qed.

Lemma dropped_session m w m' :
  JsObject.get m' (read reg w) = None ->
  JsObject.get m' (read reg (dropped reg m w)) = None.
Proof.
  intros H. unfold dropped. rewrite (read_write L).
  destruct (String.eqb_spec m' m) as [->|Hne].
  - apply get_delete_same.
  - now rewrite get_delete_other.
Qed.

Lemma dropped_kept m w m' k v :
  lookup2 (read reg (dropped reg m w)) m' k = Some v ->
  m' <> m /\ lookup2 (read reg w) m' k = Some v.
Proof.
  unfold dropped. rewrite (read_write L).
  destruct (String.eqb_spec m' m) as [->|Hne].
  - now rewrite lookup2_delete_same.
  - now rewrite lookup2_delete_other.
Qed.

End DropFacts.

Lemma dropped_producers_fades m w : fades w (dropped producers m w).
Proof.
  unfold fades. repeat split; auto.
  - intros m'. apply (dropped_session producers_lawful).
  - intros m' k p H. now apply (dropped_kept producers_lawful) in H.
Qed.

Lemma dropped_consumers_fades m w : fades w (dropped consumers m w).
Proof.
  unfold fades. repeat split; auto.
  - intros m'. apply (dropped_session consumers_lawful).
  - intros m' k p H. now apply (dropped_kept consumers_lawful) in H.
Qed.

Lemma dropped_transports_fades m w : fades w (dropped transports m w).
Proof.
  unfold fades. repeat split; auto.
  - intros m'. apply (dropped_session transports_lawful).
  - intros m' k p H. now apply (dropped_kept transports_lawful) in H.
Qed.

(** One block of the cleanup ends with the session's dictionary deleted,
    or with a throw and nothing deleted. *)
Lemma close_all_cases {V : Type} {reg : Registry V} (L : Lawful reg)
    (obj : V -> Target) m closing w :
  exists w0,
    shrinks w w0
    /\ ((answer (close_all reg obj m closing) w = Normal tt
         /\ after (close_all reg obj m closing) w = dropped reg m w0)
        \/ (exists e,
             answer (close_all reg obj m closing) w = Thrown e
             /\ after (close_all reg obj m closing) w = w0)).
Proof.
  unfold answer at 1 2, after at 1 2. rewrite close_all_eq.
  destruct (JsObject.get m (read reg w)) as [o|] eqn:E.
  - cbv zeta.
    exists (after (forEach (JsObject.values o)
                     (fun x => close (closing (obj x)))) w).
    split; [apply forEach_close_shrinks|].
    destruct (answer _ w) as [[]|e]; [left | right; exists e]; auto.
  - exists w. split; [apply shrinks_refl|]. left.
    now rewrite (dropped_absent L m w E).
Qed.

(** The cleanup handler either finishes, and then the session has no
    entry left in any registry, or it answers 500 with the transport
    registry untouched.  Either way nothing has been added. *)
Lemma cleanupSession_cases matchId closing w m :
  present matchId = Some m ->
  fades w (after (cleanupSession matchId closing) w)
  /\ ((answer (cleanupSession matchId closing) w = Normal success
       /\ absent m (after (cleanupSession matchId closing) w)
       /\ matchTransports (after (cleanupSession matchId closing) w)
          = JsObject.delete m (matchTransports w))
      \/ (answer (cleanupSession matchId closing) w
            = Normal (error 500 "Failed to clean up match resources")
          /\ matchTransports (after (cleanupSession matchId closing) w)
             = matchTransports w)).
Proof.
  intros Hm. unfold answer, after. rewrite (cleanupSession_eq _ _ _ _ Hm).
  unfold bind.
  destruct (close_all_cases producers_lawful
              (fun p => ProducerObj (producer_id p)) m closing w)
    as (w0 & S0 & H0).
  unfold answer, after in H0.
  destruct (close_all producers _ m closing w) as [c1 w1]. cbn [fst snd] in H0.
  destruct H0 as [[-> ->]|(e & -> & ->)].
  2:{ cbn. split; [now apply shrinks_fades|]. right.
      split; [reflexivity | apply S0]. }
  destruct (close_all_cases consumers_lawful
              (fun c => ConsumerObj (consumer_id c)) m closing
              (dropped producers m w0))
    as (w2 & S2 & H2).
  unfold answer, after in H2.
  destruct (close_all consumers _ m closing (dropped producers m w0))
    as [c2 w3]. cbn [fst snd] in H2.
  assert (F2 : fades w w2).
  { eapply fades_trans; [apply shrinks_fades, S0|].
    eapply fades_trans; [apply dropped_producers_fades|].
    apply shrinks_fades, S2. }
  assert (T2 : matchTransports w2 = matchTransports w).
  { destruct S2 as (-> & _). cbn. apply S0. }
  destruct H2 as [[-> ->]|(e & -> & ->)].
  2:{ cbn. split; [assumption|]. right. now split. }
  destruct (close_all_cases transports_lawful
              (fun t => TransportObj (transport_id t)) m closing
              (dropped consumers m w2))
    as (w4 & S4 & H4).
  unfold answer, after in H4.
  destruct (close_all transports _ m closing (dropped consumers m w2))
    as [c4 w5]. cbn [fst snd] in H4.
  assert (F4 : fades w w4).
  { eapply fades_trans; [apply F2|].
    eapply fades_trans; [apply dropped_consumers_fades|].
    apply shrinks_fades, S4. }
  assert (T4 : matchTransports w4 = matchTransports w).
  { destruct S4 as (-> & _). cbn. apply T2. }
  destruct H4 as [[-> ->]|(e & -> & ->)].
  2:{ cbn. split; [assumption|]. right. now split. }
  cbn [fst snd]. split.
  { eapply fades_trans; [apply F4 | apply dropped_transports_fades]. }
  left. split; [reflexivity|]. split.
  - unfold absent. split; [apply (dropped_gone transports_lawful)|].
    cbn [dropped transports write read set_transports matchProducers
         matchConsumers].
    destruct S4 as (_ & _ & P4 & _ & C4 & _).
    split.
    + apply P4. cbn.
      destruct S2 as (_ & _ & P2 & _).
      apply P2. apply (dropped_gone producers_lawful).
    + apply C4. apply (dropped_gone consumers_lawful).
  - cbn. now rewrite T4.
Qed.

(** ** After a cleanup *)

Lemma absent_lookup_transports m w t :
  absent m w -> lookup2 (matchTransports w) m t = None.
Proof. intros (H & _). unfold lookup2. now rewrite H. Qed.

(** C1, as stated, fails: after a successful cleanup of session "m1" the
    status report does not say [active = false] (its flag is [undefined]),
    and closing the session's old transport is not answered with
    TransportNotFound but with success. *)
Lemma cleanup_then_status_and_closeTransport :
  answer (cleanupSession Demo.m1 quiet) Demo.with_consumer = Normal success
  /\ answer (status_of "m1")
       (after (cleanupSession Demo.m1 quiet) Demo.with_consumer)
     <> Normal (json (status_body (JBool false) 0))
  /\ answer (closeTransport Demo.m1 Demo.t1 quiet)
       (after (cleanupSession Demo.m1 quiet) Demo.with_consumer)
     <> Normal TransportNotFound.
Proof.
  split; [reflexivity|]. split; vm_compute; discriminate.
Qed.

(** C1, amended. In a state the process reaches through requests that
    name no inherited member, and for a session identifier that is not such
    a name: after [cleanupSession] has answered success for the session,
    the session has no entry in any of the three registries; a
    status query then reports [producerCount] 0 with an activity flag that
    is [undefined]; [connectTransport], [produce] and [consume] with their
    required fields present and any transport identifier under that
    session are answered TransportNotFound; and [closeTransport] under
    that session is answered success and changes nothing. *)
Theorem cleanupSession_leaves_no_entry :
  forall matchId closing w m,
    pristine w ->
    present matchId = Some m -> ordinary m ->
    answer (cleanupSession matchId closing) w = Normal success ->
    absent m (after (cleanupSession matchId closing) w)
    /\ status_of m (after (cleanupSession matchId closing) w)
       = (Normal (json (status_body JUndefined 0)),
          after (cleanupSession matchId closing) w)
    /\ (forall transportId dtls connected,
          present transportId <> None ->
          connectTransport matchId transportId dtls connected
            (after (cleanupSession matchId closing) w)
          = (Normal TransportNotFound,
             after (cleanupSession matchId closing) w))
    /\ (forall transportId kind rtp produced,
          present transportId <> None -> present kind <> None ->
          rtp <> None ->
          produce matchId transportId kind rtp produced
            (after (cleanupSession matchId closing) w)
          = (Normal TransportNotFound,
             after (cleanupSession matchId closing) w))
    /\ (forall transportId caps can consumed,
          present transportId <> None -> caps <> None ->
          consume matchId transportId caps can consumed
            (after (cleanupSession matchId closing) w)
          = (Normal TransportNotFound,
             after (cleanupSession matchId closing) w))
    /\ (forall transportId closing',
          present transportId <> None ->
          closeTransport matchId transportId closing'
            (after (cleanupSession matchId closing) w)
          = (Normal success, after (cleanupSession matchId closing) w)).
Proof.
  intros matchId closing w m _ Hm _ Hok.
  destruct (cleanupSession_cases matchId closing w m Hm)
    as (_ & [(_ & Habs & _)|(Herr & _)]);
    [|rewrite Herr in Hok; discriminate].
  set (w' := after (cleanupSession matchId closing) w) in *.
  split; [assumption|].
  split.
  { apply status_of_absent. apply Habs. }
  split; [|split; [|split]].
  - intros transportId dtls connected Ht.
    destruct (present transportId) as [t|] eqn:Et; [|congruence].
    unfold connectTransport. rewrite Hm, Et. js.
    now rewrite (absent_lookup_transports m w' t Habs).
  - intros transportId kind rtp produced Ht Hk Hr.
    destruct (present transportId) as [t|] eqn:Et; [|congruence].
    destruct (present kind) as [k|] eqn:Ek; [|congruence].
    destruct rtp as [r|]; [|congruence].
    unfold produce. rewrite Hm, Et, Ek. js.
    now rewrite (absent_lookup_transports m w' t Habs).
  - intros transportId caps can consumed Ht Hc.
    destruct (present transportId) as [t|] eqn:Et; [|congruence].
    rewrite (consume_eq matchId transportId caps can consumed w' m t Hm Et Hc).
    now rewrite (absent_lookup_transports m w' t Habs).
  - intros transportId closing' Ht.
    destruct (present transportId) as [t|] eqn:Et; [|congruence].
    rewrite (closeTransport_eq matchId transportId closing' w' m t Hm Et).
    now rewrite (absent_lookup_transports m w' t Habs).
Qed.

Lemma cleanupSession_leaves_no_entry_witness :
  pristine Demo.with_consumer
  /\ absent "m1" (after (cleanupSession Demo.m1 quiet) Demo.with_consumer).
Proof.
  assert (H : pristine Demo.with_consumer)
    by (exists Demo.to_consumer; split; reflexivity).
  split; [exact H|].
  apply (cleanupSession_leaves_no_entry Demo.m1 quiet Demo.with_consumer "m1"
           H);
    reflexivity.
Defined.

(** ** Closing twice *)

Lemma removed_gone {V : Type} {reg : Registry V} (L : Lawful reg) m k w :
  lookup2 (read reg (removed reg m k w)) m k = None.
Proof.
  unfold removed. destruct (remove_in reg m k w) as [w'|] eqn:E.
  - apply (remove_in_gone L m k w w' E).
  - unfold remove_in in E. unfold lookup2.
    destruct (JsObject.get m (read reg w)); [discriminate | reflexivity].
Qed.

Lemma close_all_absent {V : Type} (reg : Registry V) (obj : V -> Target)
    m closing w :
  JsObject.get m (read reg w) = None ->
  close_all reg obj m closing w = (Normal tt, w).
Proof. intros H. rewrite close_all_eq. now rewrite H. Qed.

Lemma cleanupSession_absent matchId closing w m :
  present matchId = Some m -> absent m w ->
  cleanupSession matchId closing w = (Normal success, w).
Proof.
  intros Hm (HT & HP & HC). rewrite (cleanupSession_eq _ _ _ _ Hm).
  unfold bind.
  rewrite (close_all_absent producers _ m closing w HP).
  rewrite (close_all_absent consumers _ m closing w HC).
  now rewrite (close_all_absent transports _ m closing w HT).
Qed.

(** C6, as first stated, fails: when the engine's [close()] of a
    registered producer throws, the first [closeProducer] answers 500 and
    removes nothing, and the same call again is answered 500 again, not
    success. *)
Lemma closeProducer_fails_twice :
  closeProducer Demo.m1 (Some "producer-1") failing Demo.with_producer
  = (Normal (error 500 "Failed to close producer"), Demo.with_producer)
  /\ answer (closeProducer Demo.m1 (Some "producer-1") failing)
       (after (closeProducer Demo.m1 (Some "producer-1") failing)
          Demo.with_producer)
     <> Normal success.
Proof. split; [reflexivity | vm_compute; discriminate]. Qed.

(** C6, amended. In a state the process reaches through requests that
    name no inherited member, and with identifiers that are not such names:
    each of [closeProducer], [closeTransport] and [cleanupSession], called a
    second time with the same identifiers right after a call that answered
    success, answers success again and leaves the state exactly as the
    first call left it, whatever the engine would do. *)
Theorem close_handlers_idempotent :
  (forall matchId producerId closing closing' w,
      pristine w -> plain matchId -> plain producerId ->
      answer (closeProducer matchId producerId closing) w = Normal success ->
      closeProducer matchId producerId closing'
        (after (closeProducer matchId producerId closing) w)
      = (Normal success, after (closeProducer matchId producerId closing) w))
  /\ (forall matchId transportId closing closing' w,
      pristine w -> plain matchId -> plain transportId ->
      answer (closeTransport matchId transportId closing) w = Normal success ->
      closeTransport matchId transportId closing'
        (after (closeTransport matchId transportId closing) w)
      = (Normal success, after (closeTransport matchId transportId closing) w))
  /\ (forall matchId closing closing' w,
      pristine w -> plain matchId ->
      answer (cleanupSession matchId closing) w = Normal success ->
      cleanupSession matchId closing'
        (after (cleanupSession matchId closing) w)
      = (Normal success, after (cleanupSession matchId closing) w)).
Proof.
  split; [|split].
  - intros matchId producerId closing closing' w _ _ _.
    destruct (present matchId) as [m|] eqn:Hm;
      [|unfold answer, closeProducer; rewrite Hm; discriminate].
    destruct (present producerId) as [p|] eqn:Hp;
      [|unfold answer, closeProducer; rewrite Hm, Hp; discriminate].
    unfold answer, after.
    rewrite (closeProducer_eq matchId producerId closing w m p Hm Hp).
    destruct (lookup2 (matchProducers w) m p) as [producer|] eqn:E.
    + cbv zeta.
      destruct (outcome (closing (ProducerObj (producer_id producer))))
        as [[]|e]; [|discriminate].
      intros _. cbn [snd].
      rewrite (closeProducer_eq matchId producerId closing' _ m p Hm Hp).
      change matchProducers with (read producers).
      now rewrite (removed_gone producers_lawful).
    + intros _. cbn [snd].
      rewrite (closeProducer_eq matchId producerId closing' w m p Hm Hp).
      now rewrite E.
  - intros matchId transportId closing closing' w _ _ _.
    destruct (present matchId) as [m|] eqn:Hm;
      [|unfold answer, closeTransport; rewrite Hm; discriminate].
    destruct (present transportId) as [t|] eqn:Ht;
      [|unfold answer, closeTransport; rewrite Hm, Ht; discriminate].
    unfold answer, after.
    rewrite (closeTransport_eq matchId transportId closing w m t Hm Ht).
    destruct (lookup2 (matchTransports w) m t) as [transport|] eqn:E.
    + cbv zeta.
      destruct (outcome (closing (TransportObj (transport_id transport))))
        as [[]|e]; [|discriminate].
      intros _. cbn [snd].
      rewrite (closeTransport_eq matchId transportId closing' _ m t Hm Ht).
      change matchTransports with (read transports).
      now rewrite (removed_gone transports_lawful).
    + intros _. cbn [snd].
      rewrite (closeTransport_eq matchId transportId closing' w m t Hm Ht).
      now rewrite E.
  - intros matchId closing closing' w _ _ Hok.
    destruct (present matchId) as [m|] eqn:Hm;
      [|unfold answer, cleanupSession in Hok; rewrite Hm in Hok;
        discriminate].
    destruct (cleanupSession_cases matchId closing w m Hm)
      as (_ & [(_ & Habs & _)|(Herr & _)]);
      [|rewrite Herr in Hok; discriminate].
    now apply (cleanupSession_absent matchId closing' _ m).
Qed.

Lemma close_handlers_idempotent_witness :
  pristine Demo.with_consumer
  /\ closeTransport Demo.m1 Demo.t1 failing
       (after (closeTransport Demo.m1 Demo.t1 quiet) Demo.with_consumer)
     = (Normal success,
        after (closeTransport Demo.m1 Demo.t1 quiet) Demo.with_consumer).
Proof.
  assert (H0 : pristine Demo.with_consumer)
    by (exists Demo.to_consumer; split; reflexivity).
  split; [exact H0|].
  destruct close_handlers_idempotent as (_ & H & _).
  apply (H Demo.m1 Demo.t1 quiet failing Demo.with_consumer H0);
    reflexivity.
Defined.

(** ** When a close throws *)

Lemma forEach_close_quiet {V : Type} (obj : V -> Target) closing l w :
  (forall x, emitted (closing x) = []) ->
  after (forEach l (fun x => close (closing (obj x)))) w = w
  /\ (if throws_for closing obj l
      then exists e,
          answer (forEach l (fun x => close (closing (obj x)))) w = Thrown e
      else answer (forEach l (fun x => close (closing (obj x)))) w = Normal tt).
Proof.
  intros Hq. induction l as [|x l IH]; cbn; [auto|].
  unfold after, answer, bind in *. rewrite close_eq, Hq.
  cbn [emit_all fold_left].
  destruct (outcome (closing (obj x))) as [[]|e]; cbn.
  - exact IH.
  - split; [reflexivity | now exists e].
Qed.

Lemma close_all_quiet {V : Type} {reg : Registry V} (L : Lawful reg)
    (obj : V -> Target) m closing w :
  (forall x, emitted (closing x) = []) ->
  if throws_for closing obj (session_values reg m w)
  then exists e, close_all reg obj m closing w = (Thrown e, w)
  else close_all reg obj m closing w = (Normal tt, dropped reg m w).
Proof.
  intros Hq. rewrite close_all_eq. unfold session_values.
  destruct (JsObject.get m (read reg w)) as [o|] eqn:E.
  - cbv zeta.
    destruct (forEach_close_quiet obj closing (JsObject.values o) w Hq)
      as (-> & H).
    destruct (throws_for closing obj (JsObject.values o)).
    + destruct H as (e & ->). now exists e.
    + now rewrite H.
  - cbn. now rewrite (dropped_absent L m w E).
Qed.

(** C4, as stated, fails: the engine's [close()] of a registered producer
    throws, [closeProducer] answers 500 and the producer is still
    registered. *)
Lemma closeProducer_keeps_handle_when_close_throws :
  lookup2 (matchProducers Demo.with_producer) "m1" "producer-1" <> None
  /\ closeProducer Demo.m1 (Some "producer-1") failing Demo.with_producer
     = (Normal (error 500 "Failed to close producer"), Demo.with_producer)
  /\ lookup2
       (matchProducers
          (after (closeProducer Demo.m1 (Some "producer-1") failing)
             Demo.with_producer))
       "m1" "producer-1"
     <> None.
Proof. repeat split; vm_compute; discriminate. Qed.

(** C4, amended. When the engine's [close()] of a registered resource
    throws, [closeProducer] and [closeTransport] answer 500 and do not
    remove the handle: the state is the one the listeners of the events
    emitted during the call have left, so with no such event the resource
    is still registered.  [cleanupSession], for a session identifier that
    is not the name of an inherited member, in a state the process reaches
    through requests that name no such member, and with closes that emit
    no event, stops at the first kind of resource for which a [close()]
    throws and answers 500: the dictionaries of the kinds before it
    (producers, then consumers) have been deleted, its own and the later
    ones are as they were; it answers success, with all three deleted,
    only when no [close()] throws. *)
Theorem close_failure_keeps_handle :
  (forall matchId producerId closing w m p producer e,
      present matchId = Some m -> present producerId = Some p ->
      lookup2 (matchProducers w) m p = Some producer ->
      outcome (closing (ProducerObj (producer_id producer))) = Throws e ->
      closeProducer matchId producerId closing w
      = (Normal (error 500 "Failed to close producer"),
         emit_all (emitted (closing (ProducerObj (producer_id producer)))) w)
      /\ (emitted (closing (ProducerObj (producer_id producer))) = [] ->
          lookup2
            (matchProducers
               (after (closeProducer matchId producerId closing) w))
            m p = Some producer))
  /\ (forall matchId transportId closing w m t transport e,
      present matchId = Some m -> present transportId = Some t ->
      lookup2 (matchTransports w) m t = Some transport ->
      outcome (closing (TransportObj (transport_id transport))) = Throws e ->
      closeTransport matchId transportId closing w
      = (Normal (error 500 "Failed to close transport"),
         emit_all (emitted (closing (TransportObj (transport_id transport)))) w)
      /\ lookup2
           (matchTransports
              (after (closeTransport matchId transportId closing) w))
           m t = Some transport)
  /\ (forall matchId closing w m,
      pristine w ->
      present matchId = Some m -> ordinary m ->
      (forall x, emitted (closing x) = []) ->
      cleanupSession matchId closing w
      = if throws_for closing (fun p => ProducerObj (producer_id p))
             (session_values producers m w)
        then (Normal (error 500 "Failed to clean up match resources"), w)
        else if throws_for closing (fun c => ConsumerObj (consumer_id c))
                  (session_values consumers m w)
        then (Normal (error 500 "Failed to clean up match resources"),
              dropped producers m w)
        else if throws_for closing (fun t => TransportObj (transport_id t))
                  (session_values transports m w)
        then (Normal (error 500 "Failed to clean up match resources"),
              dropped consumers m (dropped producers m w))
        else (Normal success,
              dropped transports m
                (dropped consumers m (dropped producers m w)))).
Proof.
  split; [|split].
  - intros matchId producerId closing w m p producer e Hm Hp Hreg Hthrow.
    unfold after.
    rewrite (closeProducer_eq matchId producerId closing w m p Hm Hp).
    rewrite Hreg. cbv zeta. rewrite Hthrow.
    split; [reflexivity|]. intros ->. exact Hreg.
  - intros matchId transportId closing w m t transport e Hm Ht Hreg Hthrow.
    unfold after.
    rewrite (closeTransport_eq matchId transportId closing w m t Hm Ht).
    rewrite Hreg. cbv zeta. rewrite Hthrow.
    split; [reflexivity|]. cbn [snd].
    rewrite (shrinks_lookup_transports w _ m t (emit_all_shrinks _ w)).
    exact Hreg.
  - intros matchId closing w m _ Hm _ Hq.
    rewrite (cleanupSession_eq matchId closing w m Hm). unfold bind.
    pose proof (close_all_quiet producers_lawful
                  (fun p => ProducerObj (producer_id p)) m closing w Hq) as H1.
    destruct (throws_for closing (fun p => ProducerObj (producer_id p))
                (session_values producers m w)).
    { destruct H1 as (e & ->). reflexivity. }
    rewrite H1.
    pose proof (close_all_quiet consumers_lawful
                  (fun c => ConsumerObj (consumer_id c)) m closing
                  (dropped producers m w) Hq) as H2.
    change (session_values consumers m (dropped producers m w))
      with (session_values consumers m w) in H2.
    destruct (throws_for closing (fun c => ConsumerObj (consumer_id c))
                (session_values consumers m w)).
    { destruct H2 as (e & ->). reflexivity. }
    rewrite H2.
    pose proof (close_all_quiet transports_lawful
                  (fun t => TransportObj (transport_id t)) m closing
                  (dropped consumers m (dropped producers m w)) Hq) as H3.
    change (session_values transports m
              (dropped consumers m (dropped producers m w)))
      with (session_values transports m w) in H3.
    destruct (throws_for closing (fun t => TransportObj (transport_id t))
                (session_values transports m w)).
    { destruct H3 as (e & ->). reflexivity. }
    rewrite H3. reflexivity.
Qed.

Lemma close_failure_keeps_handle_witness :
  closeTransport Demo.m1 Demo.t1 failing Demo.with_producer
  = (Normal (error 500 "Failed to close transport"), Demo.with_producer)
  /\ lookup2
       (matchTransports
          (after (closeTransport Demo.m1 Demo.t1 failing) Demo.with_producer))
       "m1" "transport-1" = Some Demo.transport1.
Proof.
  destruct close_failure_keeps_handle as (_ & H & _).
  apply (H Demo.m1 Demo.t1 failing Demo.with_producer "m1" "transport-1"
           Demo.transport1 "close failed"); reflexivity.
Defined.

(** ** Closing a producer and its consumers *)

Lemma Target_eqb_eq a b : Target_eqb a b = true <-> a = b.
Proof.
  destruct a, b; cbn; try (split; [discriminate | congruence]);
    rewrite String.eqb_eq; split; congruence.
Qed.

Lemma Emit_eqb_eq a b : Emit_eqb a b = true <-> a = b.
Proof.
  destruct a as [ta ea], b as [tb eb]. unfold Emit_eqb. cbn.
  rewrite andb_true_iff, Target_eqb_eq, String.eqb_eq.
  split; [intros [-> ->]; reflexivity | intros [= -> ->]; auto].
Qed.

Lemma fold_listeners_unheard e ls w :
  (forall l, In l ls -> Emit_eqb (listens_to l) e = false) ->
  fold_left
    (fun w' l => if Emit_eqb (listens_to l) e then run_listener l w' else w')
    ls w = w.
Proof.
  revert w. induction ls as [|l ls IH]; intros w H; cbn; [reflexivity|].
  rewrite (H l (or_introl eq_refl)). apply IH.
  intros l' Hl. apply H. now right.
Qed.

Lemma Emit_eqb_false a b : a <> b -> Emit_eqb a b = false.
Proof.
  intros H. destruct (Emit_eqb a b) eqn:E; [|reflexivity].
  apply Emit_eqb_eq in E. contradiction.
Qed.

(** Only "transportclose" on a producer or a consumer is listened to. *)
Lemma emit_unheard e w :
  emit_event e <> "transportclose"
  \/ (exists id, emit_target e = TransportObj id) ->
  emit e w = w.
Proof.
  intros H. apply fold_listeners_unheard. intros l _.
  apply Emit_eqb_false. intros <-.
  destruct H as [H|(id & H)]; destruct l; cbn in H; congruence.
Qed.

Lemma emit_all_unheard es w :
  (forall e, In e es -> emit_event e <> "transportclose") ->
  emit_all es w = w.
Proof.
  revert w. induction es as [|e es IH]; intros w H; cbn; [reflexivity|].
  rewrite emit_unheard by (left; apply H; now left).
  apply IH. intros e' Hin. apply H. now right.
Qed.

Lemma emit_keeps_consumers e w :
  (forall c, e <> transportclose (ConsumerObj c)) ->
  matchConsumers (emit e w) = matchConsumers w.
Proof.
  intros He. unfold emit. generalize (listeners w) as ls.
  intros ls. revert w. induction ls as [|l ls IH]; intros w; cbn; auto.
  rewrite IH. destruct (Emit_eqb (listens_to l) e) eqn:E; [|reflexivity].
  apply Emit_eqb_eq in E. destruct l as [m id|m id]; cbn in *.
  - apply forget_producers_frame.
  - now destruct (He id).
Qed.

Lemma emit_all_keeps_consumers es w :
  (forall e c, In e es -> e <> transportclose (ConsumerObj c)) ->
  matchConsumers (emit_all es w) = matchConsumers w.
Proof.
  revert w. induction es as [|e es IH]; intros w H; cbn; auto.
  rewrite IH by (intros e' c Hin; apply H; now right).
  apply emit_keeps_consumers. intros c. apply H. now left.
Qed.

Lemma removed_producers_frame m p w :
  matchTransports (removed producers m p w) = matchTransports w
  /\ matchConsumers (removed producers m p w) = matchConsumers w
  /\ listeners (removed producers m p w) = listeners w.
Proof.
  unfold removed. destruct (remove_in producers m p w) as [w'|] eqn:E; auto.
  destruct (remove_in_read _ _ _ _ E) as (inner & _ & ->). auto.
Qed.

Lemma removed_transports_frame m t w :
  matchProducers (removed transports m t w) = matchProducers w
  /\ matchConsumers (removed transports m t w) = matchConsumers w
  /\ listeners (removed transports m t w) = listeners w.
Proof.
  unfold removed. destruct (remove_in transports m t w) as [w'|] eqn:E; auto.
  destruct (remove_in_read m t w w' E) as (inner & _ & ->). auto.
Qed.

(** C2, as stated, fails: a consumer was created against "producer-1";
    [closeProducer] closes and removes that producer, the engine even
    tells the consumer with "producerclose", and the consumer is still in
    the session's consumer registry. *)
Lemma consumer_survives_closeProducer :
  option_map consumer_producerId
    (lookup2 (matchConsumers Demo.with_consumer) "m1" "consumer-1")
  = Some "producer-1"
  /\ answer (closeProducer Demo.m1 (Some "producer-1") Demo.producer_closing)
       Demo.with_consumer = Normal success
  /\ lookup2
       (matchProducers
          (after (closeProducer Demo.m1 (Some "producer-1")
                    Demo.producer_closing) Demo.with_consumer))
       "m1" "producer-1" = None
  /\ lookup2
       (matchConsumers
          (after (closeProducer Demo.m1 (Some "producer-1")
                    Demo.producer_closing) Demo.with_consumer))
       "m1" "consumer-1" <> None.
Proof. repeat split. vm_compute. discriminate. Qed.

(** C2, amended. In a state the process reaches through requests that
    name no inherited member, and with identifiers that are not such names:
    [closeProducer] closes and removes the producer's own handle and
    nothing else.  Unless the engine emits "transportclose" on a consumer
    while the producer closes, the consumer registry after the call is the
    one before it, so a consumer created against the producer stays
    registered.  And when the producer is registered, its [close()]
    returns and the engine emits no "transportclose" meanwhile, the call
    answers success, the producer's entry is gone, every other producer
    entry is as it was, and the consumer registry, the transport registry
    and the listeners are exactly as before. *)
Theorem closeProducer_keeps_consumers :
  forall matchId producerId closing w,
    pristine w -> plain matchId -> plain producerId ->
    ((forall x e c, In e (emitted (closing x)) ->
                    e <> transportclose (ConsumerObj c)) ->
     matchConsumers (after (closeProducer matchId producerId closing) w)
     = matchConsumers w)
    /\ (forall m p producer,
          present matchId = Some m -> present producerId = Some p ->
          lookup2 (matchProducers w) m p = Some producer ->
          outcome (closing (ProducerObj (producer_id producer))) = Returns tt ->
          (forall e,
              In e (emitted (closing (ProducerObj (producer_id producer)))) ->
              emit_event e <> "transportclose") ->
          answer (closeProducer matchId producerId closing) w = Normal success
          /\ lookup2
               (matchProducers
                  (after (closeProducer matchId producerId closing) w)) m p
             = None
          /\ (forall m' k,
                (m', k) <> (m, p) ->
                lookup2
                  (matchProducers
                     (after (closeProducer matchId producerId closing) w))
                  m' k
                = lookup2 (matchProducers w) m' k)
          /\ matchConsumers (after (closeProducer matchId producerId closing) w)
             = matchConsumers w
          /\ matchTransports
               (after (closeProducer matchId producerId closing) w)
             = matchTransports w
          /\ listeners (after (closeProducer matchId producerId closing) w)
             = listeners w).
Proof.
  intros matchId producerId closing w _ _ _. split.
  - intros Hq.
    destruct (present matchId) as [m|] eqn:Hm;
      [|unfold after, closeProducer; rewrite Hm; reflexivity].
    destruct (present producerId) as [p|] eqn:Hp;
      [|unfold after, closeProducer; rewrite Hm, Hp; reflexivity].
    unfold after.
    rewrite (closeProducer_eq matchId producerId closing w m p Hm Hp).
    destruct (lookup2 (matchProducers w) m p) as [producer|]; [|reflexivity].
    cbv zeta.
    destruct (outcome (closing (ProducerObj (producer_id producer))))
      as [[]|e]; cbn [snd].
    + destruct (removed_producers_frame m p
                  (emit_all
                     (emitted (closing (ProducerObj (producer_id producer))))
                     w))
        as (_ & -> & _).
      apply emit_all_keeps_consumers. intros e c. apply Hq.
    + apply emit_all_keeps_consumers. intros e' c. apply Hq.
  - intros m p producer Hm Hp Hreg Hret Hq.
    unfold answer, after.
    rewrite (closeProducer_eq matchId producerId closing w m p Hm Hp).
    rewrite Hreg. cbv zeta. rewrite Hret, (emit_all_unheard _ w Hq).
    cbn [fst snd].
    destruct (removed_producers_frame m p w) as (HT & HC & HL).
    split; [reflexivity|].
    split; [change matchProducers with (read producers);
            apply (removed_gone producers_lawful)|].
    split; [|auto].
    intros m' k Hne. unfold removed.
    destruct (remove_in producers m p w) as [w'|] eqn:E; [|reflexivity].
    change matchProducers with (read producers).
    rewrite (remove_in_lookup producers_lawful m p w w' m' k E).
    destruct (String.eqb_spec m' m) as [->|]; [|reflexivity].
    destruct (String.eqb_spec k p) as [->|]; [congruence | reflexivity].
Qed.

Lemma closeProducer_keeps_consumers_witness :
  pristine Demo.with_consumer
  /\ lookup2
       (matchProducers
          (after (closeProducer Demo.m1 (Some "producer-1")
                    Demo.producer_closing) Demo.with_consumer))
       "m1" "producer-1" = None
  /\ matchConsumers
       (after (closeProducer Demo.m1 (Some "producer-1")
                 Demo.producer_closing) Demo.with_consumer)
     = matchConsumers Demo.with_consumer.
Proof.
  assert (H : pristine Demo.with_consumer)
    by (exists Demo.to_consumer; split; reflexivity).
  split; [exact H|].
  destruct (closeProducer_keeps_consumers Demo.m1 (Some "producer-1")
              Demo.producer_closing Demo.with_consumer H eq_refl eq_refl)
    as (_ & H0).
  destruct (H0 "m1" "producer-1"
              {| producer_id := "producer-1";
                 producer_transport := "transport-1" |}
              eq_refl eq_refl eq_refl eq_refl) as (_ & H1 & _ & H2 & _).
  - intros e [<-|[]]. discriminate.
  - split; assumption.
Defined.

(** ** Producers, consumers and their transport *)



(** *** What the creating handlers leave *)

Lemma bind_ret {A B : Type} (a : A) (k : A -> Js B) w :
  (x <- ret a ;; k x) w = k a w.
Proof. reflexivity. Qed.

Lemma bind_inspect {A B : Type} (f : World -> A) (k : A -> Js B) w :
  (x <- inspect f ;; k x) w = k (f w) w.
Proof. reflexivity. Qed.

Lemma createTransport_after matchId created w :
  after (createTransport matchId created) w
  = match present matchId, created with
    | Some m, Returns t => put transports m (transport_id t) t w
    | _, _ => w
    end.
Proof.
  unfold after, createTransport.
  destruct (present matchId) as [m|]; [|reflexivity].
  destruct created as [t|e]; [|reflexivity].
  unfold try_catch, await. unfold bind at 1. unfold ret at 1.
  now rewrite (ensure_assign_then transports_lawful).
Qed.

Lemma connectTransport_after matchId transportId dtls connected w :
  after (connectTransport matchId transportId dtls connected) w = w.
Proof.
  unfold after, connectTransport.
  destruct (present matchId); [|reflexivity].
  destruct (present transportId); [|reflexivity].
  js. destruct (lookup2 (matchTransports w) _ _); [|reflexivity].
  destruct connected; reflexivity.
Qed.

Lemma status_of_after matchId w : after (status_of matchId) w = w.
Proof. unfold after. now rewrite status_of_eq. Qed.

Lemma produce_after matchId transportId kind rtp produced w :
  after (produce matchId transportId kind rtp produced) w = w
  \/ exists m t transport id,
      lookup2 (matchTransports w) m t = Some transport
      /\ after (produce matchId transportId kind rtp produced) w
         = add_listener (ProducerTransportClose m id)
             (put producers m id
                {| producer_id := id;
                   producer_transport := transport_id transport |} w).
Proof.
  unfold after, produce.
  destruct (present matchId) as [m|]; [|now left].
  destruct (present transportId) as [t|]; [|now left].
  destruct (present kind); [|now left].
  destruct rtp; [|now left].
  rewrite bind_inspect.
  destruct (lookup2 (matchTransports w) m t) as [transport|] eqn:E;
    [|now left].
  destruct produced as [id|e]; [|now left].
  right. exists m, t, transport, id. split; [assumption|].
  unfold try_catch, await. rewrite bind_ret.
  now rewrite (ensure_assign_then producers_lawful).
Qed.

Lemma consume_after matchId transportId caps can consumed w :
  after (consume matchId transportId caps can consumed) w = w
  \/ exists m t transport producer c,
      lookup2 (matchTransports w) m t = Some transport
      /\ after (consume matchId transportId caps can consumed) w
         = add_listener (ConsumerTransportClose m (consumed_id c))
             (put consumers m (consumed_id c)
                {| consumer_id := consumed_id c;
                   consumer_kind := consumed_kind c;
                   consumer_rtpParameters := consumed_rtpParameters c;
                   consumer_transport := transport_id transport;
                   consumer_producerId := producer_id producer |} w).
Proof.
  destruct (present matchId) as [m|] eqn:Hm;
    [|left; unfold after, consume; rewrite Hm; reflexivity].
  destruct (present transportId) as [t|] eqn:Ht;
    [|left; unfold after, consume; rewrite Hm, Ht; reflexivity].
  destruct caps as [c0|];
    [|left; unfold after, consume; rewrite Hm, Ht; reflexivity].
  unfold after.
  rewrite (consume_eq matchId transportId (Some c0) can consumed w m t Hm Ht)
    by discriminate.
  destruct (lookup2 (matchTransports w) m t) as [transport|] eqn:E;
    [|now left].
  destruct (first_producer m w) as [producer|]; [|now left].
  destruct (can (producer_id producer)); [|now left].
  destruct consumed as [c|e]; [|now left].
  right. exists m, t, transport, producer, c. split; [assumption|].
  now rewrite attach_returns.
Qed.




(** *** What a "transportclose" does *)

Lemma shrinks_gone_producer w w' m k :
  shrinks w w' -> lookup2 (matchProducers w) m k = None ->
  lookup2 (matchProducers w') m k = None.
Proof.
  intros (_ & _ & _ & P & _) H.
  destruct (lookup2 (matchProducers w') m k) as [p|] eqn:E; [|reflexivity].
  apply P in E. congruence.
Qed.

Lemma shrinks_gone_consumer w w' m k :
  shrinks w w' -> lookup2 (matchConsumers w) m k = None ->
  lookup2 (matchConsumers w') m k = None.
Proof.
  intros (_ & _ & _ & _ & _ & C) H.
  destruct (lookup2 (matchConsumers w') m k) as [c|] eqn:E; [|reflexivity].
  apply C in E. congruence.
Qed.

Lemma fold_listeners_removes_producer m k ls w :
  In (ProducerTransportClose m k) ls ->
  lookup2
    (matchProducers
       (fold_left
          (fun w' l =>
             if Emit_eqb (listens_to l) (transportclose (ProducerObj k))
             then run_listener l w' else w') ls w))
    m k = None.
Proof.
  revert w. induction ls as [|l ls IH]; intros w; cbn [In fold_left];
    [tauto|].
  intros [->|Hin]; [|now apply IH].
  apply (shrinks_gone_producer _ _ m k (fold_listeners_shrinks _ ls _)).
  replace (Emit_eqb (listens_to (ProducerTransportClose m k))
             (transportclose (ProducerObj k))) with true
    by (symmetry; now apply Emit_eqb_eq).
  apply (forget_gone producers_lawful).
Qed.

Lemma fold_listeners_removes_consumer m k ls w :
  In (ConsumerTransportClose m k) ls ->
  lookup2
    (matchConsumers
       (fold_left
          (fun w' l =>
             if Emit_eqb (listens_to l) (transportclose (ConsumerObj k))
             then run_listener l w' else w') ls w))
    m k = None.
Proof.
  revert w. induction ls as [|l ls IH]; intros w; cbn [In fold_left];
    [tauto|].
  intros [->|Hin]; [|now apply IH].
  apply (shrinks_gone_consumer _ _ m k (fold_listeners_shrinks _ ls _)).
  replace (Emit_eqb (listens_to (ConsumerTransportClose m k))
             (transportclose (ConsumerObj k))) with true
    by (symmetry; now apply Emit_eqb_eq).
  apply (forget_gone consumers_lawful).
Qed.






Lemma removed_producers_shrinks m p w : shrinks w (removed producers m p w).
Proof.
  destruct (removed_producers_frame m p w) as (HT & HC & HL).
  unfold shrinks. rewrite HT, HC, HL.
  split; [reflexivity|]. split; [reflexivity|].
  unfold removed. destruct (remove_in producers m p w) as [w'|] eqn:E.
  - split; [intros m'; apply (remove_in_session producers_lawful _ _ _ _ _ E)|].
    split; [|split; [reflexivity | auto]].
    intros m' k' x H.
    now apply (remove_in_kept producers_lawful _ _ _ _ _ _ _ E) in H.
  - split; [reflexivity|]. split; [auto|]. split; [reflexivity | auto].
Qed.







(** The produce handler in one go is its two parts with nothing in
    between. *)
Lemma produce_in_one_turn matchId transportId kind rtp produced w :
  produce matchId transportId kind rtp produced w
  = match produce_until_await matchId transportId kind rtp w with
    | Answered r => (Normal r, w)
    | Awaiting m transport => produce_from_await m transport produced w
    end.
Proof.
  unfold produce, produce_until_await.
  destruct (present matchId) as [m|]; [|reflexivity].
  destruct (present transportId) as [t|]; [|reflexivity].
  destruct (present kind); [|reflexivity].
  destruct rtp; [|reflexivity].
  unfold bind at 1, inspect.
  now destruct (lookup2 (matchTransports w) m t).
Qed.

(** With a request in between it is not: a produce request is suspended at
    its [await] with the transport it has found, the session is cleaned up
    meanwhile, and the handler then registers the producer in a session
    that has no transport.  The property below is about requests handled
    one at a time. *)
Example produce_overtaken_by_cleanup :
  produce_until_await Demo.m1 Demo.t1 Demo.video Demo.rtp Demo.with_transport
  = Awaiting "m1" Demo.transport1
  /\ answer (cleanupSession Demo.m1 quiet) Demo.with_transport
     = Normal success
  /\ ~ owners_registered
         (after (produce_from_await "m1" Demo.transport1
                   (Returns "producer-1"))
            (after (cleanupSession Demo.m1 quiet) Demo.with_transport)).
Proof.
  split; [reflexivity|]. split; [reflexivity|].
  intros (H & _).
  apply (H "m1" "producer-1"
           {| producer_id := "producer-1";
              producer_transport := "transport-1" |});
    reflexivity.
Qed.





(** In the run that ends in the state of the counterexample the engine
    does not notify the consumer, which its producer's close had already
    closed: that run is not one the property above speaks of. *)
Example run_without_notification :
  run [CreateTransport Demo.m1 (Returns Demo.transport1);
       Produce Demo.m1 Demo.t1 Demo.video Demo.rtp (Returns "producer-1");
       Consume Demo.m1 Demo.t1 Demo.caps (fun _ => true)
         (Returns Demo.consumed1);
       CloseProducer Demo.m1 (Some "producer-1") Demo.producer_closing;
       CloseTransport Demo.m1 Demo.t1 quiet] initial
  = None.
Proof. reflexivity. Qed.

(** The run in which the engine notifies ends with the session's three
    dictionaries empty. *)
Example session_run_end :
  option_map (fun w => (entries transports "m1" w,
                        entries producers "m1" w,
                        entries consumers "m1" w))
    (run Demo.session_run initial)
  = Some ([], [], []).
Proof. reflexivity. Qed.

(** ** The scenario of the specification, run on the handlers *)

(** Session "m1": a transport is created, a producer made on it, the status
    is then active with one producer; a consumer is attached to that
    producer; after the cleanup the status has count 0 and no activity
    flag. *)
Example scenario_m1 :
  answer (status_of "m1") Demo.with_producer
  = Normal (json (status_body (JBool true) 1))
  /\ answer (consume Demo.m1 Demo.t1 Demo.caps (fun _ => true)
               (Returns Demo.consumed1)) Demo.with_producer
     = Normal (json (JObj [("id", JStr "consumer-1");
                           ("producerId", JStr "producer-1");
                           ("kind", JStr "video");
                           ("rtpParameters", JBlob (blob "rtp"))]))
  /\ answer (cleanupSession Demo.m1 quiet) Demo.with_consumer = Normal success
  /\ option_map serialized
       (match answer (status_of "m1")
                (after (cleanupSession Demo.m1 quiet) Demo.with_consumer)
        with
        | Normal r => Some r
        | Thrown _ => None
        end)
     = Some (Some (JsonObj [("producerCount", JsonNum 0)])).
Proof. repeat split. Qed.

(* ================================================================== *)
(** * Further properties of the handlers *)

(** ** Identifiers that name no inherited member *)

Lemma present_some field k : present field = Some k -> field = Some k.
Proof.
  unfold present. destruct field as [s|]; [|discriminate].
  destruct (String.eqb s ""); [discriminate|]. congruence.
Qed.

Lemma property_ordinary {V : Type} k (o : Dict V) :
  ordinary k ->
  property k o = match JsObject.get k o with
                 | Some v => Own v
                 | None => Undefined
                 end.
Proof. unfold property, ordinary. now intros ->. Qed.

(** For a transport identifier that is not the name of an inherited
    member, the consume handler reads own properties only. *)
Lemma consume_route_ordinary matchId transportId caps can consumed w :
  plain transportId ->
  consume_route matchId transportId caps can consumed w
  = consume matchId transportId caps can consumed w.
Proof.
  intros Hp. unfold consume_route.
  destruct (present matchId) as [m|] eqn:Hm;
    [|unfold consume; now rewrite Hm].
  destruct (present transportId) as [t|] eqn:Ht;
    [|unfold consume; now rewrite Hm, Ht].
  destruct caps as [c|]; [|unfold consume; now rewrite Hm, Ht].
  rewrite bind_inspect.
  assert (Ho : ordinary t).
  { rewrite (present_some _ _ Ht) in Hp. unfold plain, plainb in Hp.
    unfold ordinary. now destruct (is_inherited t). }
  unfold property2.
  destruct (JsObject.get m (matchTransports w)) as [inner|] eqn:Em.
  - rewrite (property_ordinary t inner Ho).
    destruct (JsObject.get t inner) eqn:Et; [reflexivity|].
    unfold consume. rewrite Hm, Ht, bind_inspect.
    unfold lookup2. now rewrite Em, Et.
  - unfold consume. rewrite Hm, Ht, bind_inspect.
    unfold lookup2. now rewrite Em.
Qed.

(** For a session identifier that is not the name of an inherited member,
    the create-transport handler writes the transport registry and
    nothing else. *)
Lemma createTransport_route_ordinary matchId created p :
  plain matchId ->
  createTransport_route matchId created p
  = (answer (createTransport matchId created) (held p),
     {| held := after (createTransport matchId created) (held p);
        written := written p |}).
Proof.
  intros Hp. unfold createTransport_route.
  destruct (present matchId) as [m|] eqn:Hm.
  - pose proof (present_some _ _ Hm) as ->.
    assert (Ho : ordinary m).
    { unfold plain, plainb in Hp. unfold ordinary.
      now destruct (is_inherited m). }
    rewrite (property_ordinary m _ Ho).
    now destruct (JsObject.get m (matchTransports (held p))).
  - unfold answer, after, createTransport. rewrite Hm. cbn.
    now destruct p.
Qed.

(** ** Connecting a transport *)

(** X1. In a state the process reaches through requests that name no
    inherited member, and for identifiers that are not such names:
    [connectTransport] never changes the state.  It answers 400 when
    the session or transport id is missing, TransportNotFound when the
    transport is not registered under the session, 500 when the engine's
    [connect()] throws, and success when it returns: after a failed
    connect the transport is still registered and the call can be
    repeated. *)
Theorem connectTransport_cases :
  forall matchId transportId dtls connected w,
    pristine w -> plain matchId -> plain transportId ->
    after (connectTransport matchId transportId dtls connected) w = w
    /\ answer (connectTransport matchId transportId dtls connected) w
       = Normal
           match present matchId, present transportId with
           | Some m, Some t =>
               match lookup2 (matchTransports w) m t with
               | None => TransportNotFound
               | Some _ =>
                   match connected with
                   | Returns _ => success
                   | Throws _ => error 500 "Transport connection failed"
                   end
               end
           | _, _ => error 400 "Match ID and Transport ID are required"
           end.
Proof.
  intros matchId transportId dtls connected w _ _ _.
  unfold after, answer, connectTransport.
  destruct (present matchId) as [m|]; [|split; reflexivity].
  destruct (present transportId) as [t|]; [|split; reflexivity].
  rewrite bind_inspect.
  destruct (lookup2 (matchTransports w) m t); [|split; reflexivity].
  destruct connected as [[]|e]; split; reflexivity.
Qed.

Lemma connectTransport_cases_witness :
  pristine Demo.with_transport
  /\ answer (connectTransport Demo.m1 Demo.t1 (Some (blob "dtls"))
               (Throws "connect failed")) Demo.with_transport
     = Normal (error 500 "Transport connection failed")
  /\ answer (connectTransport Demo.m1 (Some "transport-2")
               (Some (blob "dtls")) (Returns tt)) Demo.with_transport
     = Normal TransportNotFound.
Proof.
  assert (H : pristine Demo.with_transport)
    by (exists Demo.to_transport; split; reflexivity).
  split; [exact H|]. split.
  - exact (proj2 (connectTransport_cases Demo.m1 Demo.t1 (Some (blob "dtls"))
                    (Throws "connect failed") Demo.with_transport H
                    eq_refl eq_refl)).
  - exact (proj2 (connectTransport_cases Demo.m1 (Some "transport-2")
                    (Some (blob "dtls")) (Returns tt) Demo.with_transport H
                    eq_refl eq_refl)).
Defined.

(** ** Producing *)

Lemma produce_eq matchId transportId kind rtp produced w m t :
  present matchId = Some m -> present transportId = Some t ->
  present kind <> None -> rtp <> None ->
  produce matchId transportId kind rtp produced w
  = match lookup2 (matchTransports w) m t with
    | None => (Normal TransportNotFound, w)
    | Some transport =>
        match produced with
        | Returns id =>
            (Normal (json (JObj [("id", JStr id)])),
             add_listener (ProducerTransportClose m id)
               (put producers m id
                  {| producer_id := id;
                     producer_transport := transport_id transport |} w))
        | Throws e => (Normal (error_details 500 "Production failed" e), w)
        end
    end.
Proof.
  intros Hm Ht Hk Hr. unfold produce. rewrite Hm, Ht.
  destruct (present kind); [|congruence].
  destruct rtp; [|congruence].
  rewrite bind_inspect.
  destruct (lookup2 (matchTransports w) m t) as [transport|]; [|reflexivity].
  destruct produced as [id|e]; [|reflexivity].
  unfold try_catch, await. rewrite bind_ret.
  now rewrite (ensure_assign_then producers_lawful).
Qed.

Lemma produce_missing matchId transportId kind rtp produced w :
  present matchId = None \/ present transportId = None
  \/ present kind = None \/ rtp = None ->
  produce matchId transportId kind rtp produced w
  = (Normal (error 400 "Missing required fields"), w).
Proof.
  unfold produce. intros H.
  destruct (present matchId); [|reflexivity].
  destruct (present transportId); [|reflexivity].
  destruct (present kind); [|reflexivity].
  destruct rtp; [|reflexivity].
  destruct H as [H|[H|[H|H]]]; discriminate.
Qed.

(** X2. [produce] checks in this order, in a state the process reaches
    through requests that name no inherited member and for identifiers
    that are not such names: a missing field is a 400, a
    transport not registered under the session is TransportNotFound, an
    engine [produce()] that throws is a 500 carrying the engine's message;
    in all three the state is untouched.  When the engine returns a
    producer, the answer is its id and the producer is registered under
    that id in the session, made on the transport found.  Whenever
    [produce] fails, whatever the request, the state is what it was. *)
Theorem produce_cases :
  (forall matchId transportId kind rtp produced w,
      present matchId = None \/ present transportId = None
      \/ present kind = None \/ rtp = None ->
      produce matchId transportId kind rtp produced w
      = (Normal (error 400 "Missing required fields"), w))
  /\ (forall matchId transportId kind rtp produced w m t,
      pristine w ->
      present matchId = Some m -> present transportId = Some t ->
      ordinary m -> ordinary t ->
      present kind <> None -> rtp <> None ->
      (lookup2 (matchTransports w) m t = None ->
       produce matchId transportId kind rtp produced w
       = (Normal TransportNotFound, w))
      /\ (forall e,
          lookup2 (matchTransports w) m t <> None -> produced = Throws e ->
          produce matchId transportId kind rtp produced w
          = (Normal (error_details 500 "Production failed" e), w))
      /\ (forall transport id,
          lookup2 (matchTransports w) m t = Some transport ->
          produced = Returns id -> ordinary id ->
          answer (produce matchId transportId kind rtp produced) w
          = Normal (json (JObj [("id", JStr id)]))
          /\ lookup2
               (matchProducers
                  (after (produce matchId transportId kind rtp produced) w))
               m id
             = Some {| producer_id := id;
                       producer_transport := transport_id transport |}))
  /\ (forall matchId transportId kind rtp produced w,
      pristine w -> plain matchId -> plain transportId ->
      failed (answer (produce matchId transportId kind rtp produced) w) ->
      after (produce matchId transportId kind rtp produced) w = w).
Proof.
  split; [exact produce_missing|]. split.
  - intros matchId transportId kind rtp produced w m t _ Hm Ht _ _ Hk Hr.
    pose proof (produce_eq matchId transportId kind rtp produced w m t
                  Hm Ht Hk Hr) as E.
    split; [|split].
    + intros H. now rewrite E, H.
    + intros e H ->. rewrite E.
      now destruct (lookup2 (matchTransports w) m t).
    + intros transport id H -> _. unfold answer, after. rewrite E, H.
      split; [reflexivity|]. cbn [snd].
      change (matchProducers (add_listener ?l ?x)) with (read producers x).
      apply (lookup2_put_same producers_lawful).
  - intros matchId transportId kind rtp produced w _ _ _.
    destruct (present matchId) as [m|] eqn:Hm;
      [|unfold after; rewrite produce_missing; auto].
    destruct (present transportId) as [t|] eqn:Ht;
      [|unfold after; rewrite produce_missing; auto].
    destruct (present kind) as [k|] eqn:Hk;
      [|unfold after; rewrite produce_missing; auto].
    destruct rtp as [r|];
      [|unfold after; rewrite produce_missing; auto].
    unfold after, answer.
    rewrite (produce_eq matchId transportId kind (Some r) produced w m t
               Hm Ht) by (rewrite ?Hk; discriminate).
    destruct (lookup2 (matchTransports w) m t); [|reflexivity].
    destruct produced as [id|e]; [|reflexivity].
    cbn. congruence.
Qed.

Lemma produce_cases_witness :
  pristine Demo.with_transport
  /\ lookup2
       (matchProducers
          (after (produce Demo.m1 Demo.t1 Demo.video Demo.rtp
                    (Returns "producer-9")) Demo.with_transport))
       "m1" "producer-9"
     = Some {| producer_id := "producer-9";
               producer_transport := "transport-1" |}.
Proof.
  assert (H0 : pristine Demo.with_transport)
    by (exists Demo.to_transport; split; reflexivity).
  split; [exact H0|].
  destruct produce_cases as (_ & H & _).
  destruct (H Demo.m1 Demo.t1 Demo.video Demo.rtp (Returns "producer-9")
              Demo.with_transport "m1" "transport-1" H0 eq_refl eq_refl
              eq_refl eq_refl)
    as (_ & _ & H'); [discriminate | discriminate |].
  apply (H' Demo.transport1 "producer-9"); reflexivity.
Defined.

Lemma size_set {V : Type} k (v : V) (o : Dict V) :
  JsObject.size (JsObject.set k v o)
  = match JsObject.get k o with
    | Some _ => JsObject.size o
    | None => S (JsObject.size o)
    end.
Proof.
  unfold JsObject.size. induction o as [|[k' v'] o IH]; cbn; [reflexivity|].
  destruct (String.eqb k k'); cbn; [reflexivity|].
  rewrite IH. now destruct (JsObject.get k o).
Qed.




(** ** What closing can do to the state *)

(** Everything the close handlers and the listeners do to the state is
    made of seven steps: a listener forgetting a producer or a consumer,
    a handler deleting one producer or one transport, and the cleanup
    deleting a session's dictionary in each registry.  A property kept by
    each of them is kept by every close handler, whatever the engine
    emits, returns or throws. *)
Section ClosingPreserves.
Variable P : World -> Prop.
Hypothesis forget_producer : forall m k w, P w -> P (forget producers m k w).
Hypothesis forget_consumer : forall m k w, P w -> P (forget consumers m k w).
Hypothesis removed_producer :
  forall m k w, P w -> P (removed producers m k w).
Hypothesis removed_transport :
  forall m k w, P w -> P (removed transports m k w).
Hypothesis dropped_producers : forall m w, P w -> P (dropped producers m w).
Hypothesis dropped_consumers : forall m w, P w -> P (dropped consumers m w).
Hypothesis dropped_transports : forall m w, P w -> P (dropped transports m w).

Lemma emit_preserves e w : P w -> P (emit e w).
Proof.
  unfold emit. generalize (listeners w) as ls. intros ls. revert w.
  induction ls as [|l ls IH]; intros w Hw; cbn; [assumption|].
  apply IH. destruct (Emit_eqb (listens_to l) e); [|assumption].
  destruct l; cbn; auto.
Qed.

Lemma emit_all_preserves es w : P w -> P (emit_all es w).
Proof.
  revert w. induction es as [|e es IH]; intros w Hw; cbn; [assumption|].
  apply IH. now apply emit_preserves.
Qed.

Lemma forEach_close_preserves {A : Type} (obj : A -> Target) closing l w :
  P w -> P (after (forEach l (fun x => close (closing (obj x)))) w).
Proof.
  revert w. induction l as [|x l IH]; intros w Hw; cbn; [assumption|].
  unfold after, bind. rewrite close_eq.
  destruct (outcome (closing (obj x))) as [[]|e]; cbn.
  - apply IH. now apply emit_all_preserves.
  - now apply emit_all_preserves.
Qed.

Lemma close_all_preserves {V : Type} (reg : Registry V) (obj : V -> Target)
    m closing w :
  (forall w0, P w0 -> P (dropped reg m w0)) ->
  P w -> P (after (close_all reg obj m closing) w).
Proof.
  intros Hdrop Hw. unfold after at 1. rewrite close_all_eq.
  destruct (JsObject.get m (read reg w)) as [o|]; [|assumption].
  cbv zeta.
  pose proof (forEach_close_preserves obj closing (JsObject.values o) w Hw)
    as H.
  destruct (answer _ w); cbn [snd]; auto.
Qed.

Lemma closeProducer_preserves matchId producerId closing w :
  P w -> P (after (closeProducer matchId producerId closing) w).
Proof.
  intros Hw.
  destruct (present matchId) as [m|] eqn:Hm;
    [|unfold after, closeProducer; rewrite Hm; assumption].
  destruct (present producerId) as [p|] eqn:Hp;
    [|unfold after, closeProducer; rewrite Hm, Hp; assumption].
  unfold after.
  rewrite (closeProducer_eq matchId producerId closing w m p Hm Hp).
  destruct (lookup2 (matchProducers w) m p) as [producer|]; [|assumption].
  cbv zeta.
  destruct (outcome (closing (ProducerObj (producer_id producer))))
    as [[]|e]; cbn [snd].
  - now apply removed_producer, emit_all_preserves.
  - now apply emit_all_preserves.
Qed.

Lemma closeTransport_preserves matchId transportId closing w :
  P w -> P (after (closeTransport matchId transportId closing) w).
Proof.
  intros Hw.
  destruct (present matchId) as [m|] eqn:Hm;
    [|unfold after, closeTransport; rewrite Hm; assumption].
  destruct (present transportId) as [t|] eqn:Ht;
    [|unfold after, closeTransport; rewrite Hm, Ht; assumption].
  unfold after.
  rewrite (closeTransport_eq matchId transportId closing w m t Hm Ht).
  destruct (lookup2 (matchTransports w) m t) as [transport|]; [|assumption].
  cbv zeta.
  destruct (outcome (closing (TransportObj (transport_id transport))))
    as [[]|e]; cbn [snd].
  - now apply removed_transport, emit_all_preserves.
  - now apply emit_all_preserves.
Qed.

Lemma cleanupSession_preserves matchId closing w :
  P w -> P (after (cleanupSession matchId closing) w).
Proof.
  intros Hw.
  destruct (present matchId) as [m|] eqn:Hm;
    [|unfold after, cleanupSession; rewrite Hm; assumption].
  unfold after. rewrite (cleanupSession_eq matchId closing w m Hm).
  unfold bind.
  pose proof (close_all_preserves producers
                (fun p => ProducerObj (producer_id p)) m closing w
                (dropped_producers m) Hw) as H1.
  unfold after in H1.
  destruct (close_all producers _ m closing w) as [[[]|e1] w1];
    cbn [snd] in *; [|assumption].
  pose proof (close_all_preserves consumers
                (fun c => ConsumerObj (consumer_id c)) m closing w1
                (dropped_consumers m) H1) as H2.
  unfold after in H2.
  destruct (close_all consumers _ m closing w1) as [[[]|e2] w2];
    cbn [snd] in *; [|assumption].
  pose proof (close_all_preserves transports
                (fun t => TransportObj (transport_id t)) m closing w2
                (dropped_transports m) H2) as H3.
  unfold after in H3.
  destruct (close_all transports _ m closing w2) as [[[]|e3] w3];
    cbn [snd] in *; assumption.
Qed.

End ClosingPreserves.

(** ** The two listeners *)

Lemma forget_lookup {V : Type} {reg : Registry V} (L : Lawful reg)
    m k w m' k' :
  m' <> m \/ k' <> k ->
  lookup2 (read reg (forget reg m k w)) m' k' = lookup2 (read reg w) m' k'.
Proof.
  intros Hne.
  destruct (@forget_cases V reg m k w) as [[_ ->]|[_ H]]; [reflexivity|].
  rewrite (remove_in_lookup L m k w _ m' k' H).
  destruct (String.eqb_spec m' m); destruct (String.eqb_spec k' k); cbn;
    try reflexivity.
  destruct Hne; contradiction.
Qed.

Lemma fold_listeners_producer k ls w m' k' :
  k' <> k ->
  lookup2
    (matchProducers
       (fold_left
          (fun w' l =>
             if Emit_eqb (listens_to l) (transportclose (ProducerObj k))
             then run_listener l w' else w') ls w)) m' k'
  = lookup2 (matchProducers w) m' k'.
Proof.
  intros Hk. revert w. induction ls as [|l ls IH]; intros w; cbn;
    [reflexivity|].
  rewrite IH.
  destruct (Emit_eqb (listens_to l) (transportclose (ProducerObj k))) eqn:E;
    [|reflexivity].
  apply Emit_eqb_eq in E. destruct l as [m id|m id]; cbn in E;
    [|discriminate].
  injection E as ->. cbn.
  apply (forget_lookup producers_lawful). now right.
Qed.

Lemma fold_listeners_consumer k ls w m' k' :
  k' <> k ->
  lookup2
    (matchConsumers
       (fold_left
          (fun w' l =>
             if Emit_eqb (listens_to l) (transportclose (ConsumerObj k))
             then run_listener l w' else w') ls w)) m' k'
  = lookup2 (matchConsumers w) m' k'.
Proof.
  intros Hk. revert w. induction ls as [|l ls IH]; intros w; cbn;
    [reflexivity|].
  rewrite IH.
  destruct (Emit_eqb (listens_to l) (transportclose (ConsumerObj k))) eqn:E;
    [|reflexivity].
  apply Emit_eqb_eq in E. destruct l as [m id|m id]; cbn in E;
    [discriminate|].
  injection E as ->. cbn.
  apply (forget_lookup consumers_lawful). now right.
Qed.

Lemma emit_keeps_producers e w :
  (forall p, e <> transportclose (ProducerObj p)) ->
  matchProducers (emit e w) = matchProducers w.
Proof.
  intros He. unfold emit. generalize (listeners w) as ls.
  intros ls. revert w. induction ls as [|l ls IH]; intros w; cbn; auto.
  rewrite IH. destruct (Emit_eqb (listens_to l) e) eqn:E; [|reflexivity].
  apply Emit_eqb_eq in E. destruct l as [m id|m id]; cbn in *.
  - now destruct (He id).
  - apply forget_consumers_frame.
Qed.

Lemma fold_listeners_other_session {V : Type} {reg : Registry V}
    (L : Lawful reg) (mk : string -> string -> Listener) e ls w m' k' :
  (forall l, Emit_eqb (listens_to l) e = true ->
             (exists m k, l = mk m k /\ run_listener l = forget reg m k)
             \/ (forall x, read reg (run_listener l x) = read reg x)) ->
  ~ In (mk m' k') ls ->
  lookup2
    (read reg
       (fold_left
          (fun w' l => if Emit_eqb (listens_to l) e then run_listener l w'
                       else w') ls w)) m' k'
  = lookup2 (read reg w) m' k'.
Proof.
  intros Hmk. revert w. induction ls as [|l ls IH]; intros w Hnot; cbn;
    [reflexivity|].
  rewrite IH by (intros Hin; apply Hnot; now right).
  destruct (Emit_eqb (listens_to l) e) eqn:E; [|reflexivity].
  destruct (Hmk l E) as [(m & k & -> & ->)|H]; [|now rewrite H].
  apply (forget_lookup L).
  destruct (String.eqb_spec m' m) as [->|]; [|now left].
  destruct (String.eqb_spec k' k) as [->|]; [|now right].
  exfalso. apply Hnot. now left.
Qed.

(** X4. What an engine event does to the registries, in a state the
    process reaches through requests that name no inherited member and in
    which the engine has handed out each id once.  No event changes the
    transport registry or the listeners.  An event other than
    "transportclose", or one on a transport, changes nothing at all.
    "transportclose" on the producer with id [k] leaves the consumers and
    every producer entry with another id as they were; it removes the
    entry [k] from the session its listener was attached for, and leaves
    the entries of every other session as they were.  The same holds for a
    consumer, with the roles exchanged. *)
Theorem engine_event_effect :
  forall e w,
    pristine w -> ids_unique w ->
    matchTransports (emit e w) = matchTransports w
    /\ listeners (emit e w) = listeners w
    /\ (emit_event e <> "transportclose"
        \/ (exists id, emit_target e = TransportObj id) ->
        emit e w = w)
    /\ (forall k,
          e = transportclose (ProducerObj k) ->
          matchConsumers (emit e w) = matchConsumers w
          /\ (forall m k', k' <> k ->
                lookup2 (matchProducers (emit e w)) m k'
                = lookup2 (matchProducers w) m k')
          /\ (forall m, In (ProducerTransportClose m k) (listeners w) ->
                lookup2 (matchProducers (emit e w)) m k = None
                /\ forall m' k', m' <> m ->
                     lookup2 (matchProducers (emit e w)) m' k'
                     = lookup2 (matchProducers w) m' k'))
    /\ (forall k,
          e = transportclose (ConsumerObj k) ->
          matchProducers (emit e w) = matchProducers w
          /\ (forall m k', k' <> k ->
                lookup2 (matchConsumers (emit e w)) m k'
                = lookup2 (matchConsumers w) m k')
          /\ (forall m, In (ConsumerTransportClose m k) (listeners w) ->
                lookup2 (matchConsumers (emit e w)) m k = None
                /\ forall m' k', m' <> m ->
                     lookup2 (matchConsumers (emit e w)) m' k'
                     = lookup2 (matchConsumers w) m' k')).
Proof.
  intros e w _ (UP & UC).
  destruct (emit_shrinks e w) as (HT & HL & _).
  split; [exact HT|]. split; [exact HL|].
  split; [apply emit_unheard|]. split.
  - intros k ->. split; [|split].
    + apply emit_keeps_consumers. intros c. discriminate.
    + intros m k' Hk. now apply fold_listeners_producer.
    + intros m Hin. split; [now apply fold_listeners_removes_producer|].
      intros m' k' Hne.
      destruct (String.eqb_spec k' k) as [->|Hk];
        [|now apply fold_listeners_producer].
      unfold emit. change matchProducers with (read producers).
      apply (fold_listeners_other_session producers_lawful
               ProducerTransportClose).
      * intros l E. apply Emit_eqb_eq in E.
        destruct l as [m0 id|m0 id]; cbn in E; [|discriminate].
        left. now exists m0, id.
      * intros Hin'. apply Hne. exact (UP k m' m Hin' Hin).
  - intros k ->. split; [|split].
    + apply emit_keeps_producers. intros c. discriminate.
    + intros m k' Hk. now apply fold_listeners_consumer.
    + intros m Hin. split; [now apply fold_listeners_removes_consumer|].
      intros m' k' Hne.
      destruct (String.eqb_spec k' k) as [->|Hk];
        [|now apply fold_listeners_consumer].
      unfold emit. change matchConsumers with (read consumers).
      apply (fold_listeners_other_session consumers_lawful
               ConsumerTransportClose).
      * intros l E. apply Emit_eqb_eq in E.
        destruct l as [m0 id|m0 id]; cbn in E; [discriminate|].
        left. now exists m0, id.
      * intros Hin'. apply Hne. exact (UC k m' m Hin' Hin).
Qed.

Lemma engine_event_effect_witness :
  pristine Demo.with_two_producers
  /\ ids_unique Demo.with_two_producers
  /\ lookup2
       (matchProducers
          (emit (transportclose (ProducerObj "producer-1"))
             Demo.with_two_producers)) "m1" "producer-1" = None
  /\ lookup2
       (matchProducers
          (emit (transportclose (ProducerObj "producer-1"))
             Demo.with_two_producers)) "m1" "producer-2"
     = lookup2 (matchProducers Demo.with_two_producers) "m1" "producer-2".
Proof.
  assert (H0 : pristine Demo.with_two_producers)
    by (exists Demo.to_two_producers; split; reflexivity).
  assert (H1 : ids_unique Demo.with_two_producers).
  { split; intros k m m' Hm Hm'; vm_compute in Hm, Hm';
      intuition congruence. }
  split; [exact H0|]. split; [exact H1|].
  destruct (engine_event_effect (transportclose (ProducerObj "producer-1"))
              Demo.with_two_producers H0 H1) as (_ & _ & _ & H & _).
  destruct (H "producer-1" eq_refl) as (_ & Hother & Hgone).
  split.
  - apply (Hgone "m1"). cbn. auto.
  - apply Hother. discriminate.
Defined.

(** ** Closing never registers anything *)

Lemma removed_transports_fades m t w : fades w (removed transports m t w).
Proof.
  unfold removed. destruct (remove_in transports m t w) as [w'|] eqn:E;
    [|apply fades_refl].
  assert (HP : matchProducers w' = matchProducers w
               /\ matchConsumers w' = matchConsumers w
               /\ listeners w' = listeners w).
  { destruct (remove_in_read m t w w' E) as (inner & _ & ->). auto. }
  destruct HP as (HP & HC & HL).
  unfold fades. rewrite HP, HC, HL. repeat split; auto.
  - intros m' H. now apply (remove_in_session transports_lawful m t w w' m' E).
  - intros m' k x H.
    now apply (remove_in_kept transports_lawful m t w w' m' k x E) in H.
Qed.

(** X5. The close handlers and the engine's events only take away: after
    [closeProducer], [closeTransport], [cleanupSession] or an event,
    whatever the request and whatever the engine emits, returns or throws,
    every entry of every registry was already there before with the same
    handle, no session has gained a dictionary, and the listeners are the
    same. *)
Theorem closing_never_adds :
  forall w,
    (forall matchId producerId closing,
        fades w (after (closeProducer matchId producerId closing) w))
    /\ (forall matchId transportId closing,
        fades w (after (closeTransport matchId transportId closing) w))
    /\ (forall matchId closing,
        fades w (after (cleanupSession matchId closing) w))
    /\ (forall e, fades w (emit e w)).
Proof.
  intros w.
  assert (Hfp : forall m k w', fades w w' -> fades w (forget producers m k w')).
  { intros m k w' H. eapply fades_trans; [exact H|].
    apply shrinks_fades, forget_producers_shrinks. }
  assert (Hfc : forall m k w', fades w w' -> fades w (forget consumers m k w')).
  { intros m k w' H. eapply fades_trans; [exact H|].
    apply shrinks_fades, forget_consumers_shrinks. }
  assert (Hrp : forall m k w', fades w w' -> fades w (removed producers m k w')).
  { intros m k w' H. eapply fades_trans; [exact H|].
    apply shrinks_fades, removed_producers_shrinks. }
  assert (Hrt : forall m k w', fades w w' -> fades w (removed transports m k w')).
  { intros m k w' H. eapply fades_trans; [exact H|].
    apply removed_transports_fades. }
  assert (Hdp : forall m w', fades w w' -> fades w (dropped producers m w')).
  { intros m w' H. eapply fades_trans; [exact H|].
    apply dropped_producers_fades. }
  assert (Hdc : forall m w', fades w w' -> fades w (dropped consumers m w')).
  { intros m w' H. eapply fades_trans; [exact H|].
    apply dropped_consumers_fades. }
  assert (Hdt : forall m w', fades w w' -> fades w (dropped transports m w')).
  { intros m w' H. eapply fades_trans; [exact H|].
    apply dropped_transports_fades. }
  split; [|split; [|split]].
  - intros matchId producerId closing.
    apply (closeProducer_preserves (fades w) Hfp Hfc Hrp); apply fades_refl.
  - intros matchId transportId closing.
    apply (closeTransport_preserves (fades w) Hfp Hfc Hrt); apply fades_refl.
  - intros matchId closing.
    apply (cleanupSession_preserves (fades w) Hfp Hfc Hdp Hdc Hdt);
      apply fades_refl.
  - intros e. apply shrinks_fades, emit_shrinks.
Qed.

(** ** Which registry a handler touches *)

Lemma put_transports_frame m k t w :
  matchProducers (put transports m k t w) = matchProducers w
  /\ matchConsumers (put transports m k t w) = matchConsumers w
  /\ listeners (put transports m k t w) = listeners w.
Proof. repeat split. Qed.

Lemma consume_missing matchId transportId caps can consumed w :
  present matchId = None \/ present transportId = None \/ caps = None ->
  consume matchId transportId caps can consumed w
  = (Normal (error 400 "Missing required fields"), w).
Proof.
  unfold consume. intros H.
  destruct (present matchId); [|reflexivity].
  destruct (present transportId); [|reflexivity].
  destruct caps; [|reflexivity].
  destruct H as [H|[H|H]]; discriminate.
Qed.

(** X6. In a state the process reaches through requests that name no
    inherited member, and for a request and an engine reply that name
    none, each creating handler writes one registry, and one entry of it.
    [createTransport] leaves producers, consumers and listeners as they
    were and changes no transport entry other than the one it files;
    [produce] leaves transports and consumers as they were and changes no
    producer entry other than the one it files; [consume] leaves
    transports and producers as they were and changes no consumer entry
    other than the one it files.  In particular a second transport of a
    session never displaces the first. *)
Theorem creating_handlers_frame :
  (forall matchId created w,
      pristine w -> plain matchId -> plain_reply transport_id created = true ->
      matchProducers (after (createTransport matchId created) w)
      = matchProducers w
      /\ matchConsumers (after (createTransport matchId created) w)
         = matchConsumers w
      /\ listeners (after (createTransport matchId created) w) = listeners w
      /\ (forall m k,
            (forall t, created = Returns t ->
                       present matchId = Some m -> k <> transport_id t) ->
            lookup2 (matchTransports (after (createTransport matchId created) w))
              m k
            = lookup2 (matchTransports w) m k))
  /\ (forall matchId transportId kind rtp produced w,
      pristine w -> plain matchId -> plain transportId ->
      plain_reply (fun id => id) produced = true ->
      matchTransports (after (produce matchId transportId kind rtp produced) w)
      = matchTransports w
      /\ matchConsumers
           (after (produce matchId transportId kind rtp produced) w)
         = matchConsumers w
      /\ (forall m k,
            (forall id, produced = Returns id ->
                        present matchId = Some m -> k <> id) ->
            lookup2
              (matchProducers
                 (after (produce matchId transportId kind rtp produced) w))
              m k
            = lookup2 (matchProducers w) m k))
  /\ (forall matchId transportId caps can consumed w,
      pristine w -> plain matchId -> plain transportId ->
      plain_reply consumed_id consumed = true ->
      matchTransports (after (consume matchId transportId caps can consumed) w)
      = matchTransports w
      /\ matchProducers
           (after (consume matchId transportId caps can consumed) w)
         = matchProducers w
      /\ (forall m k,
            (forall c, consumed = Returns c ->
                       present matchId = Some m -> k <> consumed_id c) ->
            lookup2
              (matchConsumers
                 (after (consume matchId transportId caps can consumed) w))
              m k
            = lookup2 (matchConsumers w) m k)).
Proof.
  split; [|split].
  - intros matchId created w _ _ _. rewrite createTransport_after.
    destruct (present matchId) as [m0|] eqn:Hm; [|repeat split].
    destruct created as [t|e]; [|repeat split].
    split; [reflexivity|]. split; [reflexivity|]. split; [reflexivity|].
    intros m k H. change matchTransports with (read transports).
    apply (lookup2_put_other transports_lawful).
    destruct (String.eqb_spec m m0) as [->|Hne]; [right | now left].
    now apply (H t).
  - intros matchId transportId kind rtp produced w _ _ _ _.
    destruct (present matchId) as [m0|] eqn:Hm;
      [|unfold after; rewrite produce_missing by auto; repeat split].
    destruct (present transportId) as [t0|] eqn:Ht;
      [|unfold after; rewrite produce_missing by auto; repeat split].
    destruct (present kind) as [k0|] eqn:Hk;
      [|unfold after; rewrite produce_missing by auto; repeat split].
    destruct rtp as [r|];
      [|unfold after; rewrite produce_missing by auto; repeat split].
    unfold after.
    rewrite (produce_eq matchId transportId kind (Some r) produced w m0 t0
               Hm Ht) by (rewrite ?Hk; discriminate).
    destruct (lookup2 (matchTransports w) m0 t0) as [transport|];
      [|repeat split].
    destruct produced as [id|e]; [|repeat split].
    cbn [snd]. split; [reflexivity|]. split; [reflexivity|].
    intros m k H.
    change (matchProducers (add_listener ?l ?x)) with (read producers x).
    apply (lookup2_put_other producers_lawful).
    destruct (String.eqb_spec m m0) as [->|Hne]; [right | now left].
    now apply (H id).
  - intros matchId transportId caps can consumed w _ _ _ _.
    destruct (present matchId) as [m0|] eqn:Hm;
      [|unfold after; rewrite consume_missing by auto; repeat split].
    destruct (present transportId) as [t0|] eqn:Ht;
      [|unfold after; rewrite consume_missing by auto; repeat split].
    destruct caps as [c0|];
      [|unfold after; rewrite consume_missing by auto; repeat split].
    unfold after.
    rewrite (consume_eq matchId transportId (Some c0) can consumed w m0 t0
               Hm Ht) by discriminate.
    destruct (lookup2 (matchTransports w) m0 t0) as [transport|];
      [|repeat split].
    destruct (first_producer m0 w) as [producer|]; [|repeat split].
    destruct (can (producer_id producer)); [|repeat split].
    destruct consumed as [c|e]; [|repeat split].
    rewrite attach_returns. cbn [snd].
    split; [reflexivity|]. split; [reflexivity|].
    intros m k H.
    change (matchConsumers (add_listener ?l ?x)) with (read consumers x).
    apply (lookup2_put_other consumers_lawful).
    destruct (String.eqb_spec m m0) as [->|Hne]; [right | now left].
    now apply (H c).
Qed.

Lemma creating_handlers_frame_witness :
  pristine Demo.with_transport
  /\ lookup2
       (matchTransports
          (after (createTransport Demo.m1
                    (Returns {| transport_id := "transport-2";
                                iceParameters := blob "ice";
                                iceCandidates := blob "candidates";
                                dtlsParameters := blob "dtls" |}))
             Demo.with_transport)) "m1" "transport-1"
     = lookup2 (matchTransports Demo.with_transport) "m1" "transport-1".
Proof.
  assert (H0 : pristine Demo.with_transport)
    by (exists Demo.to_transport; split; reflexivity).
  split; [exact H0|].
  destruct creating_handlers_frame as (H & _).
  destruct (H Demo.m1
              (Returns {| transport_id := "transport-2";
                          iceParameters := blob "ice";
                          iceCandidates := blob "candidates";
                          dtlsParameters := blob "dtls" |})
              Demo.with_transport H0 eq_refl eq_refl) as (_ & _ & _ & H').
  apply H'. intros t [= <-] _. discriminate.
Defined.

(** X7. In a state the process reaches through requests that name no
    inherited member, and for identifiers that are not such names, the
    close handlers delete in their own registry only.
    [closeProducer] never changes the transport registry, whatever the
    engine emits.  [closeTransport] has no cascade: when the engine emits
    no "transportclose" during the call, the producer and consumer
    registries after it are the ones before it, whether the close returned
    or threw. *)
Theorem close_handlers_frame :
  (forall matchId producerId closing w,
      pristine w -> plain matchId -> plain producerId ->
      matchTransports (after (closeProducer matchId producerId closing) w)
      = matchTransports w)
  /\ (forall matchId transportId closing w,
      pristine w -> plain matchId -> plain transportId ->
      (forall x e, In e (emitted (closing x)) ->
                   emit_event e <> "transportclose") ->
      matchProducers (after (closeTransport matchId transportId closing) w)
      = matchProducers w
      /\ matchConsumers (after (closeTransport matchId transportId closing) w)
         = matchConsumers w).
Proof.
  split.
  - intros matchId producerId closing w _ _ _.
    apply (closeProducer_preserves
             (fun w' => matchTransports w' = matchTransports w));
      [| | |reflexivity].
    + intros m k w' H.
      destruct (forget_producers_frame m k w') as (-> & _). exact H.
    + intros m k w' H.
      destruct (forget_consumers_frame m k w') as (-> & _). exact H.
    + intros m k w' H.
      destruct (removed_producers_frame m k w') as (-> & _). exact H.
  - intros matchId transportId closing w _ _ _ Hq.
    destruct (present matchId) as [m|] eqn:Hm;
      [|unfold after, closeTransport; rewrite Hm; split; reflexivity].
    destruct (present transportId) as [t|] eqn:Ht;
      [|unfold after, closeTransport; rewrite Hm, Ht; split; reflexivity].
    unfold after.
    rewrite (closeTransport_eq matchId transportId closing w m t Hm Ht).
    destruct (lookup2 (matchTransports w) m t) as [transport|];
      [|split; reflexivity].
    cbv zeta. rewrite (emit_all_unheard _ w (Hq _)).
    destruct (outcome (closing (TransportObj (transport_id transport))))
      as [[]|e]; cbn [snd]; [|split; reflexivity].
    destruct (removed_transports_frame m t w) as (-> & -> & _).
    split; reflexivity.
Qed.

Lemma close_handlers_frame_witness :
  pristine Demo.with_consumer
  /\ matchProducers
       (after (closeTransport Demo.m1 Demo.t1 quiet) Demo.with_consumer)
     = matchProducers Demo.with_consumer
  /\ matchConsumers
       (after (closeTransport Demo.m1 Demo.t1 quiet) Demo.with_consumer)
     = matchConsumers Demo.with_consumer.
Proof.
  assert (H0 : pristine Demo.with_consumer)
    by (exists Demo.to_consumer; split; reflexivity).
  split; [exact H0|].
  destruct close_handlers_frame as (_ & H).
  apply (H Demo.m1 Demo.t1 quiet Demo.with_consumer H0 eq_refl eq_refl).
  intros x e [].
Defined.

(** ** One session at a time *)

Section OtherSession.
Context {V : Type} {reg : Registry V} (L : Lawful reg).

Lemma get_put_other m k (v : V) w m' :
  m' <> m ->
  JsObject.get m' (read reg (put reg m k v w)) = JsObject.get m' (read reg w).
Proof.
  intros H. unfold put. rewrite (read_write L). now apply get_set_other.
Qed.

Lemma get_removed_other m k w m' :
  m' <> m ->
  JsObject.get m' (read reg (removed reg m k w))
  = JsObject.get m' (read reg w).
Proof.
  intros H. unfold removed.
  destruct (remove_in reg m k w) as [w'|] eqn:E; [|reflexivity].
  destruct (remove_in_read m k w w' E) as (inner & _ & ->).
  rewrite (read_write L). now apply get_set_other.
Qed.

Lemma get_dropped_other m w m' :
  m' <> m ->
  JsObject.get m' (read reg (dropped reg m w)) = JsObject.get m' (read reg w).
Proof.
  intros H. unfold dropped. rewrite (read_write L).
  now apply get_delete_other.
Qed.

End OtherSession.

Lemma forEach_close_unheard {A : Type} (obj : A -> Target) closing l w :
  unheard closing ->
  after (forEach l (fun x => close (closing (obj x)))) w = w.
Proof.
  intros Hq. induction l as [|x l IH]; cbn; [reflexivity|].
  unfold after, bind in *. rewrite close_eq.
  rewrite (emit_all_unheard _ w (Hq _)).
  destruct (outcome (closing (obj x))) as [[]|e]; cbn; [exact IH|reflexivity].
Qed.

Lemma close_all_unheard {V : Type} (reg : Registry V) (obj : V -> Target)
    m closing w :
  unheard closing ->
  after (close_all reg obj m closing) w = w
  \/ after (close_all reg obj m closing) w = dropped reg m w.
Proof.
  intros Hq. unfold after at 1 2. rewrite close_all_eq.
  destruct (JsObject.get m (read reg w)) as [o|]; [|now left].
  cbv zeta. rewrite (forEach_close_unheard obj closing _ w Hq).
  destruct (answer _ w); [right | left]; reflexivity.
Qed.

Lemma session_dropped_producers m w m' :
  m' <> m -> session m' (dropped producers m w) = session m' w.
Proof.
  intros H. unfold session.
  change (matchProducers (dropped producers m w))
    with (read producers (dropped producers m w)).
  rewrite (get_dropped_other producers_lawful m w m' H). reflexivity.
Qed.

Lemma session_dropped_consumers m w m' :
  m' <> m -> session m' (dropped consumers m w) = session m' w.
Proof.
  intros H. unfold session.
  change (matchConsumers (dropped consumers m w))
    with (read consumers (dropped consumers m w)).
  rewrite (get_dropped_other consumers_lawful m w m' H). reflexivity.
Qed.

Lemma session_dropped_transports m w m' :
  m' <> m -> session m' (dropped transports m w) = session m' w.
Proof.
  intros H. unfold session.
  change (matchTransports (dropped transports m w))
    with (read transports (dropped transports m w)).
  rewrite (get_dropped_other transports_lawful m w m' H). reflexivity.
Qed.

(** X8. A request touches the session it names and no other, in a state
    the process reaches through requests that name no inherited member and
    when the request and the engine's reply name none.  For every
    session [m'] other than the one named in the request, the dictionaries
    of [m'] in the three registries are the same after [createTransport],
    [produce] and [consume] as before; and the same holds for
    [closeProducer], [closeTransport] and [cleanupSession] when the engine
    emits no "transportclose" during the call (a listener removes its
    entry in the session it was attached for, whichever request makes the
    engine emit). *)
Theorem session_isolation :
  forall m' w,
    pristine w -> ordinary m' ->
    (forall matchId created,
        plain matchId -> plain_reply transport_id created = true ->
        present matchId <> Some m' ->
        session m' (after (createTransport matchId created) w) = session m' w)
    /\ (forall matchId transportId kind rtp produced,
        plain matchId -> plain transportId ->
        plain_reply (fun id => id) produced = true ->
        present matchId <> Some m' ->
        session m' (after (produce matchId transportId kind rtp produced) w)
        = session m' w)
    /\ (forall matchId transportId caps can consumed,
        plain matchId -> plain transportId ->
        plain_reply consumed_id consumed = true ->
        present matchId <> Some m' ->
        session m' (after (consume matchId transportId caps can consumed) w)
        = session m' w)
    /\ (forall matchId producerId closing,
        plain matchId -> plain producerId ->
        present matchId <> Some m' -> unheard closing ->
        session m' (after (closeProducer matchId producerId closing) w)
        = session m' w)
    /\ (forall matchId transportId closing,
        plain matchId -> plain transportId ->
        present matchId <> Some m' -> unheard closing ->
        session m' (after (closeTransport matchId transportId closing) w)
        = session m' w)
    /\ (forall matchId closing,
        plain matchId ->
        present matchId <> Some m' -> unheard closing ->
        session m' (after (cleanupSession matchId closing) w)
        = session m' w).
Proof.
  intros m' w _ _. split; [|split; [|split; [|split; [|split]]]].
  - intros matchId created _ _ Hne. rewrite createTransport_after.
    destruct (present matchId) as [m|]; [|reflexivity].
    destruct created as [t|e]; [|reflexivity].
    unfold session.
    change (matchTransports (put transports m (transport_id t) t w))
      with (read transports (put transports m (transport_id t) t w)).
    rewrite (get_put_other transports_lawful) by congruence. reflexivity.
  - intros matchId transportId kind rtp produced _ _ _ Hne.
    destruct (produce_after matchId transportId kind rtp produced w)
      as [->|(m & t & transport & id & _ & Heq)]; [reflexivity|].
    destruct (present matchId) as [m0|] eqn:Hm.
    + destruct (present transportId) as [t0|] eqn:Ht;
        [|unfold after; rewrite produce_missing by auto; reflexivity].
      destruct (present kind) as [k0|] eqn:Hk;
        [|unfold after; rewrite produce_missing by auto; reflexivity].
      destruct rtp as [r|];
        [|unfold after; rewrite produce_missing by auto; reflexivity].
      clear Heq. unfold after.
      rewrite (produce_eq matchId transportId kind (Some r) produced w m0 t0
                 Hm Ht) by (rewrite ?Hk; discriminate).
      destruct (lookup2 (matchTransports w) m0 t0); [|reflexivity].
      destruct produced as [id0|e]; [|reflexivity].
      cbn [snd]. unfold session.
      change (matchProducers (add_listener ?l ?x)) with (read producers x).
      rewrite (get_put_other producers_lawful) by congruence. reflexivity.
    + unfold after. rewrite produce_missing by auto. reflexivity.
  - intros matchId transportId caps can consumed _ _ _ Hne.
    destruct (present matchId) as [m0|] eqn:Hm;
      [|unfold after; rewrite consume_missing by auto; reflexivity].
    destruct (present transportId) as [t0|] eqn:Ht;
      [|unfold after; rewrite consume_missing by auto; reflexivity].
    destruct caps as [c0|];
      [|unfold after; rewrite consume_missing by auto; reflexivity].
    unfold after.
    rewrite (consume_eq matchId transportId (Some c0) can consumed w m0 t0
               Hm Ht) by discriminate.
    destruct (lookup2 (matchTransports w) m0 t0); [|reflexivity].
    destruct (first_producer m0 w) as [producer|]; [|reflexivity].
    destruct (can (producer_id producer)); [|reflexivity].
    destruct consumed as [c|e]; [|reflexivity].
    rewrite attach_returns. cbn [snd]. unfold session.
    change (matchConsumers (add_listener ?l ?x)) with (read consumers x).
    rewrite (get_put_other consumers_lawful) by congruence. reflexivity.
  - intros matchId producerId closing _ _ Hne Hq.
    destruct (present matchId) as [m|] eqn:Hm;
      [|unfold after, closeProducer; rewrite Hm; reflexivity].
    destruct (present producerId) as [p|] eqn:Hp;
      [|unfold after, closeProducer; rewrite Hm, Hp; reflexivity].
    unfold after.
    rewrite (closeProducer_eq matchId producerId closing w m p Hm Hp).
    destruct (lookup2 (matchProducers w) m p) as [producer|]; [|reflexivity].
    cbv zeta. rewrite (emit_all_unheard _ w (Hq _)).
    destruct (outcome (closing (ProducerObj (producer_id producer))))
      as [[]|e]; cbn [snd]; [|reflexivity].
    unfold session.
    destruct (removed_producers_frame m p w) as (-> & -> & _).
    change (matchProducers (removed producers m p w))
      with (read producers (removed producers m p w)).
    rewrite (get_removed_other producers_lawful) by congruence. reflexivity.
  - intros matchId transportId closing _ _ Hne Hq.
    destruct (present matchId) as [m|] eqn:Hm;
      [|unfold after, closeTransport; rewrite Hm; reflexivity].
    destruct (present transportId) as [t|] eqn:Ht;
      [|unfold after, closeTransport; rewrite Hm, Ht; reflexivity].
    unfold after.
    rewrite (closeTransport_eq matchId transportId closing w m t Hm Ht).
    destruct (lookup2 (matchTransports w) m t) as [transport|]; [|reflexivity].
    cbv zeta. rewrite (emit_all_unheard _ w (Hq _)).
    destruct (outcome (closing (TransportObj (transport_id transport))))
      as [[]|e]; cbn [snd]; [|reflexivity].
    unfold session.
    destruct (removed_transports_frame m t w) as (-> & -> & _).
    change (matchTransports (removed transports m t w))
      with (read transports (removed transports m t w)).
    rewrite (get_removed_other transports_lawful) by congruence. reflexivity.
  - intros matchId closing _ Hne Hq.
    destruct (present matchId) as [m|] eqn:Hm;
      [|unfold after, cleanupSession; rewrite Hm; reflexivity].
    assert (Hm' : m' <> m) by congruence.
    unfold after. rewrite (cleanupSession_eq matchId closing w m Hm).
    unfold bind.
    destruct (close_all_unheard producers
                (fun p => ProducerObj (producer_id p)) m closing w Hq) as [H1|H1];
      unfold after in H1;
      destruct (close_all producers _ m closing w) as [c1 w1];
      cbn [snd] in H1; subst w1.
    all: destruct c1 as [[]|e1];
      [|cbn [snd]; rewrite ?session_dropped_producers by assumption;
        reflexivity].
    all: match goal with
         | |- context [close_all consumers ?o ?mm ?cl ?w0] =>
             destruct (close_all_unheard consumers o mm cl w0 Hq)
               as [H2|H2];
             unfold after in H2;
             destruct (close_all consumers o mm cl w0) as [c2 w2];
             cbn [snd] in H2; subst w2
         end.
    all: destruct c2 as [[]|e2];
      [|cbn [snd];
        rewrite ?session_dropped_consumers, ?session_dropped_producers
          by assumption; reflexivity].
    all: match goal with
         | |- context [close_all transports ?o ?mm ?cl ?w0] =>
             destruct (close_all_unheard transports o mm cl w0 Hq)
               as [H3|H3];
             unfold after in H3;
             destruct (close_all transports o mm cl w0) as [c3 w3];
             cbn [snd] in H3; subst w3
         end.
    all: destruct c3 as [[]|e3]; cbn [snd];
      rewrite ?session_dropped_transports, ?session_dropped_consumers,
        ?session_dropped_producers by assumption; reflexivity.
Qed.

Lemma session_isolation_witness :
  pristine Demo.with_consumer
  /\ session "m2" (after (cleanupSession Demo.m1 quiet) Demo.with_consumer)
     = session "m2" Demo.with_consumer.
Proof.
  assert (H0 : pristine Demo.with_consumer)
    by (exists Demo.to_consumer; split; reflexivity).
  split; [exact H0|].
  destruct (session_isolation "m2" Demo.with_consumer H0 eq_refl)
    as (_ & _ & _ & _ & _ & H).
  apply (H Demo.m1 quiet); [reflexivity | discriminate | intros x e []].
Defined.

(** ** The life of a transport id *)

Lemma present_nonempty s : s <> "" -> present (Some s) = Some s.
Proof.
  intros H. cbn. destruct (String.eqb_spec s ""); [contradiction|reflexivity].
Qed.

(** X9. In a state the process reaches through requests that name no
    inherited member, and for identifiers that are not such names, a
    transport id is usable from the moment [createTransport] hands
    it out until [closeTransport] succeeds on it.  Right after a
    [createTransport] that the engine answered with transport [t] (with a
    non-empty id), connecting that id under the same session succeeds when
    the engine's [connect()] returns.  Right after a [closeTransport] that
    answered success, [connectTransport], [produce] and [consume] naming
    that id under that session, with their required fields present, are
    answered TransportNotFound and change nothing. *)
Theorem transport_id_lifetime :
  (forall matchId t dtls w m,
      pristine w -> ordinary m -> ordinary (transport_id t) ->
      present matchId = Some m -> transport_id t <> "" ->
      connectTransport matchId (Some (transport_id t)) dtls (Returns tt)
        (after (createTransport matchId (Returns t)) w)
      = (Normal success, after (createTransport matchId (Returns t)) w))
  /\ (forall matchId transportId closing w,
      pristine w -> plain matchId -> plain transportId ->
      present matchId <> None -> present transportId <> None ->
      answer (closeTransport matchId transportId closing) w = Normal success ->
      (forall dtls connected,
          connectTransport matchId transportId dtls connected
            (after (closeTransport matchId transportId closing) w)
          = (Normal TransportNotFound,
             after (closeTransport matchId transportId closing) w))
      /\ (forall kind rtp produced,
          present kind <> None -> rtp <> None ->
          produce matchId transportId kind rtp produced
            (after (closeTransport matchId transportId closing) w)
          = (Normal TransportNotFound,
             after (closeTransport matchId transportId closing) w))
      /\ (forall caps can consumed,
          caps <> None ->
          consume matchId transportId caps can consumed
            (after (closeTransport matchId transportId closing) w)
          = (Normal TransportNotFound,
             after (closeTransport matchId transportId closing) w))).
Proof.
  split.
  - intros matchId t dtls w m _ _ _ Hm Hid.
    rewrite createTransport_after, Hm.
    unfold connectTransport.
    rewrite Hm, (present_nonempty _ Hid), bind_inspect.
    change matchTransports with (read transports).
    now rewrite (lookup2_put_same transports_lawful).
  - intros matchId transportId closing w _ _ _ Hm Ht Hok.
    destruct (present matchId) as [m|] eqn:Em; [clear Hm | congruence].
    destruct (present transportId) as [t|] eqn:Et; [clear Ht | congruence].
    assert (Hgone :
              lookup2
                (matchTransports
                   (after (closeTransport matchId transportId closing) w))
                m t = None).
    { unfold after. unfold answer in Hok.
      rewrite (closeTransport_eq matchId transportId closing w m t Em Et)
        in Hok |- *.
      destruct (lookup2 (matchTransports w) m t) as [transport|] eqn:E;
        [|exact E].
      cbv zeta in *.
      destruct (outcome (closing (TransportObj (transport_id transport))))
        as [[]|e]; [|discriminate].
      cbn [snd]. change matchTransports with (read transports).
      apply (removed_gone transports_lawful). }
    set (w' := after (closeTransport matchId transportId closing) w) in *.
    split; [|split].
    + intros dtls connected. unfold connectTransport.
      rewrite Em, Et, bind_inspect. now rewrite Hgone.
    + intros kind rtp produced Hk Hr.
      rewrite (produce_eq matchId transportId kind rtp produced w' m t
                 Em Et Hk Hr).
      now rewrite Hgone.
    + intros caps can consumed Hc.
      rewrite (consume_eq matchId transportId caps can consumed w' m t
                 Em Et Hc).
      now rewrite Hgone.
Qed.

Lemma transport_id_lifetime_witness :
  pristine Demo.with_transport
  /\ connectTransport Demo.m1 Demo.t1 None (Returns tt)
       (after (closeTransport Demo.m1 Demo.t1 quiet) Demo.with_transport)
     = (Normal TransportNotFound,
        after (closeTransport Demo.m1 Demo.t1 quiet) Demo.with_transport).
Proof.
  assert (H0 : pristine Demo.with_transport)
    by (exists Demo.to_transport; split; reflexivity).
  split; [exact H0|].
  destruct transport_id_lifetime as (_ & H).
  destruct (H Demo.m1 Demo.t1 quiet Demo.with_transport H0 eq_refl eq_refl)
    as (H' & _);
    [discriminate | discriminate | reflexivity |].
  apply H'.
Defined.

(** ** Every request is answered *)

(** X10. For a request whose body was parsed and whose identifier fields
    are missing or strings that name no inherited member, in a state the
    process reaches through such requests, no handler ends in an uncaught
    exception, whatever the engine's calls return or throw
    ([router.canConsume], the one engine call made outside a [try],
    answering a boolean).  (Fields that are not strings are not covered:
    an object as identifier can make the registry index itself throw.)
    Each handler answers with one of its own status codes:
    [createTransport] 200, 400 or 500;
    [connectTransport], [produce] and [consume] 200, 400, 404 or 500; the
    status query always 200; [closeProducer], [closeTransport] and
    [cleanupSession] 200, 400 or 500, never 404 (an unknown resource is a
    success). *)
Theorem handlers_always_answer :
  forall w,
    pristine w ->
    (forall matchId created,
        plain matchId -> plain_reply transport_id created = true ->
        exists r, answer (createTransport matchId created) w = Normal r
                  /\ In (status r) [200; 400; 500])
    /\ (forall matchId transportId dtls connected,
        plain matchId -> plain transportId ->
        exists r,
          answer (connectTransport matchId transportId dtls connected) w
          = Normal r
          /\ In (status r) [200; 400; 404; 500])
    /\ (forall matchId transportId kind rtp produced,
        plain matchId -> plain transportId ->
        plain_reply (fun id => id) produced = true ->
        exists r,
          answer (produce matchId transportId kind rtp produced) w = Normal r
          /\ In (status r) [200; 400; 404; 500])
    /\ (forall matchId transportId caps can consumed,
        plain matchId -> plain transportId ->
        plain_reply consumed_id consumed = true ->
        exists r,
          answer (consume matchId transportId caps can consumed) w = Normal r
          /\ In (status r) [200; 400; 404; 500])
    /\ (forall matchId,
        ordinary matchId ->
        exists r, answer (status_of matchId) w = Normal r /\ status r = 200)
    /\ (forall matchId producerId closing,
        plain matchId -> plain producerId ->
        exists r,
          answer (closeProducer matchId producerId closing) w = Normal r
          /\ In (status r) [200; 400; 500])
    /\ (forall matchId transportId closing,
        plain matchId -> plain transportId ->
        exists r,
          answer (closeTransport matchId transportId closing) w = Normal r
          /\ In (status r) [200; 400; 500])
    /\ (forall matchId closing,
        plain matchId ->
        exists r,
          answer (cleanupSession matchId closing) w = Normal r
          /\ In (status r) [200; 400; 500]).
Proof.
  intros w _.
  split; [|split; [|split; [|split; [|split; [|split; [|split]]]]]].
  - intros matchId created _ _. unfold answer, createTransport.
    destruct (present matchId) as [m|];
      [|eexists; split; [reflexivity | cbn; auto]].
    destruct created as [t|e];
      [|eexists; split; [reflexivity | cbn; auto]].
    unfold try_catch, await. rewrite bind_ret.
    rewrite (ensure_assign_then transports_lawful).
    eexists; split; [reflexivity | cbn; auto].
  - intros matchId transportId dtls connected _ _.
    unfold answer, connectTransport.
    destruct (present matchId) as [m|];
      [|eexists; split; [reflexivity | cbn; auto]].
    destruct (present transportId) as [t|];
      [|eexists; split; [reflexivity | cbn; auto]].
    rewrite bind_inspect.
    destruct (lookup2 (matchTransports w) m t);
      [|eexists; split; [reflexivity | cbn; auto]].
    destruct connected as [[]|e];
      eexists; (split; [reflexivity | cbn; auto]).
  - intros matchId transportId kind rtp produced _ _ _. unfold answer.
    destruct (present matchId) as [m|] eqn:Hm;
      [|rewrite produce_missing by auto;
        eexists; split; [reflexivity | cbn; auto]].
    destruct (present transportId) as [t|] eqn:Ht;
      [|rewrite produce_missing by auto;
        eexists; split; [reflexivity | cbn; auto]].
    destruct (present kind) as [k|] eqn:Hk;
      [|rewrite produce_missing by auto;
        eexists; split; [reflexivity | cbn; auto]].
    destruct rtp as [r|];
      [|rewrite produce_missing by auto;
        eexists; split; [reflexivity | cbn; auto]].
    rewrite (produce_eq matchId transportId kind (Some r) produced w m t
               Hm Ht) by (rewrite ?Hk; discriminate).
    destruct (lookup2 (matchTransports w) m t);
      [|eexists; split; [reflexivity | cbn; auto]].
    destruct produced as [id|e];
      eexists; (split; [reflexivity | cbn; auto]).
  - intros matchId transportId caps can consumed _ _ _. unfold answer.
    destruct (present matchId) as [m|] eqn:Hm;
      [|rewrite consume_missing by auto;
        eexists; split; [reflexivity | cbn; auto]].
    destruct (present transportId) as [t|] eqn:Ht;
      [|rewrite consume_missing by auto;
        eexists; split; [reflexivity | cbn; auto]].
    destruct caps as [c0|];
      [|rewrite consume_missing by auto;
        eexists; split; [reflexivity | cbn; auto]].
    rewrite (consume_eq matchId transportId (Some c0) can consumed w m t
               Hm Ht) by discriminate.
    destruct (lookup2 (matchTransports w) m t);
      [|eexists; split; [reflexivity | cbn; auto]].
    destruct (first_producer m w) as [p|];
      [|eexists; split; [reflexivity | cbn; auto]].
    destruct (can (producer_id p));
      [|eexists; split; [reflexivity | cbn; auto]].
    destruct consumed as [c|e];
      [rewrite attach_returns | rewrite attach_throws];
      eexists; (split; [reflexivity | cbn; auto]).
  - intros matchId _. unfold answer. rewrite status_of_eq.
    eexists; split; reflexivity.
  - intros matchId producerId closing _ _. unfold answer.
    destruct (present matchId) as [m|] eqn:Hm;
      [|unfold closeProducer; rewrite Hm;
        eexists; split; [reflexivity | cbn; auto]].
    destruct (present producerId) as [p|] eqn:Hp;
      [|unfold closeProducer; rewrite Hm, Hp;
        eexists; split; [reflexivity | cbn; auto]].
    rewrite (closeProducer_eq matchId producerId closing w m p Hm Hp).
    destruct (lookup2 (matchProducers w) m p) as [producer|];
      [|eexists; split; [reflexivity | cbn; auto]].
    cbv zeta.
    destruct (outcome (closing (ProducerObj (producer_id producer))))
      as [[]|e]; eexists; (split; [reflexivity | cbn; auto]).
  - intros matchId transportId closing _ _. unfold answer.
    destruct (present matchId) as [m|] eqn:Hm;
      [|unfold closeTransport; rewrite Hm;
        eexists; split; [reflexivity | cbn; auto]].
    destruct (present transportId) as [t|] eqn:Ht;
      [|unfold closeTransport; rewrite Hm, Ht;
        eexists; split; [reflexivity | cbn; auto]].
    rewrite (closeTransport_eq matchId transportId closing w m t Hm Ht).
    destruct (lookup2 (matchTransports w) m t) as [transport|];
      [|eexists; split; [reflexivity | cbn; auto]].
    cbv zeta.
    destruct (outcome (closing (TransportObj (transport_id transport))))
      as [[]|e]; eexists; (split; [reflexivity | cbn; auto]).
  - intros matchId closing _.
    destruct (present matchId) as [m|] eqn:Hm;
      [|unfold answer, cleanupSession; rewrite Hm;
        eexists; split; [reflexivity | cbn; auto]].
    destruct (cleanupSession_cases matchId closing w m Hm)
      as (_ & [(-> & _)|(-> & _)]);
      eexists; (split; [reflexivity | cbn; auto]).
Qed.

Lemma handlers_always_answer_witness :
  pristine Demo.with_producer
  /\ exists r,
      answer (closeProducer Demo.m1 (Some "producer-1") failing)
        Demo.with_producer = Normal r
      /\ In (status r) [200; 400; 500].
Proof.
  assert (H0 : pristine Demo.with_producer)
    by (exists Demo.to_producer; split; reflexivity).
  split; [exact H0|].
  destruct (handlers_always_answer Demo.with_producer H0)
    as (_ & _ & _ & _ & _ & H & _).
  apply (H Demo.m1 (Some "producer-1") failing); reflexivity.
Defined.

(** ** Handles are filed under their own id *)










(** ** Which producer a consumer gets *)

Lemma keys_singleton {V : Type} k (v : V) : JsObject.keys [(k, v)] = [k].
Proof.
  unfold JsObject.keys, JsObject.is_index. cbn.
  destruct (JsObject.array_index k); reflexivity.
Qed.

Lemma size_zero {V : Type} (o : Dict V) : JsObject.size o = 0 -> o = [].
Proof. now destruct o. Qed.

Lemma first_producer_put_first m id p w :
  producerCount m w = 0 ->
  first_producer m (put producers m id p w) = Some p.
Proof.
  intros H. unfold first_producer, put, producerCount in *.
  cbn [read write producers set_producers matchProducers].
  rewrite get_set_same.
  destruct (JsObject.get m (matchProducers w)) as [o|].
  - apply size_zero in H. subst o. cbn [JsObject.set].
    rewrite keys_singleton. cbn. now rewrite String.eqb_refl.
  - cbn [JsObject.set JsObject.empty].
    rewrite keys_singleton. cbn. now rewrite String.eqb_refl.
Qed.

(** X12. The first producer of a session is the one consumers get.  In a
    state the process reaches through requests that name no inherited
    member, and for identifiers and engine ids that are not such names:
    when a session has no producer, a [produce] that the engine answers with
    id [id] makes that producer the one [consume] picks: a [consume] right
    after it, on a transport registered under the session, with the
    compatibility check passing for [id] and the engine returning a
    consumer, answers 200 with [producerId] equal to [id]. *)
Theorem first_produce_then_consume :
  forall matchId transportId kind rtp id transportId' caps can c w m t t',
    pristine w ->
    ordinary m -> ordinary t -> ordinary t' ->
    ordinary id -> ordinary (consumed_id c) ->
    present matchId = Some m -> present transportId = Some t ->
    present kind <> None -> rtp <> None ->
    lookup2 (matchTransports w) m t <> None ->
    producerCount m w = 0 ->
    present transportId' = Some t' -> caps <> None ->
    lookup2 (matchTransports w) m t' <> None ->
    can id = true ->
    answer (consume matchId transportId' caps can (Returns c))
      (after (produce matchId transportId kind rtp (Returns id)) w)
    = Normal (json (JObj
        [("id", JStr (consumed_id c));
         ("producerId", JStr id);
         ("kind", JStr (consumed_kind c));
         ("rtpParameters", JBlob (consumed_rtpParameters c))])).
Proof.
  intros matchId transportId kind rtp id transportId' caps can c w m t t'
    _ _ _ _ _ _ Hm Ht Hk Hr Hreg Hcount Ht' Hc Hreg' Hcan.
  unfold after at 1.
  rewrite (produce_eq matchId transportId kind rtp (Returns id) w m t
             Hm Ht Hk Hr).
  destruct (lookup2 (matchTransports w) m t) as [transport|]; [|congruence].
  cbn [snd]. unfold answer.
  rewrite (consume_eq matchId transportId' caps can (Returns c) _ m t'
             Hm Ht' Hc).
  change (matchTransports (add_listener ?l (put producers ?a ?b ?p ?x)))
    with (matchTransports x).
  destruct (lookup2 (matchTransports w) m t') as [transport'|]; [|congruence].
  change (first_producer m (add_listener ?l ?x)) with (first_producer m x).
  rewrite (first_producer_put_first m id _ w Hcount).
  cbn [producer_id]. rewrite Hcan, attach_returns. reflexivity.
Qed.

Lemma first_produce_then_consume_witness :
  pristine Demo.with_transport
  /\ answer (consume Demo.m1 Demo.t1 Demo.caps (fun _ => true)
               (Returns Demo.consumed1))
       (after (produce Demo.m1 Demo.t1 Demo.video Demo.rtp
                 (Returns "producer-1")) Demo.with_transport)
     = Normal (json (JObj
         [("id", JStr "consumer-1");
          ("producerId", JStr "producer-1");
          ("kind", JStr "video");
          ("rtpParameters", JBlob (blob "rtp"))])).
Proof.
  assert (H0 : pristine Demo.with_transport)
    by (exists Demo.to_transport; split; reflexivity).
  split; [exact H0|].
  apply (first_produce_then_consume Demo.m1 Demo.t1 Demo.video Demo.rtp
           "producer-1" Demo.t1 Demo.caps (fun _ => true) Demo.consumed1
           Demo.with_transport "m1" "transport-1" "transport-1" H0);
    try reflexivity; discriminate.
Defined.

Lemma own_keys_set_new {V : Type} k (v : V) (o : Dict V) :
  JsObject.get k o = None ->
  JsObject.set k v o = o ++ [(k, v)].
Proof.
  induction o as [|[k' v'] o IH]; cbn; [reflexivity|].
  destruct (String.eqb k k'); [discriminate|].
  intros H. now rewrite IH.
Qed.

(** X13. Later producers queue behind the first.  When a session already
    has a producer, and neither the registered producer ids nor the new
    one is an array index, a [produce] that registers a new id leaves the
    producer that [consume] picks exactly as it was. *)
Theorem later_producers_queue_behind :
  forall matchId transportId kind rtp id w m o,
    present matchId = Some m ->
    answer (produce matchId transportId kind rtp (Returns id)) w
    = Normal (json (JObj [("id", JStr id)])) ->
    JsObject.get m (matchProducers w) = Some o -> o <> [] ->
    JsObject.get id o = None ->
    (forall k, In k (JsObject.own_keys o) -> JsObject.is_index k = false) ->
    JsObject.is_index id = false ->
    first_producer m (after (produce matchId transportId kind rtp (Returns id)) w)
    = first_producer m w.
Proof.
  intros matchId transportId kind rtp id w m o Hm Hok Ho Hne Hnew Hplain Hid.
  unfold after, answer in *.
  destruct (present transportId) as [t|] eqn:Ht;
    [|rewrite produce_missing in Hok by auto; discriminate].
  destruct (present kind) as [k0|] eqn:Hk;
    [|rewrite produce_missing in Hok by auto; discriminate].
  destruct rtp as [r|];
    [|rewrite produce_missing in Hok by auto; discriminate].
  rewrite (produce_eq matchId transportId kind (Some r) (Returns id) w m t
             Hm Ht) in Hok |- * by (rewrite ?Hk; discriminate).
  destruct (lookup2 (matchTransports w) m t) as [transport|];
    [|discriminate].
  cbn [snd].
  change (first_producer m (add_listener ?l ?x)) with (first_producer m x).
  unfold first_producer, put.
  cbn [read write producers set_producers matchProducers].
  rewrite get_set_same, Ho, (own_keys_set_new id _ o Hnew).
  rewrite (keys_creation_order o Hplain).
  rewrite keys_creation_order.
  - destruct o as [|[k v] o']; [congruence|]. cbn.
    now rewrite String.eqb_refl.
  - intros k. unfold JsObject.own_keys. rewrite map_app, in_app_iff.
    intros [H|[<-|[]]]; [now apply Hplain | exact Hid].
Qed.

Lemma later_producers_queue_behind_witness :
  first_producer "m1"
    (after (produce Demo.m1 Demo.t1 Demo.video Demo.rtp
              (Returns "producer-2")) Demo.with_producer)
  = first_producer "m1" Demo.with_producer.
Proof.
  apply (later_producers_queue_behind Demo.m1 Demo.t1 Demo.video Demo.rtp
           "producer-2" Demo.with_producer "m1"
           [("producer-1",
             {| producer_id := "producer-1";
                producer_transport := "transport-1" |})]);
    try reflexivity; try discriminate.
  intros k [<-|[]]. reflexivity.
Defined.

(** A producer whose id is an array index goes first, whenever it was
    created. *)
Example numeric_id_jumps_the_queue :
  option_map producer_id
    (first_producer "m1"
       (after (produce Demo.m1 Demo.t1 Demo.video Demo.rtp (Returns "7"))
          Demo.with_producer))
  = Some "7".
Proof. reflexivity. Qed.

(** ** The status flag over the life of a session *)

Lemma hasProducers_cases matchId w :
  (hasProducers matchId w = JUndefined
   <-> JsObject.get matchId (matchProducers w) = None)
  /\ (hasProducers matchId w = JBool false
      <-> JsObject.get matchId (matchProducers w) = Some [])
  /\ (hasProducers matchId w = JBool true
      <-> exists o, JsObject.get matchId (matchProducers w) = Some o
                    /\ o <> []).
Proof.
  unfold hasProducers.
  destruct (JsObject.get matchId (matchProducers w)) as [o|].
  - rewrite keys_length. destruct o as [|e o]; cbn.
    + split; [split; discriminate|]. split; [tauto|].
      split; [discriminate|]. intros (o & [= <-] & H). congruence.
    + split; [split; discriminate|]. split; [split; discriminate|].
      split; [|reflexivity]. intros _. eexists. split; [reflexivity|].
      discriminate.
  - split; [tauto|]. split; [split; discriminate|].
    split; [discriminate|]. intros (o & H & _). discriminate.
Qed.

Lemma hasProducers_put m id p w :
  hasProducers m (put producers m id p w) = JBool true.
Proof.
  unfold hasProducers, put.
  cbn [read write producers set_producers matchProducers].
  rewrite get_set_same, keys_length, size_set.
  destruct (JsObject.get id _) eqn:E; [|reflexivity].
  destruct (match JsObject.get m (matchProducers w) with
            | Some inner => inner
            | None => JsObject.empty
            end); [discriminate | reflexivity].
Qed.

(** X14. The activity flag of the status report over the life of a
    session, in a state the process reaches through requests that name no
    inherited member and for identifiers that are not such names.  The
    flag the status query answers with is [undefined] exactly while the
    session has no producer dictionary.  A [produce] that registers a
    producer makes it [true]; a [cleanupSession] that answers success
    makes it [undefined]; [closeProducer], [closeTransport] and engine
    events neither create nor delete the dictionary: across them the flag
    is [undefined] afterwards exactly when it was before, so closing the
    last producer of a session gives [false], not [undefined]. *)
Theorem status_flag_over_session_life :
  forall m w,
    pristine w -> ordinary m ->
    (exists n,
        status_of m w = (Normal (json (status_body (hasProducers m w) n)), w))
    /\ (hasProducers m w = JUndefined
        <-> JsObject.get m (matchProducers w) = None)
    /\ (forall matchId transportId kind rtp id t,
          present matchId = Some m -> present transportId = Some t ->
          ordinary t -> ordinary id ->
          present kind <> None -> rtp <> None ->
          lookup2 (matchTransports w) m t <> None ->
          hasProducers m
            (after (produce matchId transportId kind rtp (Returns id)) w)
          = JBool true)
    /\ (forall matchId closing,
          present matchId = Some m ->
          answer (cleanupSession matchId closing) w = Normal success ->
          hasProducers m (after (cleanupSession matchId closing) w)
          = JUndefined)
    /\ (forall matchId producerId closing,
          plain matchId -> plain producerId ->
          hasProducers m w = JUndefined
          <-> hasProducers m
                (after (closeProducer matchId producerId closing) w)
              = JUndefined)
    /\ (forall matchId transportId closing,
          plain matchId -> plain transportId ->
          hasProducers m w = JUndefined
          <-> hasProducers m
                (after (closeTransport matchId transportId closing) w)
              = JUndefined)
    /\ (forall e,
          hasProducers m w = JUndefined
          <-> hasProducers m (emit e w) = JUndefined).
Proof.
  intros m w _ _.
  destruct (hasProducers_cases m w) as (HU & _).
  split; [eexists; apply status_of_eq|].
  split; [exact HU|].
  assert (Key : forall w',
             (JsObject.get m (matchProducers w') = None
              <-> JsObject.get m (matchProducers w) = None) ->
             (hasProducers m w = JUndefined
              <-> hasProducers m w' = JUndefined)).
  { intros w' H. destruct (hasProducers_cases m w') as (HU' & _).
    rewrite HU, HU'. symmetry. exact H. }
  split; [|split; [|split; [|split]]].
  - intros matchId transportId kind rtp id t Hm Ht _ _ Hk Hr Hreg.
    unfold after.
    rewrite (produce_eq matchId transportId kind rtp (Returns id) w m t
               Hm Ht Hk Hr).
    destruct (lookup2 (matchTransports w) m t) as [transport|]; [|congruence].
    cbn [snd].
    change (hasProducers m (add_listener ?l ?x)) with (hasProducers m x).
    apply hasProducers_put.
  - intros matchId closing Hm Hok.
    destruct (cleanupSession_cases matchId closing w m Hm)
      as (_ & [(_ & Habs & _)|(Herr & _)]);
      [|rewrite Herr in Hok; discriminate].
    destruct (hasProducers_cases m (after (cleanupSession matchId closing) w))
      as (HU' & _).
    apply HU'. apply Habs.
  - intros matchId producerId closing _ _. apply Key.
    apply (closeProducer_preserves
             (fun w' => JsObject.get m (matchProducers w') = None
                        <-> JsObject.get m (matchProducers w) = None));
      [| | |tauto].
    + intros m0 k w' H. rewrite <- H. symmetry.
      apply (forget_session producers_lawful).
    + intros m0 k w' H.
      destruct (forget_consumers_frame m0 k w') as (_ & -> & _). exact H.
    + intros m0 k w' H. rewrite <- H. symmetry.
      destruct (removed_producers_shrinks m0 k w') as (_ & _ & HP & _).
      apply HP.
  - intros matchId transportId closing _ _. apply Key.
    apply (closeTransport_preserves
             (fun w' => JsObject.get m (matchProducers w') = None
                        <-> JsObject.get m (matchProducers w) = None));
      [| | |tauto].
    + intros m0 k w' H. rewrite <- H. symmetry.
      apply (forget_session producers_lawful).
    + intros m0 k w' H.
      destruct (forget_consumers_frame m0 k w') as (_ & -> & _). exact H.
    + intros m0 k w' H.
      destruct (removed_transports_frame m0 k w') as (-> & _). exact H.
  - intros e. apply Key.
    destruct (emit_shrinks e w) as (_ & _ & HP & _). symmetry. apply HP.
Qed.

Lemma status_flag_over_session_life_witness :
  pristine Demo.with_producer
  /\ (hasProducers "m1" Demo.with_producer = JUndefined
      <-> hasProducers "m1"
            (after (closeProducer Demo.m1 (Some "producer-1") quiet)
               Demo.with_producer)
          = JUndefined).
Proof.
  assert (H0 : pristine Demo.with_producer)
    by (exists Demo.to_producer; split; reflexivity).
  split; [exact H0|].
  destruct (status_flag_over_session_life "m1" Demo.with_producer H0 eq_refl)
    as (_ & _ & _ & _ & H & _).
  apply (H Demo.m1 (Some "producer-1") quiet); reflexivity.
Defined.

(** After the only producer of a session is closed the flag is [false];
    after a cleanup it is [undefined]. *)
Example flag_after_last_close_and_after_cleanup :
  hasProducers "m1"
    (after (closeProducer Demo.m1 (Some "producer-1") quiet)
       Demo.with_producer) = JBool false
  /\ hasProducers "m1" (after (cleanupSession Demo.m1 quiet) Demo.with_producer)
     = JUndefined.
Proof. split; reflexivity. Qed.

(** ** Counting producers down *)

Section TidyFacts.
Context {V : Type}.
Implicit Types (o : Dict V) (k : string) (v : V).

Lemma own_keys_absent k o :
  JsObject.get k o = None -> ~ In k (JsObject.own_keys o).
Proof.
  induction o as [|[k' v'] o IH]; cbn; [tauto|].
  destruct (String.eqb_spec k k'); [discriminate|].
  intros H [->|Hin]; [congruence | now apply IH].
Qed.

Lemma own_keys_set k v o :
  JsObject.own_keys (JsObject.set k v o)
  = match JsObject.get k o with
    | Some _ => JsObject.own_keys o
    | None => JsObject.own_keys o ++ [k]
    end.
Proof.
  unfold JsObject.own_keys.
  induction o as [|[k' v'] o IH]; cbn; [reflexivity|].
  destruct (String.eqb_spec k k') as [->|Hne]; cbn; [reflexivity|].
  rewrite IH. now destruct (JsObject.get k o).
Qed.

Lemma NoDup_set k v o :
  NoDup (JsObject.own_keys o) -> NoDup (JsObject.own_keys (JsObject.set k v o)).
Proof.
  intros H. rewrite own_keys_set.
  destruct (JsObject.get k o) eqn:E; [assumption|].
  apply NoDup_app; [assumption | repeat constructor; intros [] |].
  intros x Hx [<-|[]]. now apply (own_keys_absent k o).
Qed.

Lemma own_keys_delete k o :
  JsObject.own_keys (JsObject.delete k o)
  = filter (fun k' => negb (String.eqb k k')) (JsObject.own_keys o).
Proof.
  unfold JsObject.delete, JsObject.own_keys.
  induction o as [|[k' v'] o IH]; cbn; [reflexivity|].
  destruct (String.eqb k k'); cbn; now rewrite IH.
Qed.

Lemma NoDup_delete k o :
  NoDup (JsObject.own_keys o) ->
  NoDup (JsObject.own_keys (JsObject.delete k o)).
Proof. intros H. rewrite own_keys_delete. now apply NoDup_filter. Qed.

Lemma size_delete k v o :
  NoDup (JsObject.own_keys o) -> JsObject.get k o = Some v ->
  S (JsObject.size (JsObject.delete k o)) = JsObject.size o.
Proof.
  unfold JsObject.size, JsObject.delete.
  induction o as [|[k' v'] o IH]; cbn; [discriminate|].
  intros Hnd. inversion Hnd as [|? ? Hnotin Hnd']; subst.
  destruct (String.eqb_spec k k') as [->|Hne]; cbn.
  - intros _. f_equal.
    assert (Hsame : filter (fun kv => negb (String.eqb k' (fst kv))) o = o).
    { clear IH Hnd Hnd'. induction o as [|[k2 v2] o IH]; cbn; [reflexivity|].
      cbn in Hnotin.
      destruct (String.eqb_spec k' k2) as [->|]; [tauto|].
      cbn. f_equal. apply IH. tauto. }
    now rewrite Hsame.
  - intros H. f_equal. now apply IH.
Qed.

End TidyFacts.

Lemma tidy_initial : tidy initial.
Proof. intros m o. discriminate. Qed.

Lemma tidy_same w w' :
  matchProducers w' = matchProducers w -> tidy w -> tidy w'.
Proof. unfold tidy. now intros ->. Qed.

Lemma tidy_put_producer m id p w : tidy w -> tidy (put producers m id p w).
Proof.
  intros H m' o. unfold put.
  cbn [read write producers set_producers matchProducers].
  destruct (String.eqb_spec m' m) as [->|Hne].
  - rewrite get_set_same. intros [= <-]. apply NoDup_set.
    destruct (JsObject.get m (matchProducers w)) as [inner|] eqn:E.
    + now apply (H m).
    + constructor.
  - rewrite get_set_other by assumption. apply H.
Qed.

Lemma tidy_remove_in m k w w' :
  remove_in producers m k w = Some w' -> tidy w -> tidy w'.
Proof.
  intros E H m' o.
  destruct (remove_in_read m k w w' E) as (inner & Hi & ->).
  cbn [read write producers set_producers matchProducers].
  destruct (String.eqb_spec m' m) as [->|Hne].
  - rewrite get_set_same. intros [= <-]. apply NoDup_delete. now apply (H m).
  - rewrite get_set_other by assumption. apply H.
Qed.

Lemma tidy_forget_producer m k w : tidy w -> tidy (forget producers m k w).
Proof.
  intros H. destruct (@forget_cases _ producers m k w) as [[_ ->]|[_ E]];
    [assumption | now apply (tidy_remove_in m k w)].
Qed.

Lemma tidy_removed_producer m k w : tidy w -> tidy (removed producers m k w).
Proof.
  intros H. unfold removed.
  destruct (remove_in producers m k w) as [w'|] eqn:E;
    [now apply (tidy_remove_in m k w) | assumption].
Qed.

Lemma tidy_dropped_producers m w : tidy w -> tidy (dropped producers m w).
Proof.
  intros H m' o. unfold dropped.
  cbn [read write producers set_producers matchProducers].
  destruct (String.eqb_spec m' m) as [->|Hne].
  - now rewrite get_delete_same.
  - rewrite get_delete_other by assumption. apply H.
Qed.

Lemma tidy_step s w : tidy w -> tidy (step s w).
Proof.
  intros Hw.
  assert (Hfc : forall m k w', tidy w' -> tidy (forget consumers m k w')).
  { intros m k w'. apply tidy_same. apply forget_consumers_frame. }
  destruct s; cbn [step].
  - rewrite createTransport_after.
    destruct (present matchId) as [m|]; [|assumption].
    destruct created as [t|e]; assumption.
  - now rewrite connectTransport_after.
  - destruct (produce_after matchId transportId kind rtpParameters produced w)
      as [->|(m & t & transport & id & _ & ->)]; [assumption|].
    apply (tidy_same (put producers m id
                        {| producer_id := id;
                           producer_transport := transport_id transport |} w));
      [reflexivity | now apply tidy_put_producer].
  - destruct (consume_after matchId transportId rtpCapabilities canConsume
                consumed w)
      as [->|(m & t & transport & producer & c & _ & ->)]; assumption.
  - now rewrite status_of_after.
  - apply (closeProducer_preserves tidy tidy_forget_producer Hfc
             tidy_removed_producer). assumption.
  - apply (closeTransport_preserves tidy tidy_forget_producer Hfc);
      [|assumption].
    intros m k w'. apply tidy_same. apply removed_transports_frame.
  - apply (cleanupSession_preserves tidy tidy_forget_producer Hfc
             tidy_dropped_producers); [| |assumption].
    + intros m w'. apply tidy_same. reflexivity.
    + intros m w'. apply tidy_same. reflexivity.
  - unfold emit. generalize (listeners w) as ls. intros ls. revert w Hw.
    induction ls as [|l ls IH]; intros w Hw; cbn; [assumption|].
    apply IH. destruct (Emit_eqb (listens_to l) e); [|assumption].
    destruct l; cbn; [now apply tidy_forget_producer | now apply Hfc].
Qed.

Lemma tidy_steps l w : tidy w -> tidy (steps l w).
Proof.
  revert w. induction l as [|s l IH]; intros w Hw; cbn; [assumption|].
  apply IH. now apply tidy_step.
Qed.

(** X15. Closing a registered producer lowers the count by exactly one.
    In every state reached from the empty registries through requests and
    engine replies that name no inherited member, when [closeProducer],
    with identifiers that are not such names,
    names a producer registered under the session, the engine's [close()]
    returns and no "transportclose" is emitted during the call, the
    session's producer count after the call is one less than before, and
    the status report right after it carries that count. *)
Theorem closeProducer_counts_down :
  forall l matchId producerId closing m p,
    forallb plain_step l = true ->
    ordinary m -> ordinary p ->
    present matchId = Some m -> present producerId = Some p ->
    lookup2 (matchProducers (steps l initial)) m p <> None ->
    unheard closing ->
    answer (closeProducer matchId producerId closing) (steps l initial)
    = Normal success ->
    S (producerCount m
         (after (closeProducer matchId producerId closing) (steps l initial)))
    = producerCount m (steps l initial)
    /\ exists flag,
        answer (status_of m)
          (after (closeProducer matchId producerId closing) (steps l initial))
        = Normal (json (status_body flag
                          (pred (producerCount m (steps l initial))))).
Proof.
  intros l matchId producerId closing m p _ _ _ Hm Hp Hreg Hq Hok.
  pose proof (tidy_steps l initial tidy_initial) as Ht.
  set (w := steps l initial) in *.
  assert (Hcount :
            S (producerCount m
                 (after (closeProducer matchId producerId closing) w))
            = producerCount m w).
  { unfold after. unfold answer in Hok.
    rewrite (closeProducer_eq matchId producerId closing w m p Hm Hp)
      in Hok |- *.
    destruct (lookup2 (matchProducers w) m p) as [producer|] eqn:E;
      [|congruence].
    cbv zeta in *. rewrite (emit_all_unheard _ w (Hq _)) in *.
    destruct (outcome (closing (ProducerObj (producer_id producer))))
      as [[]|e]; [|discriminate].
    cbn [snd].
    destruct (lookup2_session _ _ _ _ E) as (inner & Hi & Hk).
    unfold removed, remove_in, producerCount.
    cbn [read write producers set_producers matchProducers].
    rewrite Hi. unfold set_producers. cbn [matchProducers].
    rewrite get_set_same.
    apply (size_delete p producer inner (Ht m inner Hi) Hk). }
  split; [exact Hcount|].
  set (w' := after (closeProducer matchId producerId closing) w) in *.
  exists (hasProducers m w'). unfold answer. rewrite status_of_eq. cbn [fst].
  rewrite <- Hcount. cbn [pred].
  unfold hasProducers, producerCount.
  destruct (JsObject.get m (matchProducers w')) as [o|]; [|reflexivity].
  rewrite keys_length. destruct (JsObject.size o); reflexivity.
Qed.

Lemma closeProducer_counts_down_witness :
  S (producerCount "m1"
       (after (closeProducer Demo.m1 (Some "producer-1") quiet)
          Demo.with_two_producers))
  = producerCount "m1" Demo.with_two_producers.
Proof.
  destruct (closeProducer_counts_down
              [CreateTransport Demo.m1 (Returns Demo.transport1);
               Produce Demo.m1 Demo.t1 Demo.video Demo.rtp
                 (Returns "producer-1");
               Produce Demo.m1 Demo.t1 Demo.video Demo.rtp
                 (Returns "producer-2")]
              Demo.m1 (Some "producer-1") quiet "m1" "producer-1"
              eq_refl eq_refl eq_refl eq_refl eq_refl) as (H & _);
    [discriminate | intros x e [] | reflexivity | exact H].
Defined.

(** ** Before and after the router is there *)

(** No entry in any registry. *)
Lemma bare_fades w w' :
  (forall m k, lookup2 (matchTransports w) m k = None
               /\ lookup2 (matchProducers w) m k = None
               /\ lookup2 (matchConsumers w) m k = None) ->
  fades w w' ->
  forall m k, lookup2 (matchTransports w') m k = None
              /\ lookup2 (matchProducers w') m k = None
              /\ lookup2 (matchConsumers w') m k = None.
Proof.
  intros H (_ & _ & T & _ & P & _ & C) m k.
  destruct (H m k) as (HT & HP & HC). repeat split.
  - destruct (lookup2 (matchTransports w') m k) eqn:E; [|reflexivity].
    apply T in E. congruence.
  - destruct (lookup2 (matchProducers w') m k) eqn:E; [|reflexivity].
    apply P in E. congruence.
  - destruct (lookup2 (matchConsumers w') m k) eqn:E; [|reflexivity].
    apply C in E. congruence.
Qed.

Lemma step_fades_or_creates s w :
  fades w (step s w)
  \/ (exists matchId created, s = CreateTransport matchId created)
  \/ (exists m t, lookup2 (matchTransports w) m t <> None).
Proof.
  destruct s; cbn [step].
  - right. left. eauto.
  - left. rewrite connectTransport_after. apply fades_refl.
  - destruct (produce_after matchId transportId kind rtpParameters produced w)
      as [->|(m & t & transport & id & Ht & _)];
      [left; apply fades_refl | right; right; exists m, t; congruence].
  - destruct (consume_after matchId transportId rtpCapabilities canConsume
                consumed w)
      as [->|(m & t & transport & producer & c & Ht & _)];
      [left; apply fades_refl | right; right; exists m, t; congruence].
  - left. rewrite status_of_after. apply fades_refl.
  - left.
    apply (closeProducer_preserves (fades w)); [| | |apply fades_refl].
    + intros m k w' H. eapply fades_trans; [exact H|].
      apply shrinks_fades, forget_producers_shrinks.
    + intros m k w' H. eapply fades_trans; [exact H|].
      apply shrinks_fades, forget_consumers_shrinks.
    + intros m k w' H. eapply fades_trans; [exact H|].
      apply shrinks_fades, removed_producers_shrinks.
  - left.
    apply (closeTransport_preserves (fades w)); [| | |apply fades_refl].
    + intros m k w' H. eapply fades_trans; [exact H|].
      apply shrinks_fades, forget_producers_shrinks.
    + intros m k w' H. eapply fades_trans; [exact H|].
      apply shrinks_fades, forget_consumers_shrinks.
    + intros m k w' H. eapply fades_trans; [exact H|].
      apply removed_transports_fades.
  - left.
    apply (cleanupSession_preserves (fades w)); [| | | | |apply fades_refl].
    + intros m k w' H. eapply fades_trans; [exact H|].
      apply shrinks_fades, forget_producers_shrinks.
    + intros m k w' H. eapply fades_trans; [exact H|].
      apply shrinks_fades, forget_consumers_shrinks.
    + intros m w' H. eapply fades_trans; [exact H|].
      apply dropped_producers_fades.
    + intros m w' H. eapply fades_trans; [exact H|].
      apply dropped_consumers_fades.
    + intros m w' H. eapply fades_trans; [exact H|].
      apply dropped_transports_fades.
  - left. apply shrinks_fades, emit_shrinks.
Qed.

Lemma createTransport_unset matchId created s :
  router s = None ->
  createTransport matchId (createWebRtcTransport s created) (registries s)
  = (Normal (match present matchId with
             | None => SessionIdMissing
             | Some _ => error 500 "Transport creation failed"
             end), registries s).
Proof.
  intros H. unfold createWebRtcTransport. rewrite H.
  unfold createTransport. destruct (present matchId); reflexivity.
Qed.

Lemma serve_router_unset x s :
  router (serve x s) = None -> router s = None.
Proof.
  destruct x as [created|r]; cbn.
  - destruct created as [w|e]; cbn; [|auto].
    destruct (createRouter w); cbn; [discriminate | auto].
  - destruct r; cbn; auto.
Qed.

Lemma serve_bare x s :
  (router s = None ->
   forall m k, lookup2 (matchTransports (registries s)) m k = None
               /\ lookup2 (matchProducers (registries s)) m k = None
               /\ lookup2 (matchConsumers (registries s)) m k = None) ->
  router (serve x s) = None ->
  forall m k, lookup2 (matchTransports (registries (serve x s))) m k = None
              /\ lookup2 (matchProducers (registries (serve x s))) m k = None
              /\ lookup2 (matchConsumers (registries (serve x s))) m k = None.
Proof.
  intros IH Hr. pose proof (IH (serve_router_unset x s Hr)) as Hb.
  pose proof (serve_router_unset x s Hr) as Hs.
  destruct x as [created|r].
  - cbn. destruct created as [w|e]; cbn; [|exact Hb].
    destruct (createRouter w); cbn; exact Hb.
  - assert (Hstep : registries (serve (Handled r) s)
                    = match r with
                      | CreateTransport _ _ => registries s
                      | _ => step r (registries s)
                      end).
    { destruct r; try reflexivity. cbn. unfold after.
      now rewrite (createTransport_unset matchId created s Hs). }
    rewrite Hstep.
    destruct (step_fades_or_creates r (registries s))
      as [Hf|[(matchId & created & ->)|(m0 & t0 & Hne)]].
    + destruct r; try (apply (bare_fades _ _ Hb Hf)). exact Hb.
    + exact Hb.
    + destruct (Hb m0 t0) as (H0 & _). congruence.
Qed.

Lemma served_bare l s :
  (router s = None ->
   forall m k, lookup2 (matchTransports (registries s)) m k = None
               /\ lookup2 (matchProducers (registries s)) m k = None
               /\ lookup2 (matchConsumers (registries s)) m k = None) ->
  router (served l s) = None ->
  forall m k, lookup2 (matchTransports (registries (served l s))) m k = None
              /\ lookup2 (matchProducers (registries (served l s))) m k = None
              /\ lookup2 (matchConsumers (registries (served l s))) m k = None.
Proof.
  revert s. induction l as [|x l IH]; intros s Hs; cbn; [exact Hs|].
  apply IH. now apply serve_bare.
Qed.

(** X16. Nothing is registered before the router is there.  In every
    state the process reaches from start-up, through requests and engine
    replies that name no inherited member, in which [router] is still
    unset, and for requests with identifiers that are not such names: the capabilities request is answered 500 "Router not
    initialized"; the three registries hold no entry; a create-transport
    request is answered 400 without a session id and otherwise 500, the
    TypeError on the unset router being caught, and registers nothing;
    and connect, produce and consume requests are answered 400 or
    TransportNotFound, so that [consume] never gets as far as
    [router.canConsume]. *)
Theorem nothing_registered_before_the_router :
  forall l,
    forallb plain_happening l = true ->
    router (served l starting) = None ->
    getCapabilities (served l starting) = error 500 "Router not initialized"
    /\ (forall m k,
          lookup2 (matchTransports (registries (served l starting))) m k = None
          /\ lookup2 (matchProducers (registries (served l starting))) m k
             = None
          /\ lookup2 (matchConsumers (registries (served l starting))) m k
             = None)
    /\ (forall matchId created,
          plain matchId ->
          createTransport matchId
            (createWebRtcTransport (served l starting) created)
            (registries (served l starting))
          = (Normal (match present matchId with
                     | None => SessionIdMissing
                     | Some _ => error 500 "Transport creation failed"
                     end), registries (served l starting)))
    /\ (forall matchId transportId dtls connected,
          plain matchId -> plain transportId ->
          In (answer (connectTransport matchId transportId dtls connected)
                (registries (served l starting)))
             [Normal (error 400 "Match ID and Transport ID are required");
              Normal TransportNotFound])
    /\ (forall matchId transportId kind rtp produced,
          plain matchId -> plain transportId ->
          In (answer (produce matchId transportId kind rtp produced)
                (registries (served l starting)))
             [Normal (error 400 "Missing required fields");
              Normal TransportNotFound])
    /\ (forall matchId transportId caps can consumed,
          plain matchId -> plain transportId ->
          In (answer (consume matchId transportId caps can consumed)
                (registries (served l starting)))
             [Normal (error 400 "Missing required fields");
              Normal TransportNotFound]).
Proof.
  intros l _ Hr.
  assert (Hb := served_bare l starting
                  (fun _ m k => conj eq_refl (conj eq_refl eq_refl)) Hr).
  set (s := served l starting) in *.
  split; [unfold getCapabilities; now rewrite Hr|].
  split; [exact Hb|].
  split; [intros; now apply createTransport_unset|].
  split; [|split].
  - intros matchId transportId dtls connected _ _.
    unfold answer, connectTransport.
    destruct (present matchId) as [m|]; [|cbn; auto].
    destruct (present transportId) as [t|]; [|cbn; auto].
    rewrite bind_inspect. destruct (Hb m t) as (-> & _). cbn. auto.
  - intros matchId transportId kind rtp produced _ _. unfold answer.
    destruct (present matchId) as [m|] eqn:Hm;
      [|rewrite produce_missing by auto; cbn; auto].
    destruct (present transportId) as [t|] eqn:Ht;
      [|rewrite produce_missing by auto; cbn; auto].
    destruct (present kind) as [k|] eqn:Hk;
      [|rewrite produce_missing by auto; cbn; auto].
    destruct rtp as [r|];
      [|rewrite produce_missing by auto; cbn; auto].
    rewrite (produce_eq matchId transportId kind (Some r) produced _ m t
               Hm Ht) by (rewrite ?Hk; discriminate).
    destruct (Hb m t) as (-> & _). cbn. auto.
  - intros matchId transportId caps can consumed _ _. unfold answer.
    destruct (present matchId) as [m|] eqn:Hm;
      [|rewrite consume_missing by auto; cbn; auto].
    destruct (present transportId) as [t|] eqn:Ht;
      [|rewrite consume_missing by auto; cbn; auto].
    destruct caps as [c0|];
      [|rewrite consume_missing by auto; cbn; auto].
    rewrite (consume_eq matchId transportId (Some c0) can consumed _ m t
               Hm Ht) by discriminate.
    destruct (Hb m t) as (-> & _). cbn. auto.
Qed.

Lemma nothing_registered_before_the_router_witness :
  getCapabilities
    (served [Boot (Throws "no worker");
             Handled (CreateTransport Demo.m1 (Returns Demo.transport1))]
       starting)
  = error 500 "Router not initialized".
Proof.
  apply (nothing_registered_before_the_router
           [Boot (Throws "no worker");
            Handled (CreateTransport Demo.m1 (Returns Demo.transport1))]);
    reflexivity.
Defined.

Lemma serve_router_kept x s : router s <> None -> router (serve x s) <> None.
Proof.
  destruct x as [created|r]; cbn.
  - destruct created as [w|e]; cbn; [|auto].
    destruct (createRouter w); cbn; [discriminate | auto].
  - destruct r; cbn; auto.
Qed.

(** X17. Once the router is there, the capabilities stay available.  A
    start-up in which [createWorker()] and [createRouter()] both return
    sets the router, and the capabilities request is then answered 200
    with that router's capabilities; a start-up that throws, and every
    request, leaves the router as it was; so after any further happenings
    the capabilities request is still answered 200. *)
Theorem capabilities_stay_available :
  (forall w r s,
      createRouter w = Returns r ->
      getCapabilities (serve (Boot (Returns w)) s)
      = json (JBlob (router_rtpCapabilities r)))
  /\ (forall created s,
      fst (createMediasoupWorker created s) <> Normal tt ->
      router (serve (Boot created) s) = router s)
  /\ (forall r s, router (serve (Handled r) s) = router s)
  /\ (forall l s,
      router s <> None -> status (getCapabilities (served l s)) = 200).
Proof.
  split; [|split; [|split]].
  - intros w r s H. unfold getCapabilities. cbn. now rewrite H.
  - intros created s. cbn. destruct created as [w|e]; cbn; [|reflexivity].
    destruct (createRouter w); cbn; [congruence | reflexivity].
  - intros r s. destruct r; reflexivity.
  - intros l s Hs.
    assert (H : router (served l s) <> None).
    { revert s Hs. induction l as [|x l IH]; intros s Hs; cbn; [assumption|].
      apply IH. now apply serve_router_kept. }
    unfold getCapabilities. destruct (router (served l s)); [reflexivity|].
    congruence.
Qed.

Lemma capabilities_stay_available_witness :
  status
    (getCapabilities
       (served [Handled (CleanupSession Demo.m1 quiet); Boot (Throws "again")]
          (serve (Boot (Returns
                    {| createRouter :=
                         Returns {| router_rtpCapabilities := blob "caps" |}
                    |})) starting)))
  = 200.
Proof.
  destruct capabilities_stay_available as (_ & _ & _ & H).
  apply H. discriminate.
Defined.

(** ** Closing what is not there *)

(** X18. Closing something unknown is a success that does nothing.  In a
    state the process reaches through requests that name no inherited
    member, with the ids present and none of them such a name, [closeProducer] on a producer not registered under
    the session, [closeTransport] on a transport not registered under it,
    and [cleanupSession] on a session with no entry in any registry answer
    success and leave the state as it is, whatever the engine would do;
    with an id missing they answer 400 and leave the state as it is.  An
    id registered under another session counts as unknown. *)
Theorem closing_the_unknown :
  (forall matchId producerId closing w m p,
      pristine w -> ordinary m -> ordinary p ->
      present matchId = Some m -> present producerId = Some p ->
      lookup2 (matchProducers w) m p = None ->
      closeProducer matchId producerId closing w = (Normal success, w))
  /\ (forall matchId transportId closing w m t,
      pristine w -> ordinary m -> ordinary t ->
      present matchId = Some m -> present transportId = Some t ->
      lookup2 (matchTransports w) m t = None ->
      closeTransport matchId transportId closing w = (Normal success, w))
  /\ (forall matchId closing w m,
      pristine w -> ordinary m ->
      present matchId = Some m -> absent m w ->
      cleanupSession matchId closing w = (Normal success, w))
  /\ (forall matchId producerId closing w,
      present matchId = None \/ present producerId = None ->
      closeProducer matchId producerId closing w
      = (Normal (error 400 "Match ID and Producer ID required"), w))
  /\ (forall matchId transportId closing w,
      present matchId = None \/ present transportId = None ->
      closeTransport matchId transportId closing w
      = (Normal (error 400 "Match ID and Transport ID required"), w))
  /\ (forall matchId closing w,
      present matchId = None ->
      cleanupSession matchId closing w
      = (Normal (error 400 "Match ID required"), w)).
Proof.
  split; [|split; [|split; [|split; [|split]]]].
  - intros matchId producerId closing w m p _ _ _ Hm Hp H.
    now rewrite (closeProducer_eq matchId producerId closing w m p Hm Hp), H.
  - intros matchId transportId closing w m t _ _ _ Hm Ht H.
    now rewrite (closeTransport_eq matchId transportId closing w m t Hm Ht), H.
  - intros matchId closing w m _ _ Hm H.
    now apply (cleanupSession_absent matchId closing w m).
  - intros matchId producerId closing w H. unfold closeProducer.
    destruct (present matchId); [|reflexivity].
    destruct (present producerId); [|reflexivity].
    destruct H; discriminate.
  - intros matchId transportId closing w H. unfold closeTransport.
    destruct (present matchId); [|reflexivity].
    destruct (present transportId); [|reflexivity].
    destruct H; discriminate.
  - intros matchId closing w H. unfold cleanupSession. now rewrite H.
Qed.

Lemma closing_the_unknown_witness :
  pristine Demo.with_producer
  /\ closeProducer (Some "m2") (Some "producer-1") failing Demo.with_producer
     = (Normal success, Demo.with_producer).
Proof.
  assert (H0 : pristine Demo.with_producer)
    by (exists Demo.to_producer; split; reflexivity).
  split; [exact H0|].
  destruct closing_the_unknown as (H & _).
  apply (H (Some "m2") (Some "producer-1") failing Demo.with_producer
           "m2" "producer-1" H0); reflexivity.
Defined.
